(** * PairMap: the map generator (src/pairmap/map_generator.py)

    A shallow embedding of [MapGenerator] and of the part of networkx it
    calls, followed by the properties of the pair-map construction.

    Modelling conventions.
    - A score is a rational ([Q]) that stands for the float64 nearest to
      it.  What the rounding of floats decides is computed in binary64
      ([F64]): [np.round(x, 2)], which yields a number [k/100] of
      hundredths, and the sums of reciprocals that choose the path.
    - A Python [dict] is an insertion-ordered association list ([dict]);
      a Python [set] is a [gset].
    - A networkx [Graph] is the pair of dictionaries networkx keeps
      ([_node], [_adj]); the attribute dictionary of an edge is a value of
      the type parameter of [Graph].
    - Exceptions are the constructors of [exn]; a method of [MapGenerator]
      is a function from the object ([self]) to a result or an exception. *)

From Stdlib Require Import QArith Qround.
From Stdlib Require Import Floats.SpecFloat.
From stdpp Require Import base list gmap strings pretty.

Set Default Proof Using "Type".
Open Scope nat_scope.

(** ** Exceptions *)

Inductive stage := ReachableStage | CycleStage | MainStage.

Inductive exn :=
| CustomMatrixSizeMismatch      (* line 35 *)
| CustomMatrixNotSquare         (* line 37 *)
| IndexError                    (* list index out of range *)
| TypeError                     (* subscripting None *)
| KeyError                      (* missing edge or attribute *)
| NodeNotFound                  (* networkx: endpoint not in the graph *)
| NoPathFound                   (* line 106 *)
| InvalidGraph (s : stage)      (* lines 158, 171, 184 *)
| InvalidInitialGraph           (* line 309 *)
| OverflowError                 (* int() of an infinite float, line 299 *)
| ValueError                    (* int() of nan, line 299 *)
| ZeroDivisionError             (* line 210 *)
| RecursionError.               (* recursion deeper than the fuel *)

Definition result (A : Type) : Type := exn + A.

Abbreviation ret a := (inr a : result _) (only parsing).
Abbreviation raise e := (inl e : result _) (only parsing).
Definition bind {A B} (m : result A) (k : A -> result B) : result B :=
  match m with
  | inl e => inl e
  | inr a => k a
  end.

Notation "x <- m ;; k" := (bind m (fun x => k))
  (at level 100, m at next level, right associativity).

(** A [for] loop whose body may raise. *)
Fixpoint foldM {A S} (body : A -> S -> result S) (l : list A) (s : S) : result S :=
  match l with
  | [] => ret s
  | a :: l' => s' <- body a s ;; foldM body l' s'
  end.

(** ** Insertion-ordered dictionaries *)

Section dict.
Context {K V : Type} `{EqDecision K}.

Definition dict := list (K * V).

Fixpoint dget (k : K) (d : dict) : option V :=
  match d with
  | [] => None
  | (k', v) :: d' => if decide (k = k') then Some v else dget k d'
  end.

(** [d[k] = v]: an existing key keeps its position, a new key goes last. *)
Fixpoint dset (k : K) (v : V) (d : dict) : dict :=
  match d with
  | [] => [(k, v)]
  | (k', v') :: d' =>
      if decide (k = k') then (k, v) :: d' else (k', v') :: dset k v d'
  end.

(** [del d[k]] *)
Fixpoint ddel (k : K) (d : dict) : dict :=
  match d with
  | [] => []
  | (k', v') :: d' =>
      if decide (k = k') then ddel k d' else (k', v') :: ddel k d'
  end.

(** [d[k] = f(d[k])] when [k] is a key. *)
Fixpoint dalter (f : V -> V) (k : K) (d : dict) : dict :=
  match d with
  | [] => []
  | (k', v') :: d' =>
      if decide (k = k') then (k', f v') :: d' else (k', v') :: dalter f k d'
  end.

Definition dkeys (d : dict) : list K := d.*1.

Definition dmem (k : K) (d : dict) : bool := bool_decide (is_Some (dget k d)).

(** The entries whose key satisfies [p], in order. *)
Fixpoint dfilter (p : K -> bool) (d : dict) : dict :=
  match d with
  | [] => []
  | (k', v') :: d' => if p k' then (k', v') :: dfilter p d' else dfilter p d'
  end.
End dict.

Arguments dict : clear implicits.

(** [{k: f(v) for k, v in d.items()}] *)
Definition dmap {K V W} (f : V -> W) (d : dict K V) : dict K W :=
  (fun kv => (kv.1, f kv.2)) <$> (d : list (K * V)).

(** ** networkx.Graph

    [_node] maps a node to its ['label'] attribute ([None] while the node
    has no label); [_adj] maps a node to the dictionary of its neighbours,
    each with the attribute bundle of the edge.  Both keep insertion
    order, as Python dictionaries do. *)

Record Graph (A : Type) := mkGraph {
  _node : dict nat (option string);
  _adj : dict nat (dict nat A)
}.
Arguments mkGraph {A} _ _.
Arguments _node {A} _.
Arguments _adj {A} _.

Section graph.
Context {A : Type}.
Implicit Types (g : Graph A) (u v n : nat) (a : A).

(** [nx.Graph()] *)
Definition empty_graph : Graph A := mkGraph [] [].

(** [n in g] *)
Definition has_node g n : bool := dmem n (_node g).

(** [list(g.nodes)] *)
Definition nodes g : list nat := dkeys (_node g).

(** [g.add_node(n)] without attributes: an existing node is left alone. *)
Definition add_node n g : Graph A :=
  if has_node g n then g
  else mkGraph (_node g ++ [(n, None)]) (_adj g ++ [(n, [])]).

(** [g.nodes[n]['label'] = name] *)
Definition set_label n (name : string) g : Graph A :=
  mkGraph (dalter (fun _ => Some name) n (_node g)) (_adj g).

(** [g.get_edge_data(u, v)]: [None] when the edge is absent. *)
Definition get_edge_data g u v : option A :=
  match dget u (_adj g) with
  | Some nbrs => dget v nbrs
  | None => None
  end.

Definition has_edge g u v : bool := bool_decide (is_Some (get_edge_data g u v)).

(** [g.add_edge(u, v, **a)]: both endpoints are added when missing; the
    bundle [a] names every attribute of the edge, so it replaces the
    bundle of an existing edge. *)
Definition add_edge u v a g : Graph A :=
  let g' := add_node v (add_node u g) in
  mkGraph (_node g')
          (dalter (dset u a) v (dalter (dset v a) u (_adj g'))).

(** [g.remove_edges_from([(u, v)])]: an absent edge is skipped. *)
Definition remove_edge u v g : Graph A :=
  if has_edge g u v
  then mkGraph (_node g) (dalter (ddel u) v (dalter (ddel v) u (_adj g)))
  else g.

Definition remove_edges_from (ebunch : list (nat * nat)) g : Graph A :=
  foldl (fun g e => remove_edge e.1 e.2 g) g ebunch.

(** [g.subgraph(S)], materialized: the subgraph induced by the nodes of
    [S]. *)
Definition subgraph g (S : gset nat) : Graph A :=
  let keep := fun n => bool_decide (n ∈ S) in
  mkGraph (dfilter keep (_node g))
          (dmap (dfilter keep) (dfilter keep (_adj g))).

(** [list(g[u])] *)
Definition neighbors g u : list nat :=
  match dget u (_adj g) with
  | Some nbrs => dkeys nbrs
  | None => []
  end.

(** [list(g.edges(data=True))]: every edge once, reported from the
    endpoint met first in node order. *)
Fixpoint edges_from (seen : list nat) (adj : dict nat (dict nat A))
  : list (nat * nat * A) :=
  match adj with
  | [] => []
  | (n, nbrs) :: adj' =>
      ((fun e => (n, e.1, e.2)) <$> filter (fun e => e.1 ∉ seen) nbrs)
        ++ edges_from (n :: seen) adj'
  end.

Definition edges g : list (nat * nat * A) := edges_from [] (_adj g).

(** *** Traversals *)

(** The bounded depth-first enumeration of [nx.all_simple_paths]:
    [visited] is the path so far, [u] its last node, [fuel] the number
    of edges that may still be added.  A path is reported when it
    reaches [t] and is not extended past it. *)
Fixpoint simple_paths_from g (t : nat) (fuel : nat) (visited : list nat) u
  : list (list nat) :=
  match fuel with
  | 0 => []
  | S fuel' =>
      flat_map (fun c =>
        if bool_decide (c ∈ visited) then []
        else if bool_decide (c = t) then [visited ++ [c]]
        else simple_paths_from g t fuel' (visited ++ [c]) c)
      (neighbors g u)
  end.

(** [list(nx.all_simple_paths(g, s, t, cutoff))].  For [s = t] the
    listing is empty, as in networkx 3.1; later releases list the
    one-node path there, so the properties of the path search below are
    stated for two different endpoints, where the releases agree. *)
Definition all_simple_paths g (s t : nat) (cutoff : nat) : result (list (list nat)) :=
  if negb (has_node g s) then raise NodeNotFound
  else if negb (has_node g t) then raise NodeNotFound
  else if bool_decide (s = t) then ret []
  else ret (simple_paths_from g t cutoff [s] s).

(** Cycles through root [r] whose other nodes are larger than [r];
    [path] starts at [r] and ends at [u].  A cycle is reported in one
    of its two directions. *)
Fixpoint cycles_from g (r : nat) (fuel : nat) (path : list nat) u
  : list (list nat) :=
  match fuel with
  | 0 => []
  | S fuel' =>
      flat_map (fun c =>
        if bool_decide (c ≤ r) || bool_decide (c ∈ path) then []
        else
          (if has_edge g c r && bool_decide (2 ≤ length path)
              && bool_decide (default c (path !! 1) < c)
           then [path ++ [c]] else [])
          ++ cycles_from g r fuel' (path ++ [c]) c)
      (neighbors g u)
  end.

(** [list(nx.simple_cycles(g, length_bound))] for a graph without
    self-loops: every cycle of at least three and at most
    [length_bound] nodes, once. *)
Definition simple_cycles g (length_bound : nat) : list (list nat) :=
  flat_map (fun r => cycles_from g r (length_bound - 1) [r] r) (nodes g).

(** One round of breadth-first growth. *)
Definition grow g (S : gset nat) : gset nat :=
  S ∪ list_to_set (flat_map (neighbors g) (elements S)).

(** The connected component of [v]. *)
Definition component g v : gset nat :=
  Nat.iter (length (nodes g)) (grow g) {[v]}.

Fixpoint components_from g (seen : gset nat) (vs : list nat) : list (gset nat) :=
  match vs with
  | [] => []
  | v :: vs' =>
      if bool_decide (v ∈ seen) then components_from g seen vs'
      else let c := component g v in c :: components_from g (seen ∪ c) vs'
  end.

(** [list(nx.connected_components(g))] *)
Definition connected_components g : list (gset nat) :=
  components_from g ∅ (nodes g).

(** [nx.has_path(g, s, t)] *)
Definition has_path g (s t : nat) : result bool :=
  if negb (has_node g s) || negb (has_node g t) then raise NodeNotFound
  else ret (bool_decide (t ∈ component g s)).
End graph.

(** ** Numbers *)

Open Scope Q_scope.

(** [np.rint]: the nearest integer, halves to the even neighbour. *)
Definition rint (q : Q) : Z :=
  let f := Qfloor q in
  match Qcompare (q - inject_Z f)%Q (1 # 2)%Q with
  | Lt => f
  | Gt => (f + 1)%Z
  | Eq => if Z.even f then f else (f + 1)%Z
  end.

(** [sorted(l)], stable, ascending. *)
Fixpoint insert_sorted {X} (key : X -> Q) (x : X) (l : list X) : list X :=
  match l with
  | [] => [x]
  | y :: l' =>
      if Qle_bool (key x) (key y) then x :: y :: l'
      else y :: insert_sorted key x l'
  end.

Definition sort_by {X} (key : X -> Q) (l : list X) : list X :=
  foldr (insert_sorted key) [] l.

Close Scope Q_scope.

(** ** Binary64 *)

(** numpy's [float64]: the binary64 arithmetic of IEEE 754, as the
    Standard Library specifies it ([SpecFloat]): 53 bits of mantissa, the
    infinities at exponent 1024, every operation rounded to the nearest
    float, ties to the even mantissa. *)
Module F64.
Definition prec : Z := 53.
Definition emax : Z := 1024.
Definition t : Type := spec_float.
Definition zero : t := S754_zero false.
(** [float(z)] *)
Definition of_Z (z : Z) : t := binary_normalize prec emax z 0 false.
Definition one : t := of_Z 1.
Definition add : t -> t -> t := SFadd prec emax.
Definition mul : t -> t -> t := SFmul prec emax.
Definition div : t -> t -> t := SFdiv prec emax.
Definition leb : t -> t -> bool := SFleb.
Definition is_nan (x : t) : bool :=
  match x with S754_nan => true | _ => false end.
(** The number a finite float is; [0] for what is not finite. *)
Definition to_Q (x : t) : Q :=
  match x with
  | S754_finite s m e =>
      let z := if s then Zneg m else Zpos m in
      match e with
      | Z0 => Qmake z 1
      | Zpos p => Qmake (z * Zpos (2 ^ p)) 1
      | Zneg p => Qmake z (2 ^ p)
      end
  | _ => 0%Q
  end.
End F64.

(** The float64 a rational [n/d] of the model stands for: the quotient of
    the floats of [n] and [d], which is the float64 nearest to [n/d] when
    [n] and [d] are below 2^53.  For a score [k/100] it is the float that
    [np.round] returns, a whole number divided by [100.0]. *)
Definition score_float (score : Q) : F64.t :=
  F64.div (F64.of_Z (Qnum score)) (F64.of_Z (Zpos (Qden score))).

(** [np.round(score, decimals=2)] (line 86): numpy multiplies by [100.0],
    takes [np.rint] and divides by [100.0], each in float64; the model
    keeps the whole number [k] of hundredths and writes the score as
    [k/100].  The sign of a zero is not kept, and entries whose
    hundredfold is beyond the range of float64 are outside the model. *)
Definition round2 (score : Q) : Q :=
  Qmake (rint (F64.to_Q (F64.mul (score_float score) (F64.of_Z 100)))) 100.

(** An entry of [1/np.array(scores)]: [1/0.0] is [inf]. *)
Definition recip (score : Q) : F64.t := F64.div F64.one (score_float score).

(** [np.sum] over a float64 array is numpy's pairwise summation.  Fewer
    than 8 values are added to zero one after the other. *)
Definition sum_upto7 (a : list F64.t) : F64.t := foldl F64.add F64.zero a.

(** From 8 to 128 values there are 8 accumulators [r], which start as
    the first 8 values; every further whole block of 8 values is added
    to them place by place.  [add_blocks k r a] reads [k] blocks from
    [a]. *)
Fixpoint add_blocks (k : nat) (r a : list F64.t) : list F64.t :=
  match k with
  | 0 => r
  | S k' => add_blocks k' (zip_with F64.add r (take 8 a)) (drop 8 a)
  end.

(** After the whole blocks the accumulators are added in pairs, and the
    values left over are added to that sum one after the other. *)
Definition sum_upto128 (a : list F64.t) : F64.t :=
  let n := length a in
  let r := add_blocks ((n - n mod 8) / 8 - 1) (take 8 a) (drop 8 a) in
  let res :=
    match r with
    | [r0; r1; r2; r3; r4; r5; r6; r7] =>
        F64.add (F64.add (F64.add r0 r1) (F64.add r2 r3))
                (F64.add (F64.add r4 r5) (F64.add r6 r7))
    | _ => F64.zero
    end in
  foldl F64.add res (drop (n - n mod 8) a).

(** More than 128 values are split in two, the first part a multiple of
    8 long, and the sums of the parts are added.  [fuel] bounds the depth
    of the recursion. *)
Fixpoint pairwise_sum (fuel : nat) (a : list F64.t) : F64.t :=
  let n := length a in
  if n <? 8 then sum_upto7 a
  else if n <=? 128 then sum_upto128 a
  else match fuel with
       | 0 => F64.zero
       | S fuel' =>
           let n2 := n / 2 - (n / 2) mod 8 in
           F64.add (pairwise_sum fuel' (take n2 a))
                   (pairwise_sum fuel' (drop n2 a))
       end.

(** [np.sum(a)]: the reduction starts from the identity of the addition
    and adds the pairwise sum of the array to it. *)
Definition np_sum (a : list F64.t) : F64.t :=
  F64.add F64.zero (pairwise_sum (length a) a).

(** [np.sum(1/np.array(scores))] (line 113) *)
Definition sum_recip (scores : list Q) : F64.t := np_sum (recip <$> scores).

(** [np.argmin]: the index of the first nan when there is one, and of the
    first least value otherwise; [best] is the least value so far, found
    at [best_idx], and is replaced by a value [c] unless [best <= c]. *)
Fixpoint argmin_from (best_idx : nat) (best : F64.t) (i : nat)
    (l : list F64.t) : nat :=
  match l with
  | [] => best_idx
  | c :: l' =>
      if negb (F64.leb best c) then
        if F64.is_nan c then i else argmin_from i c (S i) l'
      else argmin_from best_idx best (S i) l'
  end.

Definition argmin (l : list F64.t) : nat :=
  match l with
  | [] => 0
  | c :: l' => if F64.is_nan c then 0 else argmin_from 0 c 1 l'
  end.

(** [itertools.combinations(range(n), 2)] *)
Definition combinations2 (n : nat) : list (nat * nat) :=
  flat_map (fun u => pair u <$> seq (S u) (n - S u)) (seq 0 n).

(** [enumerate(l)] *)
Definition enumerate {X} (l : list X) : list (nat * X) :=
  zip (seq 0 (length l)) l.

(** The links of a path: [(path[i], path[i+1])] for [i] in
    [range(len(path)-1)]. *)
Definition links (path : list nat) : list (nat * nat) :=
  zip path (tail path).

(** ** The attribute bundle of an edge of the pair map *)

Module Edge.
Record data := mk { score : Q; found_path : bool }.
End Edge.

(** ** MapGenerator *)

Definition matrix := list (list Q).

(** An RDKit molecule, as far as this module looks at it: its [_Name]
    property, when it has one. *)
Record intermediate := { prop_Name : option string }.

(** The keyword arguments of the constructor. *)
Record Params := {
  optimal_path_mode : bool;
  maxPathLength : nat;
  cycleLength : nat;
  maxOptimalPathLength : nat;
  roughMaxPathLength : nat;
  roughScoreThreshold : Q;
  minScoreThreshold : Q;
  chunkScale : nat;
  source_node_index : nat;
  target_node_index : nat;
  jobs : nat;
  custum_score_matrix : option matrix;
  verbose : bool
}.

Definition default_params : Params := {|
  optimal_path_mode := false;
  maxPathLength := 4;
  cycleLength := 3;
  maxOptimalPathLength := 3;
  roughMaxPathLength := 2;
  roughScoreThreshold := (5 # 10)%Q;
  minScoreThreshold := (2 # 10)%Q;
  chunkScale := 10;
  source_node_index := 0;
  target_node_index := 1;
  jobs := 0;
  custum_score_matrix := None;
  verbose := false
|}.

(** The object.  [params] holds the attributes that copy a constructor
    argument and never change; the attributes below [N] are the ones
    [build_map] creates, with ∅, [[]] and [0] standing for "not yet
    assigned".  [heap] holds the graph objects the pruner has created and
    [tmp_subgraph] is a reference into it, so that two names for one
    graph object see the same mutations. *)
Record MapGenerator := mkSelf {
  params : Params;
  intermediate_list : list intermediate;
  intermediate_names : list string;
  score_matrix : option matrix;
  N : nat;
  found_path : list nat;
  found_links : list (nat * nat);
  initialCycledNodesSet : gset nat;
  initialCycledEdgesSet : gset (nat * nat);
  heap : list (Graph Edge.data);
  tmp_subgraph : nat
}.

Fixpoint zeros (n : nat) : string :=
  match n with
  | 0 => EmptyString
  | S n' => String.append "0" (zeros n')
  end.

(** [f'intermediate-{i:04d}'] *)
Definition default_name (i : nat) : string :=
  let digits := pretty i in
  String.append "intermediate-"
    (String.append (zeros (4 - String.length digits)) digits).

(** [MapGenerator.__init__] (lines 12-61) *)
Definition init (intermediate_list : list intermediate) (p : Params)
  : result MapGenerator :=
  let intermediate_names :=
    (fun e => match prop_Name e.2 with
              | Some name => name
              | None => default_name e.1
              end) <$> enumerate intermediate_list in
  score_matrix <-
    match custum_score_matrix p with
    | Some m =>
        if negb (length m =? length intermediate_list)
        then raise CustomMatrixSizeMismatch
        else match m with
             | [] => raise IndexError
             | row0 :: _ =>
                 if negb (length row0 =? length intermediate_list)
                 then raise CustomMatrixNotSquare
                 else ret (Some m)
             end
    | None => ret None
    end ;;
  ret {| params := p;
         intermediate_list := intermediate_list;
         intermediate_names := intermediate_names;
         score_matrix := score_matrix;
         N := length intermediate_list;
         found_path := [source_node_index p; target_node_index p];
         found_links := [(source_node_index p, target_node_index p)];
         initialCycledNodesSet := ∅;
         initialCycledEdgesSet := ∅;
         heap := [];
         tmp_subgraph := 0 |}.

(** Attribute assignments on [self]. *)
Definition set_score_matrix (m : matrix) (self : MapGenerator) : MapGenerator :=
  mkSelf (params self) (intermediate_list self) (intermediate_names self)
         (Some m) (N self) (found_path self) (found_links self)
         (initialCycledNodesSet self) (initialCycledEdgesSet self)
         (heap self) (tmp_subgraph self).

Definition set_found (path : list nat) (lks : list (nat * nat))
    (self : MapGenerator) : MapGenerator :=
  mkSelf (params self) (intermediate_list self) (intermediate_names self)
         (score_matrix self) (N self) path lks
         (initialCycledNodesSet self) (initialCycledEdgesSet self)
         (heap self) (tmp_subgraph self).

Definition set_initialCycled (ns : gset nat) (es : gset (nat * nat))
    (self : MapGenerator) : MapGenerator :=
  mkSelf (params self) (intermediate_list self) (intermediate_names self)
         (score_matrix self) (N self) (found_path self) (found_links self)
         ns es (heap self) (tmp_subgraph self).

Definition set_heap (h : list (Graph Edge.data)) (ref : nat)
    (self : MapGenerator) : MapGenerator :=
  mkSelf (params self) (intermediate_list self) (intermediate_names self)
         (score_matrix self) (N self) (found_path self) (found_links self)
         (initialCycledNodesSet self) (initialCycledEdgesSet self) h ref.

(** The graph object behind a reference. *)
Definition deref (self : MapGenerator) (ref : nat) : Graph Edge.data :=
  default empty_graph (heap self !! ref).

(** An in-place mutation of the object behind [ref]. *)
Definition mutate (ref : nat) (f : Graph Edge.data -> Graph Edge.data)
    (self : MapGenerator) : MapGenerator :=
  set_heap (alter f ref (heap self)) (tmp_subgraph self) self.

(** [self.tmp_subgraph = g], [g] a new object. *)
Definition set_tmp_subgraph (g : Graph Edge.data) (self : MapGenerator)
  : MapGenerator :=
  set_heap (heap self ++ [g]) (length (heap self)) self.

(** [self.score_matrix[u][v]] *)
Definition matrix_get (m : option matrix) (u v : nat) : result Q :=
  match m with
  | None => raise TypeError
  | Some rows =>
      match rows !! u with
      | None => raise IndexError
      | Some row =>
          match row !! v with
          | None => raise IndexError
          | Some x => ret x
          end
      end
  end.

(** Lines 84-88: the loop over the pairs. *)
Definition add_scored_edges (self : MapGenerator) (min_score : Q)
    (graph : Graph Q) : result (Graph Q) :=
  foldM (fun e graph =>
           score <- matrix_get (score_matrix self) e.1 e.2 ;;
           let round_score := round2 score in
           if Qle_bool min_score round_score
           then ret (add_edge e.1 e.2 round_score graph)
           else ret graph)
        (combinations2 (N self)) graph.

(** [make_graph] (lines 76-89) *)
Definition make_graph (self : MapGenerator) (min_score : option Q)
  : result (Graph Q) :=
  let min_score := default (minScoreThreshold (params self)) min_score in
  foldM (fun e graph =>
           add_scored_edges self min_score
             (set_label e.1 e.2 (add_node e.1 graph)))
        (enumerate (intermediate_names self)) empty_graph.

(** [make_optimal_path_graph] (lines 63-74) *)
Definition make_optimal_path_graph (self : MapGenerator) : result (Graph Q) :=
  let graph :=
    foldl (fun graph e =>
             if bool_decide (e.1 ∈ found_path self)
             then set_label e.1 e.2 (add_node e.1 graph)
             else graph)
          empty_graph (enumerate (intermediate_names self)) in
  foldM (fun e graph =>
           score <- matrix_get (score_matrix self) e.1 e.2 ;;
           ret (add_edge e.1 e.2 score graph))
        (links (found_path self)) graph.

(** [[graph.get_edge_data(path[i], path[i+1])['score'] for i in ...]] *)
Definition path_scores (graph : Graph Q) (path : list nat) : result (list Q) :=
  foldr (fun e acc =>
           match get_edge_data graph e.1 e.2 with
           | None => raise TypeError
           | Some score => rest <- acc ;; ret (score :: rest)
           end)
        (ret []) (links path).

Definition mapM {X Y} (f : X -> result Y) (l : list X) : result (list Y) :=
  foldr (fun x acc => y <- f x ;; rest <- acc ;; ret (y :: rest)) (ret []) l.

(** Line 116 *)
Definition links_ascending (path : list nat) : list (nat * nat) :=
  (fun e => if bool_decide (e.1 < e.2) then (e.1, e.2) else (e.2, e.1))
    <$> links path.

(** [find_optimal_path] (lines 91-118).  The rough search only prints;
    of it the model keeps the two calls that can raise. *)
Definition find_optimal_path (self : MapGenerator)
  : result (list nat * MapGenerator) :=
  let p := params self in
  graph <- make_graph self (Some (roughScoreThreshold p)) ;;
  _ <- has_path graph (source_node_index p) (target_node_index p) ;;
  graph <- make_graph self None ;;
  all_paths <- all_simple_paths graph (source_node_index p)
                 (target_node_index p) (maxOptimalPathLength p) ;;
  if length all_paths =? 0 then raise NoPathFound
  else
    path_scores_list <-
      mapM (fun path => scores <- path_scores graph path ;;
                        ret (sort_by id scores)) all_paths ;;
    let sum_scores := sum_recip <$> path_scores_list in
    let best_idx := argmin sum_scores in
    match all_paths !! best_idx with
    | None => raise IndexError
    | Some path => ret (path, set_found path (links_ascending path) self)
    end.

(** ** The parts of the repository outside this file *)

(** Modelled from the spec: [find_bridges] of [pairmap.utils], which is
    not part of the sources at hand.  "Compute the bridge set of G": an
    edge is a bridge when removing it disconnects its endpoints.  The
    bridges are reported like the found links, smaller endpoint first. *)
Definition find_bridges {A} (graph : Graph A) : gset (nat * nat) :=
  list_to_set
    ((fun e => (e.1.1 `min` e.1.2, e.1.1 `max` e.1.2)) <$>
       filter (fun e => e.1.2 ∉ component (remove_edge e.1.1 e.1.2 graph) e.1.1)
              (edges graph)).

(** ** The invariant checker (lines 120-146) *)

Definition get_cycled_nodes {A} (self : MapGenerator) (graph : Graph A) : gset nat :=
  let all_simple_cycles := simple_cycles graph (cycleLength (params self)) in
  let interior := tail (removelast (found_path self)) in
  let unique_nodes : gset nat :=
    foldl (fun unique_nodes path =>
             if existsb (fun node => bool_decide (node ∈ interior)) path
             then unique_nodes ∪ list_to_set path
             else unique_nodes)
          ∅ all_simple_cycles in
  list_to_set (found_path self) ∩ unique_nodes.

Definition get_cycled_edges {A} (self : MapGenerator) (graph : Graph A)
  : gset (nat * nat) :=
  let bridges := find_bridges graph in
  list_to_set (found_links self) ∖ bridges.

Definition check_node_cycle_covering {A} (self : MapGenerator) (graph : Graph A) : bool :=
  size (initialCycledNodesSet self ∖ get_cycled_nodes self graph) =? 0.

Definition check_edge_cycle_covering {A} (self : MapGenerator) (graph : Graph A) : bool :=
  size (initialCycledEdgesSet self ∖ get_cycled_edges self graph) =? 0.

Definition check_constraints {A} (self : MapGenerator) (graph : Graph A) : bool :=
  let constraintsMet := true in
  let constraintsMet :=
    if constraintsMet then check_node_cycle_covering self graph
    else constraintsMet in
  let constraintsMet :=
    if constraintsMet then check_edge_cycle_covering self graph
    else constraintsMet in
  constraintsMet.

(** ** The subgraph reductions (lines 148-185) *)

(** [not all([node in subgraph.nodes for node in self.found_path])] *)
Definition is_invalid {A} (self : MapGenerator) (subgraph : Graph A) : bool :=
  negb (forallb (has_node subgraph) (found_path self)).

Definition get_main_subgraph {A} (self : MapGenerator) (graph : Graph A)
  : result (Graph A) :=
  let subgraphs := connected_components graph in
  let subgraph :=
    match find (fun nodes : gset nat =>
                  forallb (fun node => bool_decide (node ∈ nodes)) (found_path self))
               subgraphs with
    | Some nodes => subgraph graph nodes
    | None => subgraph graph ∅
    end in
  if is_invalid self subgraph then raise (InvalidGraph MainStage)
  else ret subgraph.

Definition get_reachable_subgraph {A} (self : MapGenerator) (graph : Graph A)
  : result (Graph A) :=
  all_paths <- all_simple_paths graph (source_node_index (params self))
                 (target_node_index (params self)) (maxPathLength (params self)) ;;
  let unique_nodes : gset nat := list_to_set (found_path self) in
  let unique_nodes :=
    foldl (fun unique_nodes path => unique_nodes ∪ list_to_set path)
          unique_nodes all_paths in
  let subgraph := subgraph graph unique_nodes in
  if is_invalid self subgraph then raise (InvalidGraph ReachableStage)
  else ret subgraph.

Definition get_cycle_subgraph {A} (self : MapGenerator) (graph : Graph A)
  : result (Graph A) :=
  let all_simple_cycles := simple_cycles graph (cycleLength (params self)) in
  let unique_nodes : gset nat := list_to_set (found_path self) in
  let unique_nodes :=
    foldl (fun unique_nodes path =>
             if existsb (fun node => bool_decide (node ∈ found_path self)) path
             then unique_nodes ∪ list_to_set path
             else unique_nodes)
          unique_nodes all_simple_cycles in
  let subgraph := subgraph graph unique_nodes in
  if is_invalid self subgraph then raise (InvalidGraph CycleStage)
  else ret subgraph.

(** The three reductions in the order of lines 246-248 and 304-306. *)
Definition reduce {A} (self : MapGenerator) (graph : Graph A) : result (Graph A) :=
  exgraph <- get_reachable_subgraph self graph ;;
  exgraph <- get_cycle_subgraph self exgraph ;;
  get_main_subgraph self exgraph.

(** ** The initial graph (lines 187-195) *)

(** [graph[u][v]['found_path'] = flag]: the bundle is one object, seen
    from both endpoints. *)
Definition set_found_path_attr (u v : nat) (flag : bool)
    (graph : Graph Edge.data) : result (Graph Edge.data) :=
  match get_edge_data graph u v with
  | None => raise KeyError
  | Some d =>
      let set := dalter (fun d => Edge.mk (Edge.score d) flag) in
      ret (mkGraph (_node graph)
                   (dalter (set u) v (dalter (set v) u (_adj graph))))
  end.

Definition generate_initial_graph (self : MapGenerator) : result (Graph Edge.data) :=
  graph <- make_graph self None ;;
  let graph :=
    mkGraph (_node graph)
            (dmap (dmap (fun score => Edge.mk score false)) (_adj graph)) in
  foldM (fun e graph => set_found_path_attr e.1 e.2 true graph)
        (links (found_path self)) graph.

(** ** The chunked pruner (lines 197-265) *)

(** Line 234 *)
Definition removable (d : Edge.data) : bool :=
  negb (Qle_bool 1 (Edge.score d)) && negb (Edge.found_path d).

(** Lines 251-252 and 256-257: the chunk is put back. *)
Definition restore (edge_chunk : list (nat * nat)) (data_chunk : list Edge.data)
    (subgraph : Graph Edge.data) : Graph Edge.data :=
  foldl (fun subgraph ed => add_edge ed.1.1 ed.1.2 ed.2 subgraph)
        subgraph (zip edge_chunk data_chunk).

(** [check_chunk] (lines 231-265).  [subgraph] is a second name for the
    object [self.tmp_subgraph] refers to on entry; the edges are removed
    from and put back into that object. *)
Definition check_chunk (self : MapGenerator) (edge_chunk : list (nat * nat))
    (data_chunk : list Edge.data) : result (bool * MapGenerator) :=
  let subgraph := tmp_subgraph self in
  let removables := removable <$> data_chunk in
  if negb (forallb id removables) then
    if negb (existsb id removables) then ret (true, self)
    else ret (false, self)
  else
    let self := mutate subgraph (remove_edges_from edge_chunk) self in
    exgraph <- get_reachable_subgraph self (deref self subgraph) ;;
    exgraph <- get_cycle_subgraph self exgraph ;;
    exgraph <- get_main_subgraph self exgraph ;;
    if is_invalid self exgraph
    then ret (false, mutate subgraph (restore edge_chunk data_chunk) self)
    else if negb (check_constraints self exgraph)
    then ret (false, mutate subgraph (restore edge_chunk data_chunk) self)
    else ret (true, set_tmp_subgraph exgraph self).

(** The inner [while] of lines 215-220 and 320-326: entries are taken
    from the front of the two parallel lists, kept when the edge is still
    in [subgraph], until the chunk is full.  The result is the chunk and
    the entries not looked at. *)
Fixpoint take_live (subgraph : Graph Edge.data) (chunk_size : nat)
    (edge_chunk_in : list (nat * nat)) (data_chunk_in : list Edge.data)
    (rest : list ((nat * nat) * Edge.data))
  : list (nat * nat) * list Edge.data * list ((nat * nat) * Edge.data) :=
  match rest with
  | [] => (edge_chunk_in, data_chunk_in, [])
  | (e, d) :: rest' =>
      if length edge_chunk_in <? chunk_size then
        if has_edge subgraph e.1 e.2
        then take_live subgraph chunk_size
               (edge_chunk_in ++ [e]) (data_chunk_in ++ [d]) rest'
        else take_live subgraph chunk_size edge_chunk_in data_chunk_in rest'
      else (edge_chunk_in, data_chunk_in, rest)
  end.

(** The outer [while] of lines 212-228.  [subgraph] is the reference
    taken on line 198, which may no longer be [self.tmp_subgraph];
    [recurse] is the call of line 221; [n] bounds the number of rounds by
    the number of entries, one at least being consumed per round. *)
Fixpoint split_loop
    (recurse : MapGenerator -> list (nat * nat) -> list Edge.data ->
               result (bool * MapGenerator))
    (subgraph : nat) (chunk_size : nat) (n : nat)
    (rest : list ((nat * nat) * Edge.data)) (self : MapGenerator)
  : result MapGenerator :=
  match n, rest with
  | 0, _ | _, [] => ret self
  | S n', _ :: _ =>
      let chunk := take_live (deref self subgraph) chunk_size [] [] rest in
      r <- recurse self chunk.1.1 chunk.1.2 ;;
      let self := r.2 in
      if negb r.1 then
        let live :=
          filter (fun ed => has_edge (deref self subgraph) ed.1.1 ed.1.2 = true)
                 chunk.2 in
        r <- check_chunk self live.*1 live.*2 ;;
        if r.1 then ret r.2
        else split_loop recurse subgraph chunk_size n' chunk.2 r.2
      else split_loop recurse subgraph chunk_size n' chunk.2 self
  end.

(** [chunk_process] (lines 197-229).  The argument [idx] of the source
    only feeds the verbose print and is left out; [fuel] bounds the depth
    of the recursion. *)
Fixpoint chunk_process (fuel : nat) (self : MapGenerator)
    (edge_chunk : list (nat * nat)) (data_chunk : list Edge.data)
    (chunk_size : nat) : result (bool * MapGenerator) :=
  match fuel with
  | 0 => raise RecursionError
  | S fuel' =>
      let subgraph := tmp_subgraph self in
      r <- check_chunk self edge_chunk data_chunk ;;
      if r.1 then ret (true, r.2)
      else if chunk_size =? 1 then ret (false, r.2)
      else if chunkScale (params self) =? 0 then raise ZeroDivisionError
      else
        let chunk_size := (chunk_size / chunkScale (params self)) `max` 1 in
        self <- split_loop
                  (fun self e d => chunk_process fuel' self e d chunk_size)
                  subgraph chunk_size (length edge_chunk)
                  (zip edge_chunk data_chunk) r.2 ;;
        ret (true, self)
  end.

(** ** build_map (lines 267-349) *)

(** [floor(log(n) / log(base))] for [2 ≤ base] and [1 ≤ n]. *)
Fixpoint ilog (fuel base n : nat) : nat :=
  match fuel with
  | 0 => 0
  | S fuel' => if n <? base then 0 else S (ilog fuel' base (n / base))
  end.

(** Line 299.  The quotient of the two logarithms is taken exactly; the
    degenerate bases and the empty list end in the conversions [int]
    refuses.  The code truncates the quotient of two float64 logarithms,
    whose last bit is the platform's: at a whole power of the scale it
    can fall short of the exponent (1000 entries at scale 10), and the
    code's chunk is then one power smaller than this one.  The
    properties below use of the size that it is at least 1, and the
    cases that raise. *)
Definition initial_chunk_size (chunkScale len : nat) : result nat :=
  match len, chunkScale with
  | 0, 0 => raise ValueError
  | 0, _ => raise OverflowError
  | _, 0 => ret 1
  | 1, 1 => raise ValueError
  | _, 1 => raise OverflowError
  | _, _ => ret (chunkScale ^ ilog len chunkScale len)
  end.

(** The main loop, lines 317-327. *)
Fixpoint main_loop (fuel : nat) (chunk_size : nat) (n : nat)
    (rest : list ((nat * nat) * Edge.data)) (self : MapGenerator)
  : result MapGenerator :=
  match n, rest with
  | 0, _ | _, [] => ret self
  | S n', _ :: _ =>
      let chunk :=
        take_live (deref self (tmp_subgraph self)) chunk_size [] [] rest in
      r <- chunk_process fuel self chunk.1.1 chunk.1.2 chunk_size ;;
      main_loop fuel chunk_size n' chunk.2 r.2
  end.

(** [list(g.edges(data='score'))], sorted by score (lines 294-295 and
    332-333). *)
Definition scoresList (g : Graph Edge.data) : list (nat * nat * Q) :=
  sort_by snd ((fun e => (e.1.1, e.1.2, Edge.score e.2)) <$> edges g).

(** The final sweep, lines 334-341. *)
Definition final_sweep (self : MapGenerator) (tmp_graph : Graph Edge.data)
  : Graph Edge.data :=
  foldl (fun tmp_graph e =>
           let u := e.1.1 in
           let v := e.1.2 in
           match get_edge_data tmp_graph u v with
           | None => tmp_graph
           | Some edge_data =>
               if Edge.found_path edge_data then tmp_graph
               else
                 let tmp_graph := remove_edge u v tmp_graph in
                 if check_constraints self tmp_graph then tmp_graph
                 else add_edge u v edge_data tmp_graph
           end)
        tmp_graph (scoresList tmp_graph).

(** What [build_map] returns: the optimal-path graph, whose edges carry a
    score only, or the pruned pair map. *)
Inductive final_graph :=
| OptimalPathGraph (g : Graph Q)
| PairMap (g : Graph Edge.data).

Section build_map.
(** [pairmap.utils.mcs.get_score_matrix], the similarity computation. *)
Variable mcs_get_score_matrix : list intermediate -> nat -> matrix.

(** [get_score_matrix] (lines 267-271) *)
Definition get_score_matrix (self : MapGenerator) : matrix * MapGenerator :=
  match score_matrix self with
  | None =>
      let m := mcs_get_score_matrix (intermediate_list self) (jobs (params self)) in
      (m, set_score_matrix m self)
  | Some m => (m, self)
  end.

(** Lines 292-315: the initial graph, the sorted edges with their
    bundles, the chunk size, the snapshots and the first reduction. *)
Definition prepare (self : MapGenerator)
  : result (list ((nat * nat) * Edge.data) * nat * MapGenerator) :=
  subgraph <- generate_initial_graph self ;;
  let scores := scoresList subgraph in
  let edges := fst <$> scores in
  data <- mapM (fun e => match get_edge_data subgraph e.1 e.2 with
                         | Some d => ret d
                         | None => raise KeyError
                         end) edges ;;
  chunk_size <- initial_chunk_size (chunkScale (params self)) (length scores) ;;
  let self := set_initialCycled (get_cycled_nodes self subgraph)
                                (get_cycled_edges self subgraph) self in
  exgraph <- get_reachable_subgraph self subgraph ;;
  exgraph <- get_cycle_subgraph self exgraph ;;
  exgraph <- get_main_subgraph self exgraph ;;
  if is_invalid self exgraph then raise InvalidInitialGraph
  else ret (zip edges data, chunk_size, set_tmp_subgraph exgraph self).

Definition build_map (self : MapGenerator) : result (final_graph * MapGenerator) :=
  let self := (get_score_matrix self).2 in
  r <- find_optimal_path self ;;
  let self := r.2 in
  optimal_path_graph <- make_optimal_path_graph self ;;
  if optimal_path_mode (params self)
  then ret (OptimalPathGraph optimal_path_graph, self)
  else
    r <- prepare self ;;
    let chunk_size := r.1.2 in
    self <- main_loop (S chunk_size) chunk_size (length r.1.1) r.1.1 r.2 ;;
    let tmp_graph := final_sweep self (deref self (tmp_subgraph self)) in
    exgraph <- get_main_subgraph self tmp_graph ;;
    ret (PairMap exgraph, self).
End build_map.

(** ** Running the generator *)

(** [n] molecules without a name. *)
Definition unnamed (n : nat) : list intermediate :=
  replicate n {| prop_Name := None |}.

(** The similarity computation is not called when a matrix is supplied. *)
Definition no_mcs : list intermediate -> nat -> matrix := fun _ _ => [].

(** The constructor's defaults with a custom matrix, a chunk scale and a
    mode. *)
Definition with_matrix (m : matrix) (scale : nat) (optimal : bool) : Params := {|
  optimal_path_mode := optimal;
  maxPathLength := maxPathLength default_params;
  cycleLength := cycleLength default_params;
  maxOptimalPathLength := maxOptimalPathLength default_params;
  roughMaxPathLength := roughMaxPathLength default_params;
  roughScoreThreshold := roughScoreThreshold default_params;
  minScoreThreshold := minScoreThreshold default_params;
  chunkScale := scale;
  source_node_index := source_node_index default_params;
  target_node_index := target_node_index default_params;
  jobs := jobs default_params;
  custum_score_matrix := Some m;
  verbose := verbose default_params
|}.

(** The symmetric [n]×[n] matrix with [1] on the diagonal and [f u v] at
    [u < v]. *)
Definition symmetric_matrix (n : nat) (f : nat -> nat -> Q) : matrix :=
  (fun u => (fun v => if u =? v then 1%Q else f (u `min` v) (u `max` v))
              <$> seq 0 n) <$> seq 0 n.

(** The scores of a list of weighted pairs, [0] elsewhere. *)
Definition scores_of (l : list (nat * nat * Q)) (u v : nat) : Q :=
  default 0%Q (dget (u, v) l).

(** The pair [u], [v] with the score [n/100]. *)
Definition scored (u v : nat) (n : Z) : nat * nat * Q := ((u, v), Qmake n 100).

(** [MapGenerator(intermediates, **p).build_map()] *)
Definition run (intermediates : list intermediate) (p : Params)
  : result (final_graph * MapGenerator) :=
  self <- init intermediates p ;; build_map no_mcs self.

(** [MapGenerator(intermediates, **p)], up to the first reduction of
    [build_map] (line 315). *)
Definition run_prepare (intermediates : list intermediate) (p : Params)
  : result (list ((nat * nat) * Edge.data) * nat * MapGenerator) :=
  self <- init intermediates p ;;
  r <- find_optimal_path (get_score_matrix no_mcs self).2 ;;
  prepare r.2.

(** Four molecules: the path 0-2-1 of score 1, a weak edge 0-1, and node 3
    tied to 0 and 2 by edges of score 1. *)
Definition sweep_input : Params :=
  with_matrix (symmetric_matrix 4 (scores_of
    [scored 0 1 30; scored 0 2 100; scored 1 2 100; scored 0 3 100;
     scored 2 3 100]))
    10 false.

(** Five molecules: the path 0-2-1 and a triangle 2-3-4 hanging off it. *)
Definition snapshot_input : Params :=
  with_matrix (symmetric_matrix 5 (scores_of
    [scored 0 2 100; scored 1 2 100; scored 2 3 50; scored 2 4 50;
     scored 3 4 50]))
    10 false.

(** Two molecules whose score has three decimals, optimal-path mode. *)
Definition round_input : Params :=
  with_matrix [[1%Q; (456 # 1000)%Q]; [(456 # 1000)%Q; 1%Q]] 10 true.

(** Four molecules, chunk scale 2: the edge 0-1 of score 1, the triangle
    0-1-2 and node 3 tied to 0, 1 and 2 by the weakest edges. *)
Definition chunk_input : Params :=
  with_matrix (symmetric_matrix 4 (scores_of
    [scored 0 1 100; scored 0 3 30; scored 1 3 30; scored 2 3 40;
     scored 0 2 50; scored 1 2 60]))
    2 false.

(** Six molecules, every edge of score 1: the edge 0-1, the triangles
    0-1-5 and 0-2-3, and node 4 tied to 1 and 2. *)
Definition empty_chunk_input : Params :=
  with_matrix (symmetric_matrix 6 (scores_of
    [scored 0 1 100; scored 0 2 100; scored 0 3 100; scored 0 5 100;
     scored 1 4 100; scored 1 5 100; scored 2 3 100; scored 2 4 100]))
    10 false.

(** Three molecules, every score 0.1: no edge reaches the threshold. *)
Definition no_path_input : Params :=
  with_matrix (symmetric_matrix 3 (fun _ _ => Qmake 10 100)) 10 false.


(** A matrix whose second row is too short. *)
Definition ragged_matrix : matrix := [[1%Q; 1%Q]; [1%Q]].

(** ** Vocabulary of the properties *)

(** The matrix has [n] rows of [n] entries. *)
Definition is_square (n : nat) (m : matrix) : Prop :=
  length m = n /\ Forall (fun row => length row = n) m.

(** The constructor raised one of its two shape errors (lines 35, 37). *)
Definition shape_mismatch {X} (r : result X) : Prop :=
  r = inl CustomMatrixSizeMismatch \/ r = inl CustomMatrixNotSquare.

(** [nx.utils.graphs_equal]: the same nodes with the same labels, the same
    adjacency keys, the same edges with the same bundles; the order of
    insertion does not count. *)
Definition graphs_equal {A} (g1 g2 : Graph A) : Prop :=
  (forall n, dget n (_node g1) = dget n (_node g2)) /\
  (forall n, is_Some (dget n (_adj g1)) <-> is_Some (dget n (_adj g2))) /\
  (forall u v, get_edge_data g1 u v = get_edge_data g2 u v).

(** What networkx keeps true of a graph: a node has an adjacency
    dictionary, the endpoints of an edge are nodes, and an edge is seen
    from both endpoints with one bundle. *)
Definition well_formed {A} (g : Graph A) : Prop :=
  (forall n, is_Some (dget n (_node g)) -> is_Some (dget n (_adj g))) /\
  (forall u v, is_Some (get_edge_data g u v) ->
               is_Some (dget u (_node g)) /\ is_Some (dget v (_node g))) /\
  (forall u v, get_edge_data g u v = get_edge_data g v u).

(** Each node of [path] is joined to the next by an edge of [g]. *)
Fixpoint walk {A} (g : Graph A) (path : list nat) : Prop :=
  match path with
  | u :: (v :: _) as rest => has_edge g u v = true /\ walk g rest
  | _ => True
  end.

(** [path] is a simple path of [g] from [s] to [t]. *)
Definition simple_path {A} (g : Graph A) (s t : nat) (path : list nat) : Prop :=
  head path = Some s /\ last path = Some t /\ NoDup path /\ walk g path.

(** The scores on the links of [path], in path order. *)
Definition link_scores (g : Graph Q) (path : list nat) : list Q :=
  omap (fun e => get_edge_data g e.1 e.2) (links path).

(** The sum of the reciprocals of the edge scores of [path], as lines
    111-113 compute it: over the scores in ascending order, in float64. *)
Definition path_cost (g : Graph Q) (path : list nat) : F64.t :=
  sum_recip (sort_by id (link_scores g path)).


(** The adjacency dictionary has the keys of the node dictionary. *)
Definition keys_agree {A} (g : Graph A) : Prop :=
  forall k, is_Some (dget k (_adj g)) <-> is_Some (dget k (_node g)).


(** The construction [make_graph] is compared with: one labelled node
    per index first, then the loop over the pairs, once. *)
Definition make_graph_single_pass (self : MapGenerator) (min_score : option Q)
  : result (Graph Q) :=
  let min_score := default (minScoreThreshold (params self)) min_score in
  let graph :=
    foldl (fun graph e => set_label e.1 e.2 (add_node e.1 graph))
          empty_graph (enumerate (intermediate_names self)) in
  add_scored_edges self min_score graph.

(** The rounded score of a pair, [0] standing for an entry that is not
    there. *)
Definition rounded_score (self : MapGenerator) (e : nat * nat) : Q :=
  match matrix_get (score_matrix self) e.1 e.2 with
  | inr score => round2 score
  | inl _ => 0%Q
  end.

(** The edges the loop over the pairs adds: the pairs whose rounded score
    reaches the threshold, in order, each with that score. *)
Definition scored_edges (self : MapGenerator) (min_score : Q)
    (pairs : list (nat * nat)) : list (nat * nat * Q) :=
  (fun e => (e, rounded_score self e))
    <$> filter (fun e => Qle_bool min_score (rounded_score self e) = true) pairs.

(** The graph [make_graph] holds after [m] rounds of its outer loop, the
    pairs [l] being the ones whose edge is added with the score [f]: the
    first [m] nodes are labelled, the endpoints of the edges are nodes,
    and the edges are those of [l]. *)
Definition built {A} (names : list string) (f : nat * nat -> A)
    (l : list (nat * nat)) (m : nat) (g : Graph A) : Prop :=
  keys_agree g /\
  (forall k, dget k (_node g) =
     if decide (k < m) then Some (names !! k)
     else if decide (0 < m /\ (k ∈ l.*1 \/ k ∈ l.*2)) then Some None
     else None) /\
  (forall x y, get_edge_data g x y =
     if decide (0 < m /\ ((x, y) ∈ l \/ (y, x) ∈ l))
     then Some (f (x `min` y, x `max` y)) else None).

#[global] Instance Q_eq_dec : EqDecision Q.
Proof. solve_decision. Defined.

#[global] Instance data_eq_dec : EqDecision Edge.data.
Proof. solve_decision. Defined.

(** [well_formed], as a test on the two dictionaries. *)
Definition well_formedb {A} `{EqDecision A} (g : Graph A) : bool :=
  forallb (fun n => dmem n (_adj g)) (dkeys (_node g)) &&
  forallb (fun e : nat * dict nat A =>
             dmem e.1 (_node g) &&
             forallb (fun f : nat * A =>
                        dmem f.1 (_node g) &&
                        bool_decide (get_edge_data g f.1 e.1 = Some f.2))
                     e.2)
          (_adj g).

(** [u] and [v] follow one another on [path], in either order. *)
Definition link (path : list nat) (u v : nat) : Prop :=
  (u, v) ∈ links path \/ (v, u) ∈ links path.

(** Every bundle found between two neighbours of the path is flagged. *)
Definition flags_kept (path : list nat) (g : Graph Edge.data) : Prop :=
  forall u v d, link path u v -> get_edge_data g u v = Some d ->
                Edge.found_path d = true.

(** Every link of the path is an edge. *)
Definition links_present {A} (path : list nat) (g : Graph A) : Prop :=
  forall u v, (u, v) ∈ links path -> is_Some (get_edge_data g u v).

Definition path_kept (path : list nat) (g : Graph Edge.data) : Prop :=
  flags_kept path g /\ links_present path g.

(** [self'] differs from [self] in the graph objects and in the reference
    [tmp_subgraph] at most. *)
Definition frame (self self' : MapGenerator) : Prop :=
  self' = set_heap (heap self') (tmp_subgraph self') self.

(** The entries of a chunk are edges of [g0] paired with their bundles. *)
Definition entries_of (g0 : Graph Edge.data)
    (l : list ((nat * nat) * Edge.data)) : Prop :=
  Forall (fun ed => get_edge_data g0 ed.1.1 ed.1.2 = Some ed.2) l.

(** A chunk: edges of [g0], each with its bundle at the same position. *)
Definition chunk_of (g0 : Graph Edge.data) (edge_chunk : list (nat * nat))
    (data_chunk : list Edge.data) : Prop :=
  Forall2 (fun e d => get_edge_data g0 e.1 e.2 = Some d) edge_chunk data_chunk.

(** What the pruner keeps true of the object: the current subgraph is a
    live object that holds the found path, and the bundles of the initial
    graph [g0] flag the links. *)
Definition pruner_inv (g0 : Graph Edge.data) (self : MapGenerator) : Prop :=
  tmp_subgraph self < length (heap self) /\
  path_kept (found_path self) (deref self (tmp_subgraph self)) /\
  flags_kept (found_path self) g0.

(** From [g] to [g'], flags are set, never cleared, and no edge comes or
    goes. *)
Definition flags_grow (g g' : Graph Edge.data) : Prop :=
  forall x y,
    match get_edge_data g x y with
    | Some d => exists d', get_edge_data g' x y = Some d' /\
                           (Edge.found_path d = true -> Edge.found_path d' = true)
    | None => get_edge_data g' x y = None
    end.

(** One step of the pruner: the object changes in its graph objects only,
    and what the pruner keeps true stays true. *)
Definition pruner_step (g0 : Graph Edge.data) (self self' : MapGenerator) : Prop :=
  frame self self' /\ (pruner_inv g0 self -> pruner_inv g0 self').

(** ** Vocabulary of the further properties *)

(** What a call raises, when it raises, satisfies [P]. *)
Definition raises_only {A} (P : exn -> Prop) (r : result A) : Prop :=
  match r with
  | inl e => P e
  | inr _ => True
  end.

(** The exceptions a graph reduction raises. *)
Definition reduction_exn (e : exn) : Prop :=
  e = NodeNotFound \/ exists s, e = InvalidGraph s.

(** The exceptions a read of the score matrix raises. *)
Definition matrix_exn (e : exn) : Prop := e = TypeError \/ e = IndexError.

(** The exceptions of [build_map]: a matrix that cannot be read, a node
    or a path that is not there, a reduction that loses the found path,
    and the chunk size of line 299. *)
Definition build_map_exn (e : exn) : Prop :=
  matrix_exn e \/ reduction_exn e \/
  e = NoPathFound \/ e = OverflowError \/ e = ValueError.

(** An edge is seen from both endpoints with one bundle. *)
Definition symmetric {A} (g : Graph A) : Prop :=
  forall u v, get_edge_data g u v = get_edge_data g v u.

(** The endpoints of an edge are nodes. *)
Definition ends_are_nodes {A} (g : Graph A) : Prop :=
  forall u v, is_Some (get_edge_data g u v) ->
              is_Some (dget u (_node g)) /\ is_Some (dget v (_node g)).

(** [g] has nothing that [g0] has not: its nodes are nodes of [g0], with
    the label they have there or none, and its edges are edges of [g0]
    with the same bundle. *)
Definition part_of {A} (g g0 : Graph A) : Prop :=
  (forall n, is_Some (dget n (_node g)) -> is_Some (dget n (_node g0))) /\
  (forall u v a, get_edge_data g u v = Some a -> get_edge_data g0 u v = Some a).

(** What every graph object of the pruner is: a graph networkx could
    hold, inside the initial graph [g0]. *)
Definition pruned_from {A} (g0 g : Graph A) : Prop :=
  keys_agree g /\ symmetric g /\ part_of g g0.

(** The current subgraph is a live object inside [g0]. *)
Definition kept_inside (g0 : Graph Edge.data) (self : MapGenerator) : Prop :=
  tmp_subgraph self < length (heap self) /\
  pruned_from g0 (deref self (tmp_subgraph self)).

#[global] Instance link_dec path u v : Decision (link path u v).
Proof. unfold link. apply _. Defined.

(** Every two nodes are joined by a walk. *)
Definition connected {A} (g : Graph A) : Prop :=
  forall a b, has_node g a = true -> has_node g b = true ->
    exists p, head p = Some a /\ last p = Some b /\ walk g p.

(** An induced subgraph: the kept nodes keep their label and the edges
    between kept nodes keep their bundle. *)
Definition induced {A} (g' g : Graph A) : Prop :=
  (forall n, has_node g' n = true ->
             has_node g n = true /\ dget n (_node g') = dget n (_node g)) /\
  (forall u v a, get_edge_data g' u v = Some a -> get_edge_data g u v = Some a) /\
  (forall u v, has_node g' u = true -> has_node g' v = true ->
               get_edge_data g' u v = get_edge_data g u v).

(** Every key is at most the keys after it. *)
Fixpoint ascending {X} (key : X -> Q) (l : list X) : Prop :=
  match l with
  | [] => True
  | x :: l' => Forall (fun y => (key x <= key y)%Q) l' /\ ascending key l'
  end.

(** The dictionaries of a graph list a key once. *)
Definition graph_repr {A} (g : Graph A) : Prop :=
  keys_agree g /\ NoDup (dkeys (_adj g)) /\
  Forall (fun e => NoDup (dkeys e.2)) (_adj g).

(** * Properties *)

(** ** The result monad *)

Lemma bind_inr {A B} (m : result A) (k : A -> result B) (b : B) :
  bind m k = inr b -> exists a, m = inr a /\ k a = inr b.
Proof. destruct m as [e|a]; simpl; [done | eauto]. Qed.

Lemma bind_inl {A B} (m : result A) (k : A -> result B) (e : exn) :
  bind m k = inl e -> m = inl e \/ exists a, m = inr a /\ k a = inl e.
Proof. destruct m as [e'|a]; simpl; [left; congruence | eauto]. Qed.

(** Splits a hypothesis [x <- m ;; k = inr b]. *)
Ltac bind_inv H :=
  let a := fresh "a" in
  let Ha := fresh "Ha" in
  apply bind_inr in H; destruct H as (a & Ha & H).

(** An invariant carried through a [for] loop that did not raise. *)
Lemma foldM_inv {A S} (P : S -> Prop) (body : A -> S -> result S) l s s' :
  (forall a s s', a ∈ l -> P s -> body a s = inr s' -> P s') ->
  P s -> foldM body l s = inr s' -> P s'.
Proof.
  revert s. induction l as [|a l IH]; simpl; intros s Hbody Hs Hrun.
  - by simplify_eq.
  - bind_inv Hrun. apply (IH a0); [| |done].
    + intros ????; apply Hbody. by right.
    + eapply Hbody; [left | done..].
Qed.

Lemma foldl_inv {A S} (P : S -> Prop) (body : S -> A -> S) l s :
  (forall a s, a ∈ l -> P s -> P (body s a)) ->
  P s -> P (foldl body s l).
Proof.
  revert s. induction l as [|a l IH]; simpl; intros s Hbody Hs; [done|].
  apply IH.
  - intros ???; apply Hbody. by right.
  - apply Hbody; [left | done].
Qed.

(** ** Dictionaries *)

Section dict_lemmas.
Context {K V : Type} `{EqDecision K}.
Implicit Types (d : dict K V) (k : K) (v : V).

Lemma dget_dset k k' v d :
  dget k' (dset k v d) = if decide (k' = k) then Some v else dget k' d.
Proof.
  induction d as [|[k0 v0] d IH]; simpl.
  - repeat case_decide; congruence.
  - repeat (case_decide; simpl); try congruence.
Qed.

Lemma dget_ddel k k' d :
  dget k' (ddel k d) = if decide (k' = k) then None else dget k' d.
Proof.
  induction d as [|[k0 v0] d IH]; simpl.
  - by case_decide.
  - repeat (case_decide; simpl); try congruence.
Qed.

Lemma dget_dalter f k k' d :
  dget k' (dalter f k d) = if decide (k' = k) then f <$> dget k' d else dget k' d.
Proof.
  induction d as [|[k0 v0] d IH]; simpl.
  - by case_decide.
  - repeat (case_decide; simpl); try congruence.
Qed.

Lemma dget_dfilter p k d :
  dget k (dfilter p d) = if p k then dget k d else None.
Proof.
  induction d as [|[k0 v0] d IH]; simpl.
  - by destruct (p k).
  - destruct (p k0) eqn:E0; simpl; repeat case_decide; subst;
      rewrite ?E0 in *; congruence.
Qed.

Lemma dget_app k d1 d2 :
  dget k (d1 ++ d2) = match dget k d1 with Some v => Some v | None => dget k d2 end.
Proof.
  induction d1 as [|[k0 v0] d1 IH]; simpl; [done|].
  by case_decide.
Qed.

Lemma dget_Some_elem_of k v d : dget k d = Some v -> (k, v) ∈ d.
Proof.
  induction d as [|[k0 v0] d IH]; simpl; [done|].
  case_decide; intros; simplify_eq; [left | right; auto].
Qed.

Lemma dget_None_keys k d : dget k d = None <-> k ∉ dkeys d.
Proof.
  unfold dkeys. induction d as [|[k0 v0] d IH]; simpl.
  - split; [intros _; apply not_elem_of_nil | done].
  - rewrite not_elem_of_cons. case_decide; subst; [split; [done | tauto]|].
    rewrite IH. tauto.
Qed.

Lemma dmem_keys k d : dmem k d = true <-> k ∈ dkeys d.
Proof.
  unfold dmem. rewrite bool_decide_eq_true.
  destruct (dget k d) eqn:E.
  - split; [|eauto]. intros _.
    destruct (decide (k ∈ dkeys d)) as [|Hn]; [done|].
    apply dget_None_keys in Hn. congruence.
  - apply dget_None_keys in E. split; [intros [? ?]; done | done].
Qed.
End dict_lemmas.

Lemma dget_dmap {K V W} `{EqDecision K} (f : V -> W) (k : K) (d : dict K V) :
  dget k (dmap f d) = f <$> dget k d.
Proof.
  induction d as [|[k0 v0] d IH]; simpl; [done|].
  by case_decide.
Qed.

(** ** Looking up nodes and edges after an operation *)

Section graph_lemmas.
Context {A : Type}.
Implicit Types (g : Graph A) (u v x y n : nat) (a : A).

Lemma has_node_spec g n : has_node g n = true <-> is_Some (dget n (_node g)).
Proof. unfold has_node, dmem. by rewrite bool_decide_eq_true. Qed.

Lemma has_edge_spec g u v : has_edge g u v = true <-> is_Some (get_edge_data g u v).
Proof. unfold has_edge. by rewrite bool_decide_eq_true. Qed.

Lemma has_edge_false g u v : has_edge g u v = false <-> get_edge_data g u v = None.
Proof.
  unfold has_edge. rewrite bool_decide_eq_false, <-eq_None_not_Some. done.
Qed.

Lemma get_edge_data_add_node g n x y :
  get_edge_data (add_node n g) x y = get_edge_data g x y.
Proof.
  unfold add_node, get_edge_data.
  destruct (has_node g n); [done|]. simpl.
  rewrite dget_app. destruct (dget x (_adj g)) eqn:E; [done|].
  simpl. by case_decide.
Qed.

Lemma get_edge_data_set_label g n name x y :
  get_edge_data (set_label n name g) x y = get_edge_data g x y.
Proof. done. Qed.

Lemma dget_adj_add_node g n x :
  dget x (_adj (add_node n g)) =
    match dget x (_adj g) with
    | Some nbrs => Some nbrs
    | None => if has_node g n then None
              else if decide (x = n) then Some [] else None
    end.
Proof.
  unfold add_node. destruct (has_node g n); simpl.
  - by destruct (dget x (_adj g)).
  - rewrite dget_app. simpl. done.
Qed.

Lemma dget_adj_add_nodes_Some g u v x nbrs :
  dget x (_adj (add_node v (add_node u g))) = Some nbrs ->
  dget x (_adj g) = Some nbrs \/ (dget x (_adj g) = None /\ nbrs = []).
Proof.
  rewrite !dget_adj_add_node.
  destruct (dget x (_adj g)); [auto|].
  repeat (case_match; try done); intros; simplify_eq; auto.
Qed.

(** After [add_edge] an edge is either the new one or an old one. *)
Lemma get_edge_data_add_edge_Some g u v a x y a' :
  get_edge_data (add_edge u v a g) x y = Some a' ->
  (a' = a /\ ((x = u /\ y = v) \/ (x = v /\ y = u))) \/
  get_edge_data g x y = Some a'.
Proof.
  unfold add_edge, get_edge_data. simpl.
  rewrite !dget_dalter.
  destruct (dget x (_adj (add_node v (add_node u g)))) as [nbrs|] eqn:E;
    [|by repeat case_decide].
  apply dget_adj_add_nodes_Some in E as [->| [-> ->]];
    repeat case_decide; simpl; subst; rewrite ?dget_dset; simpl;
    repeat (case_decide; subst; simpl); intros; simplify_eq; tauto.
Qed.

(** [add_edge] removes no edge. *)
Lemma get_edge_data_add_edge_is_Some g u v a x y :
  is_Some (get_edge_data g x y) ->
  is_Some (get_edge_data (add_edge u v a g) x y).
Proof.
  unfold add_edge, get_edge_data. simpl.
  rewrite !dget_dalter, !dget_adj_add_node.
  destruct (dget x (_adj g)) as [nbrs|]; [|by intros [? ?]].
  repeat case_decide; simpl; rewrite ?dget_dset; repeat case_decide; eauto.
Qed.

(** [remove_edge] adds no edge and changes no bundle. *)
Lemma get_edge_data_remove_edge_Some g u v x y a :
  get_edge_data (remove_edge u v g) x y = Some a ->
  get_edge_data g x y = Some a.
Proof.
  unfold remove_edge. destruct (has_edge g u v); [|done].
  unfold get_edge_data. simpl. rewrite !dget_dalter.
  destruct (dget x (_adj g)) as [nbrs|]; repeat case_decide; simpl;
    rewrite ?dget_ddel; repeat case_decide; done.
Qed.

(** [remove_edge] touches one edge only. *)
Lemma get_edge_data_remove_edge_ne g u v x y :
  ~ ((x = u /\ y = v) \/ (x = v /\ y = u)) ->
  get_edge_data (remove_edge u v g) x y = get_edge_data g x y.
Proof.
  intros Hne. unfold remove_edge. destruct (has_edge g u v); [|done].
  unfold get_edge_data. simpl. rewrite !dget_dalter.
  destruct (dget x (_adj g)) as [nbrs|]; repeat case_decide; simpl;
    rewrite ?dget_ddel; repeat case_decide; subst; try done; tauto.
Qed.

Lemma get_edge_data_remove_edge_eq g u v :
  get_edge_data (remove_edge u v g) u v = None.
Proof.
  unfold remove_edge. destruct (has_edge g u v) eqn:E.
  - unfold get_edge_data. simpl. rewrite !dget_dalter.
    destruct (dget u (_adj g)) as [nbrs|]; repeat case_decide; simpl;
      rewrite ?dget_ddel; repeat case_decide; done.
  - by apply has_edge_false.
Qed.

Lemma get_edge_data_subgraph g (S : gset nat) x y :
  get_edge_data (subgraph g S) x y =
    if bool_decide (x ∈ S) && bool_decide (y ∈ S)
    then get_edge_data g x y else None.
Proof.
  unfold subgraph, get_edge_data. simpl.
  rewrite dget_dmap, dget_dfilter.
  destruct (bool_decide (x ∈ S)); simpl; [|done].
  destruct (dget x (_adj g)); simpl; [|by destruct (bool_decide _)].
  by rewrite dget_dfilter.
Qed.

Lemma dget_node_subgraph g (S : gset nat) n :
  dget n (_node (subgraph g S)) =
    if bool_decide (n ∈ S) then dget n (_node g) else None.
Proof. unfold subgraph. simpl. by rewrite dget_dfilter. Qed.

Lemma has_node_subgraph g (S : gset nat) n :
  has_node (subgraph g S) n = true -> n ∈ S.
Proof.
  rewrite has_node_spec, dget_node_subgraph.
  case_bool_decide; [done | by intros [? ?]].
Qed.

Lemma get_edge_data_remove_edges_from_Some g ebunch x y a :
  get_edge_data (remove_edges_from ebunch g) x y = Some a ->
  get_edge_data g x y = Some a.
Proof.
  unfold remove_edges_from. revert g.
  induction ebunch as [|e l IH]; simpl; intros g; [done|].
  intros H. apply IH in H. by apply get_edge_data_remove_edge_Some in H.
Qed.

Lemma get_edge_data_remove_edges_from_ne g ebunch x y :
  (forall e, e ∈ ebunch -> e ≠ (x, y) /\ e ≠ (y, x)) ->
  get_edge_data (remove_edges_from ebunch g) x y = get_edge_data g x y.
Proof.
  unfold remove_edges_from. revert g.
  induction ebunch as [|e l IH]; simpl; intros g He; [done|].
  rewrite IH by (intros; apply He; by right).
  apply get_edge_data_remove_edge_ne.
  destruct (He e) as [H1 H2]; [left|].
  destruct e as [u v]; simpl. intros [[-> ->]|[-> ->]]; congruence.
Qed.
End graph_lemmas.

(** ** The object and its graph objects *)

Lemma frame_refl self : frame self self.
Proof. by destruct self. Qed.

Lemma frame_trans s1 s2 s3 : frame s1 s2 -> frame s2 s3 -> frame s1 s3.
Proof. unfold frame. intros H1 ->. by rewrite H1. Qed.

Lemma frame_set_heap self h r : frame self (set_heap h r self).
Proof. done. Qed.

Lemma frame_found_path s1 s2 : frame s1 s2 -> found_path s2 = found_path s1.
Proof. by intros ->. Qed.

Lemma frame_params s1 s2 : frame s1 s2 -> params s2 = params s1.
Proof. by intros ->. Qed.

Lemma deref_mutate self r f :
  r < length (heap self) ->
  deref (mutate r f self) r = f (deref self r).
Proof.
  intros Hr. unfold deref, mutate. simpl.
  destruct (lookup_lt_is_Some_2 _ _ Hr) as [g Hg].
  by rewrite list_lookup_alter_eq, Hg.
Qed.

Lemma deref_set_tmp_subgraph self g :
  deref (set_tmp_subgraph g self) (tmp_subgraph (set_tmp_subgraph g self)) = g.
Proof.
  unfold deref, set_tmp_subgraph. simpl.
  by rewrite lookup_app_r, Nat.sub_diag by lia.
Qed.

Lemma tmp_subgraph_set_tmp_subgraph self g :
  tmp_subgraph (set_tmp_subgraph g self) < length (heap (set_tmp_subgraph g self)).
Proof. unfold set_tmp_subgraph. simpl. rewrite length_app. simpl. lia. Qed.

(** ** The found path under the graph operations *)

Lemma links_endpoints path u v : (u, v) ∈ links path -> u ∈ path /\ v ∈ path.
Proof.
  unfold links. intros H. split.
  - by apply elem_of_zip_l in H.
  - apply elem_of_zip_r in H. destruct path; [done|]. by right.
Qed.

Lemma link_endpoints path u v : link path u v -> u ∈ path /\ v ∈ path.
Proof. intros [H|H]; apply links_endpoints in H; tauto. Qed.

Lemma link_sym path u v : link path u v -> link path v u.
Proof. unfold link. tauto. Qed.

Lemma path_kept_subgraph path g (S : gset nat) :
  (forall n, n ∈ path -> n ∈ S) ->
  path_kept path g -> path_kept path (subgraph g S).
Proof.
  intros HS [Hf Hp]. split.
  - intros u v d Hl. rewrite get_edge_data_subgraph.
    destruct (_ && _); [by apply Hf | done].
  - intros u v Hl. rewrite get_edge_data_subgraph.
    destruct (links_endpoints _ _ _ Hl) as [Hu Hv].
    rewrite !bool_decide_eq_true_2 by auto. by apply Hp.
Qed.

(** A chunk none of whose edges is a link can go. *)
Lemma path_kept_remove_edges_from path g ebunch :
  (forall e, e ∈ ebunch -> ~ link path e.1 e.2) ->
  path_kept path g -> path_kept path (remove_edges_from ebunch g).
Proof.
  intros He [Hf Hp]. split.
  - intros u v d Hl Hd. apply get_edge_data_remove_edges_from_Some in Hd. eauto.
  - intros u v Hl. rewrite get_edge_data_remove_edges_from_ne; [by apply Hp|].
    intros [a b] Hin. specialize (He _ Hin). unfold link in He. simpl in He.
    split; intros [= -> ->]; tauto.
Qed.

Lemma path_kept_add_edge path g u v d :
  ~ link path u v ->
  path_kept path g -> path_kept path (add_edge u v d g).
Proof.
  intros Hn [Hf Hp]. split.
  - intros x y d' Hl Hd.
    apply get_edge_data_add_edge_Some in Hd as [[_ [[-> ->]|[-> ->]]]|Hd];
      [done | by apply link_sym in Hl | eauto].
  - intros x y Hl. by apply get_edge_data_add_edge_is_Some, Hp.
Qed.

Lemma path_kept_remove_edge path g u v d :
  get_edge_data g u v = Some d -> Edge.found_path d = false ->
  path_kept path g -> path_kept path (remove_edge u v g).
Proof.
  intros Hd Hflag Hk.
  apply (path_kept_remove_edges_from path g [(u, v)]); [|done].
  intros e ->%list_elem_of_singleton. simpl. intros Hl.
  destruct Hk as [Hf _]. rewrite (Hf _ _ _ Hl Hd) in Hflag. done.
Qed.

(** ** The reductions *)

Lemma is_invalid_false {A} self (g : Graph A) (S : gset nat) :
  is_invalid self (subgraph g S) = false ->
  forall n, n ∈ found_path self -> n ∈ S.
Proof.
  unfold is_invalid. intros H n Hn.
  apply negb_false_iff in H. rewrite List.forallb_forall in H.
  apply (has_node_subgraph g S n), H. by apply list_elem_of_In.
Qed.

(** Each reduction that returns, returns an induced subgraph that holds
    the nodes of the found path. *)
Lemma get_reachable_subgraph_shape {A} self (g g' : Graph A) :
  get_reachable_subgraph self g = inr g' ->
  exists S : gset nat, g' = subgraph g S /\ forall n, n ∈ found_path self -> n ∈ S.
Proof.
  unfold get_reachable_subgraph. intros H. bind_inv H.
  destruct (is_invalid _ _) eqn:E; [done|]. simplify_eq.
  eexists; split; [done|]. exact (is_invalid_false _ _ _ E).
Qed.

Lemma get_cycle_subgraph_shape {A} self (g g' : Graph A) :
  get_cycle_subgraph self g = inr g' ->
  exists S : gset nat, g' = subgraph g S /\ forall n, n ∈ found_path self -> n ∈ S.
Proof.
  unfold get_cycle_subgraph. intros H.
  destruct (is_invalid _ _) eqn:E; [done|]. simplify_eq.
  eexists; split; [done|]. exact (is_invalid_false _ _ _ E).
Qed.

Lemma get_main_subgraph_shape {A} self (g g' : Graph A) :
  get_main_subgraph self g = inr g' ->
  exists S : gset nat, g' = subgraph g S /\ forall n, n ∈ found_path self -> n ∈ S.
Proof.
  unfold get_main_subgraph. intros H.
  destruct (is_invalid _ _) eqn:E; [done|]. simplify_eq.
  destruct (find _ _); (eexists; split; [done|]); exact (is_invalid_false _ _ _ E).
Qed.

Lemma reduce_shape {A} self (g g' : Graph A) :
  reduce self g = inr g' ->
  exists S1 S2 S3 : gset nat,
    g' = subgraph (subgraph (subgraph g S1) S2) S3 /\
    forall n, n ∈ found_path self -> n ∈ S1 /\ n ∈ S2 /\ n ∈ S3.
Proof.
  unfold reduce. intros H. bind_inv H. bind_inv H.
  apply get_reachable_subgraph_shape in Ha as (S1 & -> & H1).
  apply get_cycle_subgraph_shape in Ha0 as (S2 & -> & H2).
  apply get_main_subgraph_shape in H as (S3 & -> & H3).
  exists S1, S2, S3. naive_solver.
Qed.

Lemma path_kept_reduce self (g g' : Graph Edge.data) :
  reduce self g = inr g' ->
  path_kept (found_path self) g -> path_kept (found_path self) g'.
Proof.
  intros (S1 & S2 & S3 & -> & HS)%reduce_shape Hk.
  repeat apply path_kept_subgraph; try done; intros n Hn; apply HS in Hn; tauto.
Qed.

(** ** check_chunk *)

Lemma removable_not_link path g0 u v d :
  flags_kept path g0 -> get_edge_data g0 u v = Some d ->
  removable d = true -> ~ link path u v.
Proof.
  intros Hf Hd Hr Hl. unfold removable in Hr.
  rewrite (Hf _ _ _ Hl Hd) in Hr. by rewrite andb_false_r in Hr.
Qed.

Lemma removables_all data_chunk :
  forallb id (removable <$> data_chunk) = true ->
  Forall (fun d => removable d = true) data_chunk.
Proof.
  induction data_chunk as [|d l IH]; simpl; [constructor|].
  intros [H1 H2]%andb_true_iff. constructor; auto.
Qed.

Lemma chunk_not_link path g0 edge_chunk data_chunk :
  flags_kept path g0 -> chunk_of g0 edge_chunk data_chunk ->
  Forall (fun d => removable d = true) data_chunk ->
  Forall (fun e => ~ link path e.1 e.2) edge_chunk.
Proof.
  intros Hf Hc. induction Hc as [|e d ec dc He Hc IH]; intros Hr; [constructor|].
  inversion_clear Hr. constructor; [|auto].
  by eapply removable_not_link.
Qed.

Lemma path_kept_restore path g edge_chunk data_chunk :
  Forall (fun e => ~ link path e.1 e.2) edge_chunk ->
  path_kept path g -> path_kept path (restore edge_chunk data_chunk g).
Proof.
  unfold restore. intros Hn. revert g data_chunk.
  induction Hn as [|e ec He Hn IH]; intros g [|d dc] Hk; simpl; try done.
  apply IH. by apply path_kept_add_edge.
Qed.

Lemma check_chunk_frame self edge_chunk data_chunk b self' :
  check_chunk self edge_chunk data_chunk = inr (b, self') -> frame self self'.
Proof.
  unfold check_chunk. intros H.
  destruct (negb (forallb _ _)).
  { destruct (negb (existsb _ _)); simplify_eq; apply frame_refl. }
  do 3 bind_inv H.
  destruct (is_invalid _ _); [by simplify_eq|].
  destruct (negb (check_constraints _ _)); by simplify_eq.
Qed.

(** The current subgraph holds the found path after [check_chunk] as it
    did before. *)
Lemma check_chunk_inv g0 self edge_chunk data_chunk b self' :
  pruner_inv g0 self -> chunk_of g0 edge_chunk data_chunk ->
  check_chunk self edge_chunk data_chunk = inr (b, self') ->
  pruner_inv g0 self'.
Proof.
  intros (Href & Hk & Hf) Hc H. unfold check_chunk in H.
  destruct (negb (forallb _ _)) eqn:Hall.
  { destruct (negb (existsb _ _)); by simplify_eq. }
  apply negb_false_iff, removables_all in Hall.
  pose proof (chunk_not_link _ _ _ _ Hf Hc Hall) as Hn.
  set (self1 := mutate _ _ self) in H.
  assert (path_kept (found_path self) (deref self1 (tmp_subgraph self))) as Hk1.
  { unfold self1. rewrite deref_mutate by done.
    apply path_kept_remove_edges_from; [|done].
    intros e He. by apply (proj1 (Forall_forall _ _) Hn). }
  do 3 bind_inv H.
  assert (path_kept (found_path self) a1) as Hk2.
  { apply (path_kept_reduce self1 (deref self1 (tmp_subgraph self))); [|done].
    unfold reduce. rewrite Ha. simpl. rewrite Ha0. done. }
  assert (pruner_inv g0 (mutate (tmp_subgraph self)
            (restore edge_chunk data_chunk) self1)) as Hrej.
  { split; [|split]; [..|done].
    - unfold mutate, self1. simpl. by rewrite !length_alter.
    - change (tmp_subgraph (mutate _ _ self1)) with (tmp_subgraph self).
      rewrite deref_mutate.
      + by apply path_kept_restore.
      + unfold self1, mutate. simpl. by rewrite length_alter. }
  destruct (is_invalid _ _); [by simplify_eq|].
  destruct (negb (check_constraints _ _)); simplify_eq; [done|].
  split; [|split]; [..|done].
  - apply tmp_subgraph_set_tmp_subgraph.
  - rewrite deref_set_tmp_subgraph. exact Hk2.
Qed.

(** ** The loops of the pruner *)

Lemma pruner_step_refl g0 self : pruner_step g0 self self.
Proof. split; [apply frame_refl | done]. Qed.

Lemma pruner_step_trans g0 s1 s2 s3 :
  pruner_step g0 s1 s2 -> pruner_step g0 s2 s3 -> pruner_step g0 s1 s3.
Proof. intros [F1 I1] [F2 I2]. split; [by eapply frame_trans | auto]. Qed.

Lemma check_chunk_step g0 self edge_chunk data_chunk b self' :
  chunk_of g0 edge_chunk data_chunk ->
  check_chunk self edge_chunk data_chunk = inr (b, self') ->
  pruner_step g0 self self'.
Proof.
  intros Hc H. split; [by eapply check_chunk_frame|].
  intros Hi. by eapply check_chunk_inv.
Qed.

Lemma chunk_of_entries g0 l : entries_of g0 l -> chunk_of g0 l.*1 l.*2.
Proof.
  induction 1 as [|[e d] l H Hl IH]; simpl; [constructor|].
  by constructor.
Qed.

Lemma entries_of_zip g0 edge_chunk data_chunk :
  chunk_of g0 edge_chunk data_chunk -> entries_of g0 (zip edge_chunk data_chunk).
Proof. induction 1; simpl; by constructor. Qed.

Lemma take_live_chunk g0 g chunk_size ein din rest :
  chunk_of g0 ein din -> entries_of g0 rest ->
  chunk_of g0 (take_live g chunk_size ein din rest).1.1
              (take_live g chunk_size ein din rest).1.2 /\
  entries_of g0 (take_live g chunk_size ein din rest).2.
Proof.
  intros Hc Hr. revert ein din Hc.
  induction Hr as [|[e d] rest He Hr IH]; simpl; intros ein din Hc.
  - split; [done | constructor].
  - destruct (_ <? _); [|split; [done | by constructor]].
    destruct (has_edge _ _ _); apply IH; [|done].
    apply Forall2_app; [done|]. by repeat constructor.
Qed.

Section loops.
Variable g0 : Graph Edge.data.

Lemma split_loop_step recurse subgraph chunk_size n rest self self' :
  (forall s ec dc b s', chunk_of g0 ec dc -> recurse s ec dc = inr (b, s') ->
                        pruner_step g0 s s') ->
  entries_of g0 rest ->
  split_loop recurse subgraph chunk_size n rest self = inr self' ->
  pruner_step g0 self self'.
Proof.
  intros Hrec. revert rest self.
  induction n as [|n IH]; intros rest self Hrest H; simpl in H.
  { simplify_eq. apply pruner_step_refl. }
  destruct rest as [|ed rest]; [simplify_eq; apply pruner_step_refl|].
  destruct (take_live_chunk g0 (deref self subgraph) chunk_size [] [] (ed :: rest))
    as [Hc Hr]; [constructor | done |].
  bind_inv H. destruct a as [b s1]. simpl in H.
  apply Hrec in Ha; [|done].
  apply (pruner_step_trans _ _ _ _ Ha).
  destruct b; simpl in H; [by apply IH in H|].
  bind_inv H. destruct a as [b s2]. simpl in H.
  apply check_chunk_step with (g0 := g0) in Ha0.
  2:{ apply chunk_of_entries, Forall_forall.
      intros x [_ Hx]%list_elem_of_filter.
      by apply (proj1 (Forall_forall _ _) Hr). }
  apply (pruner_step_trans _ _ _ _ Ha0).
  destruct b; [simplify_eq; apply pruner_step_refl|].
  by apply IH in H.
Qed.

Lemma chunk_process_step fuel self edge_chunk data_chunk chunk_size b self' :
  chunk_of g0 edge_chunk data_chunk ->
  chunk_process fuel self edge_chunk data_chunk chunk_size = inr (b, self') ->
  pruner_step g0 self self'.
Proof.
  revert self edge_chunk data_chunk chunk_size b self'.
  induction fuel as [|fuel IH]; intros self ec dc cs b self' Hc H; simpl in H.
  1: done.
  bind_inv H. destruct a as [b1 s1]. simpl in H.
  apply check_chunk_step with (g0 := g0) in Ha; [|done].
  destruct b1; simpl in H; [by simplify_eq|].
  destruct (cs =? 1); [by simplify_eq|].
  destruct (chunkScale (params self) =? 0); [done|].
  bind_inv H. simplify_eq.
  apply (pruner_step_trans _ _ _ _ Ha).
  refine (split_loop_step _ _ _ _ _ _ _ _ _ Ha0).
  - intros s ec' dc' b' s' Hc' Hrun. by eapply IH.
  - by apply entries_of_zip.
Qed.

Lemma main_loop_step fuel chunk_size n rest self self' :
  entries_of g0 rest ->
  main_loop fuel chunk_size n rest self = inr self' ->
  pruner_step g0 self self'.
Proof.
  revert rest self.
  induction n as [|n IH]; intros rest self Hrest H; simpl in H.
  { simplify_eq. apply pruner_step_refl. }
  destruct rest as [|ed rest]; [simplify_eq; apply pruner_step_refl|].
  destruct (take_live_chunk g0 (deref self (tmp_subgraph self)) chunk_size
              [] [] (ed :: rest)) as [Hc Hr]; [constructor | done |].
  bind_inv H. destruct a as [b s1]. simpl in H.
  apply chunk_process_step in Ha; [|done].
  apply (pruner_step_trans _ _ _ _ Ha). by apply IH in H.
Qed.
End loops.

(** ** The final sweep *)

Lemma final_sweep_path_kept self g :
  path_kept (found_path self) g ->
  path_kept (found_path self) (final_sweep self g).
Proof.
  unfold final_sweep. apply foldl_inv. intros [[u v] sc] tmp _ Hk. simpl.
  destruct (get_edge_data tmp u v) as [d|] eqn:Hd; [|done].
  destruct (Edge.found_path d) eqn:Hflag; [done|].
  pose proof (path_kept_remove_edge _ _ _ _ _ Hd Hflag Hk) as Hk'.
  destruct (check_constraints _ _); [done|].
  apply path_kept_add_edge; [|done].
  intros Hl. destruct Hk as [Hf _]. by rewrite (Hf _ _ _ Hl Hd) in Hflag.
Qed.

(** ** The initial graph *)

Lemma get_edge_data_set_found_path_attr u v flag g g' :
  set_found_path_attr u v flag g = inr g' ->
  forall x y,
  get_edge_data g' x y =
    if decide ((x = u /\ y = v) \/ (x = v /\ y = u))
    then (fun d => Edge.mk (Edge.score d) flag) <$> get_edge_data g x y
    else get_edge_data g x y.
Proof.
  unfold set_found_path_attr. destruct (get_edge_data g u v); [|done].
  intros [= <-] x y. unfold get_edge_data. simpl. rewrite !dget_dalter.
  destruct (dget x (_adj g)) as [nbrs|];
    repeat (case_decide; simpl; subst; rewrite ?dget_dalter);
    try done; try tauto; try (by destruct (dget _ nbrs)).
Qed.

Lemma flags_grow_refl g : flags_grow g g.
Proof. intros x y. destruct (get_edge_data g x y); eauto. Qed.

Lemma flags_grow_trans g1 g2 g3 :
  flags_grow g1 g2 -> flags_grow g2 g3 -> flags_grow g1 g3.
Proof.
  intros H1 H2 x y. specialize (H1 x y). specialize (H2 x y).
  destruct (get_edge_data g1 x y) as [d1|].
  - destruct H1 as (d2 & E2 & F2). rewrite E2 in H2.
    destruct H2 as (d3 & E3 & F3). eauto.
  - by rewrite H1 in H2.
Qed.

Lemma flags_grow_set_found_path_attr u v g g' :
  set_found_path_attr u v true g = inr g' -> flags_grow g g'.
Proof.
  intros H x y. rewrite (get_edge_data_set_found_path_attr _ _ _ _ _ H).
  destruct (get_edge_data g x y); case_decide; simpl; eauto.
Qed.

(** Flagging a list of links: the links are edges and their bundles are
    flagged in both directions. *)
Lemma flag_links_spec l g g' :
  foldM (fun e graph => set_found_path_attr e.1 e.2 true graph) l g = inr g' ->
  flags_grow g g' /\
  (forall u v, (u, v) ∈ l -> is_Some (get_edge_data g' u v)) /\
  (forall u v d, (u, v) ∈ l \/ (v, u) ∈ l ->
     get_edge_data g' u v = Some d -> Edge.found_path d = true).
Proof.
  revert g. induction l as [|[a b] l IH]; simpl; intros g H.
  { simplify_eq. split; [apply flags_grow_refl|].
    split; intros * Hin; [|destruct Hin as [Hin|Hin]];
      by apply elem_of_nil in Hin. }
  bind_inv H. rename a0 into g1.
  pose proof (get_edge_data_set_found_path_attr _ _ _ _ _ Ha) as Hstep.
  pose proof (flags_grow_set_found_path_attr _ _ _ _ Ha) as Hmono1.
  destruct (IH _ H) as (Hmono & Hpres & Hflag).
  split; [by eapply flags_grow_trans|split].
  - intros u v [[= -> ->]|Hin]%elem_of_cons; [|by apply Hpres].
    unfold set_found_path_attr in Ha.
    destruct (get_edge_data g a b) as [d|] eqn:Hd; [|done].
    specialize (Hmono1 a b). rewrite Hd in Hmono1.
    destruct Hmono1 as (d1 & Hd1 & _).
    specialize (Hmono a b). rewrite Hd1 in Hmono.
    destruct Hmono as (d' & Hd' & _). by rewrite Hd'.
  - intros u v d Hin Hd.
    assert (((u = a /\ v = b) \/ (u = b /\ v = a)) \/ ((u, v) ∈ l \/ (v, u) ∈ l))
      as [Hhd|Htl].
    { destruct Hin as [Hin|Hin]; apply elem_of_cons in Hin as [?|?];
        simplify_eq; tauto. }
    2: by eapply Hflag.
    specialize (Hstep u v). rewrite decide_True in Hstep by done.
    specialize (Hmono u v).
    destruct (get_edge_data g1 u v) as [d1|].
    + destruct Hmono as (d' & Hd' & H'). simplify_eq. apply H'.
      destruct (get_edge_data g u v); simpl in Hstep; by simplify_eq.
    + congruence.
Qed.

Lemma generate_initial_graph_path_kept self g0 :
  generate_initial_graph self = inr g0 -> path_kept (found_path self) g0.
Proof.
  unfold generate_initial_graph. intros H. bind_inv H.
  apply flag_links_spec in H as (_ & Hpres & Hflag).
  split; [|done]. intros u v d Hl. by apply Hflag.
Qed.

Lemma mapM_lookup_chunk (g : Graph Edge.data) edges data :
  mapM (fun e => match get_edge_data g e.1 e.2 with
                 | Some d => ret d
                 | None => raise KeyError
                 end) edges = inr data ->
  chunk_of g edges data.
Proof.
  revert data. induction edges as [|e l IH]; simpl; intros data H.
  { simplify_eq. constructor. }
  do 2 bind_inv H. simplify_eq.
  destruct (get_edge_data g e.1 e.2) eqn:E; [|done]. simplify_eq.
  constructor; [done | by apply IH].
Qed.

Lemma prepare_inv self entries chunk_size self' :
  prepare self = inr (entries, chunk_size, self') ->
  exists g0, generate_initial_graph self = inr g0 /\
             entries_of g0 entries /\ pruner_inv g0 self' /\
             self' = set_heap (heap self') (tmp_subgraph self')
                       (set_initialCycled (get_cycled_nodes self g0)
                          (get_cycled_edges self g0) self).
Proof.
  unfold prepare. intros H.
  apply bind_inr in H as (g0 & Hg0 & H).
  apply bind_inr in H as (data & Hdata & H).
  apply bind_inr in H as (cs & Hcs & H).
  apply bind_inr in H as (ex1 & Hex1 & H).
  apply bind_inr in H as (ex2 & Hex2 & H).
  apply bind_inr in H as (ex3 & Hex3 & H).
  exists g0. split; [done|].
  apply mapM_lookup_chunk in Hdata.
  pose proof (generate_initial_graph_path_kept _ _ Hg0) as Hk.
  set (self1 := set_initialCycled _ _ self) in *.
  assert (path_kept (found_path self) ex3) as Hk'.
  { apply (path_kept_reduce self1 g0); [|done].
    unfold reduce. rewrite Hex1. simpl. by rewrite Hex2. }
  destruct (is_invalid _ _); [done|]. simplify_eq.
  split; [by apply entries_of_zip|]. split; [|done].
  split; [|split]; [..|by destruct Hk].
  - apply tmp_subgraph_set_tmp_subgraph.
  - rewrite deref_set_tmp_subgraph. exact Hk'.
Qed.

Lemma find_optimal_path_found self path self' :
  find_optimal_path self = inr (path, self') ->
  self' = set_found path (links_ascending path) self.
Proof.
  unfold find_optimal_path. intros H. do 4 bind_inv H.
  destruct (length _ =? 0); [done|]. bind_inv H.
  destruct (_ !! _); by simplify_eq.
Qed.

(** ** C5 *)

(** C5.  When [build_map] returns a pair map, every two consecutive nodes
    of the found path are joined by an edge of the returned graph, and
    that edge carries the [found_path] flag: neither [check_chunk], nor
    the final sweep, nor a subgraph reduction has removed it. *)
Theorem build_map_keeps_found_path mcs self g self' :
  build_map mcs self = inr (PairMap g, self') ->
  exists path self1,
    find_optimal_path (get_score_matrix mcs self).2 = inr (path, self1) /\
    found_path self' = path /\
    forall u v, (u, v) ∈ links path ->
      exists d, get_edge_data g u v = Some d /\ Edge.found_path d = true.
Proof.
  unfold build_map. intros H.
  apply bind_inr in H as ([path self1] & Hfind & H). simpl in H.
  apply bind_inr in H as (og & _ & H).
  destruct (optimal_path_mode _); [done|].
  apply bind_inr in H as ([[entries cs] self2] & Hprep & H). simpl in H.
  apply bind_inr in H as (self3 & Hloop & H).
  apply bind_inr in H as (ex & Hmain & H). simplify_eq.
  exists path, self1. split; [done|].
  pose proof (find_optimal_path_found _ _ _ Hfind) as Hself1.
  apply prepare_inv in Hprep as (g0 & _ & Hent & Hinv & Hself2).
  apply (main_loop_step g0) in Hloop as [Hframe Hstep]; [|done].
  destruct (Hstep Hinv) as (_ & Hk & _).
  assert (found_path self' = path) as Hpath.
  { rewrite (frame_found_path _ _ Hframe), Hself2, Hself1. done. }
  split; [done|].
  apply final_sweep_path_kept in Hk.
  apply get_main_subgraph_shape in Hmain as (S & -> & HS).
  apply (path_kept_subgraph _ _ S) in Hk as [Hf Hp]; [|done].
  rewrite Hpath in Hf, Hp.
  intros u v Hl. destruct (Hp _ _ Hl) as [d Hd].
  exists d. split; [done|]. apply (Hf u v); [by left | done].
Qed.

(** ** C1 *)

(** C1, at the input [sweep_input].  The edges 0-3 and 2-3 have score 1
    and are in the current subgraph when the chunked phase ends; the final
    sweep, which skips flagged edges only, removes 0-3 while node 3 is
    still there, and the returned graph has neither edge. *)
Theorem final_sweep_removes_score_one :
  exists g self',
    run (unnamed 4) sweep_input = inr (PairMap g, self') /\
    let before := deref self' (tmp_subgraph self') in
    get_edge_data before 0 3 = Some (Edge.mk (100 # 100) false) /\
    get_edge_data before 2 3 = Some (Edge.mk (100 # 100) false) /\
    has_node (final_sweep self' before) 3 = true /\
    get_edge_data (final_sweep self' before) 0 3 = None /\
    get_edge_data g 0 3 = None /\ get_edge_data g 2 3 = None.
Proof.
  eexists _, _. split; [vm_compute; reflexivity|].
  vm_compute. repeat split.
Qed.

(** ** C2 *)

(** C2 as stated fails at [snapshot_input]: the snapshot of the cycled
    nodes is {2}, taken from the initial graph, where node 2 lies on the
    triangle 2-3-4; the reduced initial graph has lost that triangle and
    its cycled-node set is empty. *)
Lemma snapshot_is_not_of_reduced_graph :
  exists self0 path self1 g0 g1 g self',
    init (unnamed 5) snapshot_input = inr self0 /\
    find_optimal_path self0 = inr (path, self1) /\
    generate_initial_graph self1 = inr g0 /\
    reduce self1 g0 = inr g1 /\
    build_map no_mcs self0 = inr (PairMap g, self') /\
    initialCycledNodesSet self' = {[2]} /\
    get_cycled_nodes self' g1 = ∅.
Proof.
  eexists _, _, _, _, _, _, _.
  split; [vm_compute; reflexivity|].
  split; [vm_compute; reflexivity|].
  split; [vm_compute; reflexivity|].
  split; [vm_compute; reflexivity|].
  split; [vm_compute; reflexivity|].
  split; vm_compute; reflexivity.
Qed.

(** C2, amended.  When [build_map] returns a pair map, the two snapshot
    sets of the object are the cycled-node set and the cycled-edge set of
    the initial graph as [generate_initial_graph] built it, before any
    reduction; they are as they were captured, no later step having
    assigned them. *)
Theorem snapshots_of_initial_graph mcs self g self' :
  build_map mcs self = inr (PairMap g, self') ->
  exists path self1 g0,
    find_optimal_path (get_score_matrix mcs self).2 = inr (path, self1) /\
    generate_initial_graph self1 = inr g0 /\
    initialCycledNodesSet self' = get_cycled_nodes self1 g0 /\
    initialCycledEdgesSet self' = get_cycled_edges self1 g0.
Proof.
  unfold build_map. intros H.
  apply bind_inr in H as ([path self1] & Hfind & H). simpl in H.
  apply bind_inr in H as (og & _ & H).
  destruct (optimal_path_mode _); [done|].
  apply bind_inr in H as ([[entries cs] self2] & Hprep & H). simpl in H.
  apply bind_inr in H as (self3 & Hloop & H).
  apply bind_inr in H as (ex & Hmain & H). simplify_eq.
  apply prepare_inv in Hprep as (g0 & Hg0 & Hent & Hinv & Hself2).
  apply (main_loop_step g0) in Hloop as [Hframe _]; [|done].
  exists path, self1, g0. repeat split; [done..| |].
  - rewrite Hframe, Hself2. done.
  - rewrite Hframe, Hself2. done.
Qed.

Lemma snapshots_of_initial_graph_witness :
  exists self g self',
    init (unnamed 5) snapshot_input = inr self /\
    build_map no_mcs self = inr (PairMap g, self') /\
    exists path self1 g0,
      find_optimal_path (get_score_matrix no_mcs self).2 = inr (path, self1) /\
      generate_initial_graph self1 = inr g0 /\
      initialCycledNodesSet self' = get_cycled_nodes self1 g0 /\
      initialCycledEdgesSet self' = get_cycled_edges self1 g0.
Proof.
  eexists _, _, _. split; [vm_compute; reflexivity|].
  split; [vm_compute; reflexivity|].
  eapply snapshots_of_initial_graph. vm_compute. reflexivity.
Defined.

(** ** C3 *)

(** C3, at the input [ragged_matrix] with two molecules.  The matrix is
    not 2×2: its second row has one entry.  The constructor measures the
    number of rows and the first row (lines 34-37), returns the object
    with the matrix stored as it is, and raises neither shape error. *)
Theorem ragged_matrix_is_accepted :
  ~ is_square 2 ragged_matrix /\
  (exists self,
     init (unnamed 2) (with_matrix ragged_matrix 10 false) = inr self /\
     score_matrix self = Some ragged_matrix) /\
  ~ shape_mismatch (init (unnamed 2) (with_matrix ragged_matrix 10 false)).
Proof.
  split; [|split].
  - intros [_ Hrows]. by inversion Hrows as [|?? _ Htl]; inversion Htl.
  - eexists. split; reflexivity.
  - intros [H|H]; done.
Qed.

(** What the test of lines 34-37 is for any input: the constructor
    raises a shape error exactly when the number of rows, or the length
    of the first row, is not the number of molecules.  It builds no
    graph: a shape error is its whole result.  A matrix it accepts is
    stored as it is, and every N×N matrix with N ≥ 1 is accepted. *)
Theorem init_checks_rows_and_first_row intermediates p m :
  custum_score_matrix p = Some m ->
  (shape_mismatch (init intermediates p) <->
     length m ≠ length intermediates \/
     exists row0 rows, m = row0 :: rows /\ length row0 ≠ length intermediates) /\
  (forall self, init intermediates p = inr self ->
     score_matrix self = Some m /\ heap self = []) /\
  (is_square (length intermediates) m -> 0 < length intermediates ->
     exists self, init intermediates p = inr self).
Proof.
  intros Hm. unfold init, shape_mismatch. rewrite Hm.
  destruct (decide (length m = length intermediates)) as [Hlen|Hlen].
  - rewrite (proj2 (Nat.eqb_eq _ _) Hlen). simpl.
    destruct m as [|row0 rows]; simpl.
    + split; [|split].
      * split; [intros [|]; done | intros [?|(?&?&?&?)]; done].
      * done.
      * intros _ ?. simpl in Hlen. lia.
    + destruct (decide (length row0 = length intermediates)) as [Hrow|Hrow].
      * rewrite (proj2 (Nat.eqb_eq _ _) Hrow). simpl.
        split; [|split].
        -- split; [intros [|]; done|].
           intros [?|(?&?&?&?)]; [done|]. by simplify_eq.
        -- by intros self [= <-].
        -- eauto.
      * rewrite (proj2 (Nat.eqb_neq _ _) Hrow). simpl.
        split; [|split].
        -- split; [|by right]. intros _. right. eauto.
        -- done.
        -- intros [_ Hsq] _. by inversion Hsq.
  - rewrite (proj2 (Nat.eqb_neq _ _) Hlen). simpl.
    split; [|split].
    + split; [by left | by left].
    + done.
    + by intros [? _].
Qed.

Lemma init_checks_rows_and_first_row_witness :
  (shape_mismatch (init (unnamed 2) (with_matrix ragged_matrix 10 false)) <->
     length ragged_matrix ≠ length (unnamed 2) \/
     exists row0 rows, ragged_matrix = row0 :: rows /\
                       length row0 ≠ length (unnamed 2)) /\
  (forall self, init (unnamed 2) (with_matrix ragged_matrix 10 false) = inr self ->
     score_matrix self = Some ragged_matrix /\ heap self = []) /\
  (is_square (length (unnamed 2)) ragged_matrix -> 0 < length (unnamed 2) ->
     exists self, init (unnamed 2) (with_matrix ragged_matrix 10 false) = inr self).
Proof.
  apply (init_checks_rows_and_first_row (unnamed 2)
           (with_matrix ragged_matrix 10 false) ragged_matrix).
  reflexivity.
Defined.

(** ** C4 *)

(** C4, at the input [round_input].  The matrix entry is 0.456;
    [make_graph] puts 0.46 on the edge 0-1, and the graph returned in
    optimal-path mode carries 0.456, the entry as it is. *)
Theorem optimal_path_graph_score_not_rounded :
  exists g self' graph,
    run (unnamed 2) round_input = inr (OptimalPathGraph g, self') /\
    get_edge_data g 0 1 = Some (456 # 1000)%Q /\
    round2 (456 # 1000) = (46 # 100)%Q /\
    ~ (456 # 1000 == 46 # 100)%Q /\
    make_graph self' None = inr graph /\
    get_edge_data graph 0 1 = Some (46 # 100)%Q.
Proof.
  eexists _, _, _. split; [vm_compute; reflexivity|].
  split; [vm_compute; reflexivity|].
  split; [vm_compute; reflexivity|].
  split; [by vm_compute|].
  split; vm_compute; reflexivity.
Qed.

(** ** C5, an instance *)

Lemma build_map_keeps_found_path_witness :
  exists self g self',
    init (unnamed 4) sweep_input = inr self /\
    build_map no_mcs self = inr (PairMap g, self') /\
    exists path self1,
      find_optimal_path (get_score_matrix no_mcs self).2 = inr (path, self1) /\
      found_path self' = path /\
      forall u v, (u, v) ∈ links path ->
        exists d, get_edge_data g u v = Some d /\ Edge.found_path d = true.
Proof.
  eexists _, _, _. split; [vm_compute; reflexivity|].
  split; [vm_compute; reflexivity|].
  eapply build_map_keeps_found_path. vm_compute. reflexivity.
Defined.

(** ** C9 *)

Lemma mutate_id self ref f : (forall g, f g = g) -> mutate ref f self = self.
Proof.
  intros Hf. unfold mutate. rewrite list_alter_id by done. by destruct self.
Qed.

(** C9.  On an empty chunk [check_chunk] does what its removal branch
    does: nothing is removed, the current subgraph is reduced (reachable,
    cycle, main), and when the reduction holds the found path and meets
    the constraints it becomes the current subgraph; the call does not
    return through the accept of line 240, which leaves the subgraph as
    it is.  The main loop of [build_map] makes such a call: at
    [empty_chunk_input], after seven of the eight sorted edges, the last
    edge is no longer in the current subgraph, the chunk assembled from
    it is empty, and its acceptance takes the current subgraph from five
    nodes to three. *)
Theorem check_chunk_empty_chunk :
  (forall self,
     check_chunk self [] [] =
       (exgraph <- reduce self (deref self (tmp_subgraph self)) ;;
        if is_invalid self exgraph || negb (check_constraints self exgraph)
        then ret (false, self)
        else ret (true, set_tmp_subgraph exgraph self))) /\
  (exists entries chunk_size self0 self1 self2,
     run_prepare (unnamed 6) empty_chunk_input = inr (entries, chunk_size, self0) /\
     main_loop (S chunk_size) chunk_size 7 (take 7 entries) self0 = inr self1 /\
     drop 7 entries ≠ [] /\
     take_live (deref self1 (tmp_subgraph self1)) chunk_size [] [] (drop 7 entries)
       = ([], [], []) /\
     check_chunk self1 [] [] = inr (true, self2) /\
     nodes (deref self1 (tmp_subgraph self1)) = [0; 1; 2; 3; 5] /\
     nodes (deref self2 (tmp_subgraph self2)) = [0; 1; 5]).
Proof.
  split.
  - intros self. unfold check_chunk, reduce. simpl.
    rewrite !mutate_id by done.
    destruct (get_reachable_subgraph _ _) as [|ex1]; [done|]. simpl.
    destruct (get_cycle_subgraph _ _) as [|ex2]; [done|]. simpl.
    destruct (get_main_subgraph _ _) as [|ex3]; [done|]. simpl.
    destruct (is_invalid _ _); [done|]. simpl.
    by destruct (check_constraints _ _).
  - eexists _, _, _, _, _.
    split; [vm_compute; reflexivity|].
    split; [vm_compute; reflexivity|].
    split; [by vm_compute|].
    split; [vm_compute; reflexivity|].
    split; [vm_compute; reflexivity|].
    split; vm_compute; reflexivity.
Qed.

(** ** C6 *)

(** C6, at the input [chunk_input].  The first chunk of the main loop is
    the four weakest edges; [chunk_process] splits it in two.
    [check_chunk] accepts the first half, and the reduction drops node 3
    with its last edge 2-3.  The second half still names 2-3, which the
    object [chunk_process] looks at has kept; [check_chunk] rejects it,
    and in putting the chunk back adds the edge 2-3 and node 3 to a
    current subgraph that had neither: the rejection does not leave the
    current subgraph as it was. *)
Theorem check_chunk_reject_adds_edge :
  exists entries chunk_size self0 self1 self2,
    run_prepare (unnamed 4) chunk_input = inr (entries, chunk_size, self0) /\
    (take 4 entries).*1 = [(0, 3); (1, 3); (2, 3); (0, 2)] /\
    check_chunk self0 (take 2 entries).*1 (take 2 entries).*2 = inr (true, self1) /\
    check_chunk self1 (take 2 (drop 2 entries)).*1 (take 2 (drop 2 entries)).*2
      = inr (false, self2) /\
    tmp_subgraph self2 = tmp_subgraph self1 /\
    has_node (deref self1 (tmp_subgraph self1)) 3 = false /\
    get_edge_data (deref self1 (tmp_subgraph self1)) 2 3 = None /\
    has_node (deref self2 (tmp_subgraph self2)) 3 = true /\
    get_edge_data (deref self2 (tmp_subgraph self2)) 2 3
      = Some (Edge.mk (40 # 100) false).
Proof.
  eexists _, _, _, _, _.
  split; [vm_compute; reflexivity|].
  split; [vm_compute; reflexivity|].
  split; [vm_compute; reflexivity|].
  split; [vm_compute; reflexivity|].
  repeat split; vm_compute; reflexivity.
Qed.

(** ** Putting a chunk back *)

Section restore.
Context {A : Type}.
Implicit Types (g : Graph A) (u v x y n : nat) (a : A).

Lemma is_Some_dget_dalter {V} (f : V -> V) (k k' : nat) (d : dict nat V) :
  is_Some (dget k' (dalter f k d)) <-> is_Some (dget k' d).
Proof.
  rewrite dget_dalter. case_decide; [|done].
  by rewrite fmap_is_Some.
Qed.

Lemma add_node_present g n : is_Some (dget n (_node g)) -> add_node n g = g.
Proof.
  intros H. unfold add_node.
  by rewrite (proj2 (has_node_spec g n) H).
Qed.

Lemma dget_adj_add_nodes_None g u v x :
  dget x (_adj (add_node v (add_node u g))) = None -> dget x (_adj g) = None.
Proof.
  rewrite !dget_adj_add_node. by destruct (dget x (_adj g)).
Qed.

Lemma get_edge_data_add_edge_ne g u v a x y :
  ~ ((x = u /\ y = v) \/ (x = v /\ y = u)) ->
  get_edge_data (add_edge u v a g) x y = get_edge_data g x y.
Proof.
  intros Hne. unfold add_edge, get_edge_data. simpl.
  rewrite !dget_dalter.
  destruct (dget x (_adj (add_node v (add_node u g)))) as [nbrs|] eqn:E.
  - apply dget_adj_add_nodes_Some in E as [->| [-> ->]];
      repeat case_decide; simpl; subst; rewrite ?dget_dset; simpl;
      repeat (case_decide; subst; simpl); try done; tauto.
  - apply dget_adj_add_nodes_None in E as ->. by repeat case_decide.
Qed.

(** Between two nodes that have their adjacency dictionaries, [add_edge]
    is seen from both ends. *)
Lemma get_edge_data_add_edge_eq g u v a :
  is_Some (dget u (_node g)) -> is_Some (dget v (_node g)) ->
  is_Some (dget u (_adj g)) -> is_Some (dget v (_adj g)) ->
  get_edge_data (add_edge u v a g) u v = Some a /\
  get_edge_data (add_edge u v a g) v u = Some a.
Proof.
  intros Hu Hv [nu Hnu] [nv Hnv]. unfold add_edge.
  rewrite (add_node_present g u), (add_node_present g v) by done.
  unfold get_edge_data. simpl. rewrite !dget_dalter, Hnu, Hnv.
  split; repeat (case_decide; simpl; subst); rewrite ?dget_dset;
    repeat (case_decide; simpl; subst); try done;
    simplify_eq; rewrite ?dget_dset; by repeat case_decide.
Qed.

Lemma add_edge_keys g u v a :
  is_Some (dget u (_node g)) -> is_Some (dget v (_node g)) ->
  _node (add_edge u v a g) = _node g /\
  forall n, is_Some (dget n (_adj (add_edge u v a g))) <-> is_Some (dget n (_adj g)).
Proof.
  intros Hu Hv. unfold add_edge.
  rewrite (add_node_present g u), (add_node_present g v) by done.
  split; [done|]. intros n. simpl. by rewrite !is_Some_dget_dalter.
Qed.

Lemma remove_edge_keys g u v :
  _node (remove_edge u v g) = _node g /\
  forall n, is_Some (dget n (_adj (remove_edge u v g))) <-> is_Some (dget n (_adj g)).
Proof.
  unfold remove_edge. destruct (has_edge g u v); [|done].
  split; [done|]. intros n. simpl. by rewrite !is_Some_dget_dalter.
Qed.

Lemma remove_edges_from_keys g ebunch :
  _node (remove_edges_from ebunch g) = _node g /\
  forall n, is_Some (dget n (_adj (remove_edges_from ebunch g)))
            <-> is_Some (dget n (_adj g)).
Proof.
  unfold remove_edges_from. revert g.
  induction ebunch as [|e l IH]; simpl; intros g; [done|].
  destruct (IH (remove_edge e.1 e.2 g)) as [H1 H2].
  destruct (remove_edge_keys g e.1 e.2) as [H3 H4].
  split; [congruence|]. intros n. by rewrite H2, H4.
Qed.

(** Adding back, over a graph [g'] that has the nodes, a list of edges
    with the bundles [target] gives them: the listed edges get their
    bundle, seen from both ends, and nothing else changes. *)
Lemma add_edges_back (target : nat -> nat -> option A) l g' :
  (forall n, is_Some (dget n (_node g')) -> is_Some (dget n (_adj g'))) ->
  Forall (fun ed : nat * nat * A =>
            is_Some (dget ed.1.1 (_node g')) /\
            is_Some (dget ed.1.2 (_node g')) /\
            target ed.1.1 ed.1.2 = Some ed.2 /\
            target ed.1.2 ed.1.1 = Some ed.2) l ->
  _node (foldl (fun g ed => add_edge ed.1.1 ed.1.2 ed.2 g) g' l) = _node g' /\
  (forall n, is_Some (dget n (_adj (foldl (fun g ed => add_edge ed.1.1 ed.1.2 ed.2 g) g' l)))
             <-> is_Some (dget n (_adj g'))) /\
  (forall x y,
     get_edge_data (foldl (fun g ed => add_edge ed.1.1 ed.1.2 ed.2 g) g' l) x y =
       if decide ((x, y) ∈ l.*1 \/ (y, x) ∈ l.*1)
       then target x y else get_edge_data g' x y).
Proof.
  intros Hadj Hl. revert g' Hadj Hl.
  induction l as [|[[u v] a] l IH]; intros g' Hadj Hl.
  { simpl. done. }
  apply Forall_cons in Hl as [(Hu & Hv & Huv & Hvu) Hl'].
  rewrite fmap_cons. cbn [foldl fst snd] in *.
  destruct (add_edge_keys g' u v a Hu Hv) as [Hn Hk].
  destruct (IH (add_edge u v a g')) as (IH1 & IH2 & IH3).
  { intros n. rewrite Hn, Hk. apply Hadj. }
  { eapply Forall_impl; [done|]. intros ed. by rewrite Hn. }
  split; [congruence|]. split; [intros n; by rewrite IH2, Hk|].
  intros x y. rewrite IH3.
  destruct (get_edge_data_add_edge_eq g' u v a Hu Hv (Hadj _ Hu) (Hadj _ Hv))
    as [E1 E2].
  destruct (decide ((x, y) ∈ l.*1 \/ (y, x) ∈ l.*1)) as [Hin|Hnin].
  - rewrite decide_True; [done|]. destruct Hin; [left|right]; by right.
  - destruct (decide ((x = u /\ y = v) \/ (x = v /\ y = u))) as [Heq|Hne].
    + rewrite decide_True.
      * destruct Heq as [[-> ->]|[-> ->]]; congruence.
      * destruct Heq as [[-> ->]|[-> ->]]; [left|right]; left.
    + rewrite get_edge_data_add_edge_ne by done.
      rewrite decide_False; [done|].
      intros [[?|?]%elem_of_cons|[?|?]%elem_of_cons]; simplify_eq; tauto.
Qed.

(** Removing a chunk of edges of a well-formed graph and putting it back
    with the bundles the edges had gives the graph again. *)
Lemma restore_remove_edges_from g edge_chunk (data_chunk : list A) :
  well_formed g ->
  Forall2 (fun e d => get_edge_data g e.1 e.2 = Some d) edge_chunk data_chunk ->
  graphs_equal
    (foldl (fun g ed => add_edge ed.1.1 ed.1.2 ed.2 g)
           (remove_edges_from edge_chunk g) (zip edge_chunk data_chunk))
    g.
Proof.
  intros (Hadj & Hends & Hsym) Hc.
  destruct (remove_edges_from_keys g edge_chunk) as [Hn Hk].
  destruct (add_edges_back (get_edge_data g) (zip edge_chunk data_chunk)
              (remove_edges_from edge_chunk g)) as (H1 & H2 & H3).
  { intros n. rewrite Hn, Hk. apply Hadj. }
  { rewrite Hn. clear Hn Hk. induction Hc as [|e d ec dc He Hc IH]; simpl;
      constructor; [|done]. simpl.
    destruct (Hends e.1 e.2) as [? ?]; [by rewrite He|].
    repeat split; [done..|]. by rewrite Hsym. }
  assert ((zip edge_chunk data_chunk).*1 = edge_chunk) as Hfst.
  { apply fst_zip. apply Forall2_length in Hc. lia. }
  rewrite Hfst in H3.
  split; [intros n; congruence|]. split; [intros n; by rewrite H2, Hk|].
  intros x y. rewrite H3. case_decide as Hin; [done|].
  apply get_edge_data_remove_edges_from_ne.
  intros e He. split; intros ->; tauto.
Qed.
End restore.

Lemma graphs_equal_refl {A} (g : Graph A) : graphs_equal g g.
Proof. done. Qed.

Lemma well_formedb_sound {A} `{EqDecision A} (g : Graph A) :
  well_formedb g = true -> well_formed g.
Proof.
  unfold well_formedb. intros [H1 H2]%andb_true_iff.
  rewrite List.forallb_forall in H1, H2.
  assert (forall u v a, get_edge_data g u v = Some a ->
            is_Some (dget u (_node g)) /\ is_Some (dget v (_node g)) /\
            get_edge_data g v u = Some a) as Hedge.
  { intros u v a Huv. unfold get_edge_data in Huv.
    destruct (dget u (_adj g)) as [nbrs|] eqn:Hu; [|done].
    apply dget_Some_elem_of, list_elem_of_In, H2 in Hu.
    apply andb_true_iff in Hu as [Hu Hn]. simpl in *.
    rewrite List.forallb_forall in Hn.
    apply dget_Some_elem_of, list_elem_of_In, Hn in Huv.
    apply andb_true_iff in Huv as [Hv Hvu]. simpl in *.
    apply bool_decide_eq_true in Hvu.
    split; [by apply bool_decide_eq_true in Hu|].
    split; [by apply bool_decide_eq_true in Hv | done]. }
  split; [|split].
  - intros n Hn. destruct (dget n (_adj g)) eqn:E; [done|].
    assert (n ∈ dkeys (_node g)) as Hin.
    { destruct (decide (n ∈ dkeys (_node g))) as [|Hnin]; [done|].
      apply dget_None_keys in Hnin. rewrite Hnin in Hn. by destruct Hn. }
    apply list_elem_of_In, H1 in Hin. unfold dmem in Hin.
    apply bool_decide_eq_true in Hin. by rewrite E in Hin.
  - intros u v [a Ha]. apply Hedge in Ha. tauto.
  - intros u v. destruct (get_edge_data g u v) as [a|] eqn:Huv.
    + apply Hedge in Huv. symmetry. tauto.
    + destruct (get_edge_data g v u) as [a|] eqn:Hvu; [|done].
      apply Hedge in Hvu. destruct Hvu as (_ & _ & Hvu). congruence.
Qed.

(** ** A chunk of the current subgraph *)

(** The test of line 250 never fires: a reduction that returns has passed
    the same test at the end of [get_main_subgraph] (line 159), and one
    that does not pass it raises [InvalidGraph] out of [check_chunk]. *)
Lemma reduce_has_found_path_nodes {A} self (g exgraph : Graph A) :
  reduce self g = inr exgraph -> is_invalid self exgraph = false.
Proof.
  unfold reduce. intros H.
  apply bind_inr in H as (ex1 & _ & H).
  apply bind_inr in H as (ex2 & _ & H).
  unfold get_main_subgraph in H.
  destruct (is_invalid self _) eqn:E; by simplify_eq.
Qed.

(** What [check_chunk] does to a chunk of the current subgraph.  Let the
    current subgraph be well formed and let every edge of the chunk be
    in it, carrying the bundle paired with it.  When
    [check_chunk] rejects the chunk, the current subgraph is the same
    object as before and has the nodes, labels, edges and bundles it had.
    When it accepts a chunk of removable edges, the current subgraph is a
    new object: the reachable-, cycle- and main-subgraph reduction of the
    old one without the edges of the chunk. *)
Theorem check_chunk_atomic self edge_chunk data_chunk b self' :
  tmp_subgraph self < length (heap self) ->
  well_formed (deref self (tmp_subgraph self)) ->
  chunk_of (deref self (tmp_subgraph self)) edge_chunk data_chunk ->
  check_chunk self edge_chunk data_chunk = inr (b, self') ->
  (b = false ->
     tmp_subgraph self' = tmp_subgraph self /\
     graphs_equal (deref self' (tmp_subgraph self'))
                  (deref self (tmp_subgraph self))) /\
  (b = true -> Forall (fun d => removable d = true) data_chunk ->
     tmp_subgraph self' = length (heap self) /\
     reduce self (remove_edges_from edge_chunk (deref self (tmp_subgraph self)))
       = inr (deref self' (tmp_subgraph self'))).
Proof.
  intros Href Hwf Hc H. unfold check_chunk in H.
  destruct (negb (forallb _ _)) eqn:Hall.
  { assert (~ Forall (fun d => removable d = true) data_chunk) as Hnot.
    { intros HF. apply negb_true_iff in Hall.
      assert (forallb id (removable <$> data_chunk) = true); [|congruence].
      clear -HF. induction HF; simpl; [done|]. by apply andb_true_iff. }
    destruct (negb (existsb _ _)); simplify_eq; (split; [|done]); done. }
  set (self1 := mutate _ _ self) in H.
  assert (tmp_subgraph self < length (heap self1)) as Href1.
  { unfold self1, mutate. simpl. by rewrite length_alter. }
  assert (deref self1 (tmp_subgraph self) =
          remove_edges_from edge_chunk (deref self (tmp_subgraph self))) as Hd1
    by (by apply deref_mutate).
  apply bind_inr in H as (ex1 & Hex1 & H).
  apply bind_inr in H as (ex2 & Hex2 & H).
  apply bind_inr in H as (ex3 & Hex3 & H).
  assert (graphs_equal
            (deref (mutate (tmp_subgraph self)
                      (restore edge_chunk data_chunk) self1) (tmp_subgraph self))
            (deref self (tmp_subgraph self))) as Hback.
  { rewrite deref_mutate, Hd1 by done. by apply restore_remove_edges_from. }
  destruct (is_invalid _ _); [by simplify_eq|].
  destruct (negb (check_constraints _ _)); simplify_eq; [done|].
  split; [done|]. intros _ _. split.
  - unfold self1, mutate. simpl. by rewrite length_alter.
  - rewrite deref_set_tmp_subgraph, <-Hd1.
    change (reduce self1 (deref self1 (tmp_subgraph self)) = inr ex3).
    unfold reduce. rewrite Hex1. simpl. by rewrite Hex2.
Qed.

Lemma check_chunk_atomic_witness :
  exists entries chunk_size self b self',
    run_prepare (unnamed 4) chunk_input = inr (entries, chunk_size, self) /\
    check_chunk self (take 4 entries).*1 (take 4 entries).*2 = inr (b, self') /\
    b = false /\
    (b = false ->
       tmp_subgraph self' = tmp_subgraph self /\
       graphs_equal (deref self' (tmp_subgraph self'))
                    (deref self (tmp_subgraph self))) /\
    (b = true -> Forall (fun d => removable d = true) (take 4 entries).*2 ->
       tmp_subgraph self' = length (heap self) /\
       reduce self (remove_edges_from (take 4 entries).*1
                      (deref self (tmp_subgraph self)))
         = inr (deref self' (tmp_subgraph self'))).
Proof.
  eexists _, _, _, _, _.
  split; [vm_compute; reflexivity|].
  split; [vm_compute; reflexivity|].
  split; [reflexivity|].
  eapply check_chunk_atomic.
  - vm_compute. lia.
  - apply well_formedb_sound. vm_compute. reflexivity.
  - vm_compute. repeat constructor.
  - vm_compute. reflexivity.
Defined.

(** ** Building a graph: nodes, keys and edges after each operation *)

Section build_lemmas.
Context {A : Type}.
Implicit Types (g : Graph A) (u v x y n k : nat) (a : A).

Lemma dget_node_add_node g n k :
  dget k (_node (add_node n g)) =
    match dget k (_node g) with
    | Some l => Some l
    | None => if decide (k = n) then Some None else None
    end.
Proof.
  unfold add_node. destruct (has_node g n) eqn:E; simpl.
  - apply has_node_spec in E as [l Hl].
    destruct (dget k (_node g)) eqn:Hk; [done|].
    case_decide; [|done]. subst. congruence.
  - rewrite dget_app. simpl. by destruct (dget k (_node g)).
Qed.

Lemma dget_node_set_label g n name k :
  dget k (_node (set_label n name g)) =
    if decide (k = n) then (fun _ => Some name) <$> dget k (_node g)
    else dget k (_node g).
Proof. unfold set_label. simpl. by rewrite dget_dalter. Qed.

Lemma dget_node_add_edge g u v a k :
  dget k (_node (add_edge u v a g)) =
    match dget k (_node g) with
    | Some l => Some l
    | None => if decide (k = u \/ k = v) then Some None else None
    end.
Proof.
  unfold add_edge. simpl. rewrite !dget_node_add_node.
  destruct (dget k (_node g)); [done|].
  repeat case_decide; try done; tauto.
Qed.

Lemma keys_agree_empty : keys_agree (@empty_graph A).
Proof. intros k. simpl. split; intros [? ?]; done. Qed.

Lemma keys_agree_add_node g n : keys_agree g -> keys_agree (add_node n g).
Proof.
  intros Hk k. rewrite dget_adj_add_node, dget_node_add_node.
  specialize (Hk k).
  destruct (dget k (_adj g)) as [nb|] eqn:Ea;
    destruct (dget k (_node g)) as [l|] eqn:En.
  - done.
  - destruct Hk as [Hk _]. by destruct Hk.
  - destruct Hk as [_ Hk]. by destruct Hk.
  - destruct (has_node g n) eqn:E.
    + apply has_node_spec in E as [l Hl].
      case_decide; [subst; congruence|]. done.
    + by case_decide.
Qed.

Lemma keys_agree_set_label g n name : keys_agree g -> keys_agree (set_label n name g).
Proof.
  intros Hk k. rewrite dget_node_set_label. simpl.
  case_decide; [|done]. by rewrite fmap_is_Some.
Qed.

Lemma keys_agree_add_edge g u v a : keys_agree g -> keys_agree (add_edge u v a g).
Proof.
  intros Hk k. unfold add_edge. simpl.
  rewrite !is_Some_dget_dalter.
  by apply keys_agree_add_node, keys_agree_add_node.
Qed.

Lemma get_edge_data_add_edge g u v a x y :
  keys_agree g ->
  get_edge_data (add_edge u v a g) x y =
    if decide ((x = u /\ y = v) \/ (x = v /\ y = u)) then Some a
    else get_edge_data g x y.
Proof.
  intros Hk. case_decide as Hxy; [|by apply get_edge_data_add_edge_ne].
  pose proof (keys_agree_add_node _ v (keys_agree_add_node _ u Hk)) as Hk2.
  assert (forall k, k = u \/ k = v ->
            is_Some (dget k (_adj (add_node v (add_node u g))))) as Hadj.
  { intros k Hkuv. apply Hk2. rewrite !dget_node_add_node.
    destruct (dget k (_node g)); [done|]. repeat case_decide; try done; tauto. }
  destruct (Hadj u) as [nu Hnu]; [tauto|].
  destruct (Hadj v) as [nv Hnv]; [tauto|].
  unfold add_edge, get_edge_data. simpl. rewrite !dget_dalter.
  destruct Hxy as [[-> ->]|[-> ->]]; rewrite ?Hnu, ?Hnv;
    repeat (case_decide; simpl; subst); rewrite ?Hnu, ?Hnv; simpl;
    rewrite ?dget_dset; repeat (case_decide; simpl; subst); try done;
    rewrite ?dget_dset; by repeat case_decide.
Qed.
End build_lemmas.

(** Adding the edges of [l], each with the score [f] gives it. *)
Lemma add_edges_obs {A} (f : nat * nat -> A) (l : list (nat * nat)) (g : Graph A) :
  keys_agree g -> Forall (fun e => e.1 < e.2) l ->
  keys_agree (foldl (fun g ed => add_edge ed.1.1 ed.1.2 ed.2 g) g
                ((fun e => (e, f e)) <$> l)) /\
  (forall k,
     dget k (_node (foldl (fun g ed => add_edge ed.1.1 ed.1.2 ed.2 g) g
                      ((fun e => (e, f e)) <$> l))) =
       match dget k (_node g) with
       | Some x => Some x
       | None => if decide (k ∈ l.*1 \/ k ∈ l.*2) then Some None else None
       end) /\
  (forall x y,
     get_edge_data (foldl (fun g ed => add_edge ed.1.1 ed.1.2 ed.2 g) g
                      ((fun e => (e, f e)) <$> l)) x y =
       if decide ((x, y) ∈ l \/ (y, x) ∈ l)
       then Some (f (x `min` y, x `max` y)) else get_edge_data g x y).
Proof.
  intros Hk Hl. revert g Hk.
  induction Hl as [|[u v] l Huv Hl IH]; intros g Hk.
  { rewrite fmap_nil. cbn [foldl]. split; [done|]. split.
    - intros k. destruct (dget k (_node g)); [done|].
      rewrite decide_False; [done|]. intros [H|H]; by inversion H.
    - intros x y. rewrite decide_False; [done|].
      intros [H|H]; by inversion H. }
  rewrite !fmap_cons. cbn [foldl fst snd] in *.
  destruct (IH (add_edge u v (f (u, v)) g)) as (IH1 & IH2 & IH3).
  { by apply keys_agree_add_edge. }
  split; [done|]. split.
  - intros k. rewrite IH2, dget_node_add_edge.
    destruct (dget k (_node g)); [done|].
    repeat case_decide; try done; exfalso;
      rewrite ?elem_of_cons in *; simpl in *; naive_solver.
  - intros x y. rewrite IH3, get_edge_data_add_edge by done.
    destruct (decide ((x, y) ∈ l \/ (y, x) ∈ l)) as [Hin|Hnin].
    + rewrite decide_True; [done|]. rewrite !elem_of_cons. tauto.
    + destruct (decide ((x = u /\ y = v) \/ (x = v /\ y = u))) as [Heq|Hne].
      * rewrite decide_True by (rewrite !elem_of_cons; naive_solver).
        f_equal. f_equal.
        destruct Heq as [[-> ->]|[-> ->]]; f_equal; lia.
      * rewrite decide_False; [done|]. rewrite !elem_of_cons. naive_solver.
Qed.

(** A loop over [enumerate l], seen index by index. *)
Lemma foldl_zip_seq_ind {S X} (P : nat -> S -> Prop) (body : S -> nat * X -> S)
    (l : list X) (k : nat) (s : S) :
  P k s ->
  (forall i x s, l !! i = Some x -> P (k + i) s -> P (k + Datatypes.S i) (body s (k + i, x))) ->
  P (k + length l) (foldl body s (zip (seq k (length l)) l)).
Proof.
  revert k s. induction l as [|x l IH]; intros k s H0 Hstep; simpl.
  { by rewrite Nat.add_0_r. }
  replace (k + Datatypes.S (length l)) with (Datatypes.S k + length l) by lia.
  apply IH.
  - specialize (Hstep 0 x s). rewrite !Nat.add_0_r, Nat.add_1_r in Hstep.
    by apply Hstep.
  - intros i y s' Hi Hs'. specialize (Hstep (Datatypes.S i) y s').
    replace (k + Datatypes.S i) with (Datatypes.S k + i) in Hstep by lia.
    replace (k + Datatypes.S (Datatypes.S i)) with (Datatypes.S k + Datatypes.S i) in Hstep by lia.
    by apply Hstep.
Qed.

Lemma foldM_zip_seq_ind {S X} (P : nat -> S -> Prop)
    (body : nat * X -> S -> result S) (l : list X) (k : nat) (s s' : S) :
  P k s ->
  (forall i x s s', l !! i = Some x -> P (k + i) s -> body (k + i, x) s = inr s' ->
                    P (k + Datatypes.S i) s') ->
  foldM body (zip (seq k (length l)) l) s = inr s' ->
  P (k + length l) s'.
Proof.
  revert k s. induction l as [|x l IH]; intros k s H0 Hstep Hrun; simpl in *.
  { simplify_eq. by rewrite Nat.add_0_r. }
  bind_inv Hrun.
  replace (k + Datatypes.S (length l)) with (Datatypes.S k + length l) by lia.
  apply (IH (Datatypes.S k) a); [| |done].
  - specialize (Hstep 0 x s a). rewrite !Nat.add_0_r, Nat.add_1_r in Hstep.
    by apply Hstep.
  - intros i y s1 s2 Hi Hs1 Hb. specialize (Hstep (Datatypes.S i) y s1 s2).
    replace (k + Datatypes.S i) with (Datatypes.S k + i) in Hstep by lia.
    replace (k + Datatypes.S (Datatypes.S i)) with (Datatypes.S k + Datatypes.S i) in Hstep by lia.
    by apply Hstep.
Qed.

(** ** make_graph *)

Lemma combinations2_lt n : Forall (fun e => e.1 < e.2 /\ e.2 < n) (combinations2 n).
Proof.
  unfold combinations2. apply Forall_forall. intros [u v] Hin.
  apply list_elem_of_In, in_flat_map in Hin as (u' & Hu & Hin).
  apply in_seq in Hu.
  apply list_elem_of_In, list_elem_of_fmap in Hin as (v' & [= -> ->] & Hv).
  apply elem_of_seq in Hv. simpl. lia.
Qed.

Lemma foldM_cons {X S} (body : X -> S -> result S) x l s :
  foldM body (x :: l) s = (s' <- body x s ;; foldM body l s').
Proof. done. Qed.

Lemma mapM_cons {X Y} (f : X -> result Y) x l :
  mapM f (x :: l) = (y <- f x ;; rest <- mapM f l ;; ret (y :: rest)).
Proof. done. Qed.

(** The loop over the pairs raises what the first unreadable entry
    raises, whatever the graph; when every entry can be read it adds the
    scored edges. *)
Lemma scored_loop self min_score pairs graph :
  foldM (fun e graph =>
           score <- matrix_get (score_matrix self) e.1 e.2 ;;
           if Qle_bool min_score (round2 score)
           then ret (add_edge e.1 e.2 (round2 score) graph)
           else ret graph) pairs graph =
  match mapM (fun e => matrix_get (score_matrix self) e.1 e.2) pairs with
  | inl e => inl e
  | inr _ => inr (foldl (fun g ed => add_edge ed.1.1 ed.1.2 ed.2 g) graph
                        (scored_edges self min_score pairs))
  end.
Proof.
  revert graph. induction pairs as [|e pairs IH]; intros graph; [done|].
  rewrite foldM_cons, mapM_cons.
  unfold scored_edges. rewrite filter_cons.
  destruct (matrix_get (score_matrix self) e.1 e.2) as [err|score] eqn:E;
    [done|].
  cbn [bind].
  assert (rounded_score self e = round2 score) as Hr
    by (unfold rounded_score; by rewrite E).
  rewrite Hr.
  destruct (Qle_bool min_score (round2 score)) eqn:Hq; cbn [bind].
  - rewrite decide_True by done. rewrite IH.
    destruct (mapM _ pairs); [done|].
    cbn [bind]. rewrite fmap_cons. cbn [foldl fst snd]. by rewrite Hr.
  - rewrite decide_False by done.
    rewrite IH. by destruct (mapM _ pairs).
Qed.

Lemma add_scored_edges_spec self min_score graph :
  add_scored_edges self min_score graph =
  match mapM (fun e => matrix_get (score_matrix self) e.1 e.2)
             (combinations2 (N self)) with
  | inl e => inl e
  | inr _ => inr (foldl (fun g ed => add_edge ed.1.1 ed.1.2 ed.2 g) graph
                        (scored_edges self min_score (combinations2 (N self))))
  end.
Proof. apply scored_loop. Qed.

Lemma foldM_pure {X S} (body : X -> S -> result S) (pure : X -> S -> S) l s :
  (forall x s, body x s = inr (pure x s)) ->
  foldM body l s = inr (foldl (fun s x => pure x s) s l).
Proof.
  intros Hb. revert s. induction l as [|x l IH]; intros s; [done|].
  rewrite foldM_cons, Hb. cbn [bind foldl]. apply IH.
Qed.

(** One round of the outer loop of [make_graph]. *)
Lemma built_step {A} names (f : nat * nat -> A) l m name (g : Graph A) :
  Forall (fun e => e.1 < e.2) l ->
  names !! m = Some name ->
  built names f l m g ->
  built names f l (S m)
    (foldl (fun g ed => add_edge ed.1.1 ed.1.2 ed.2 g)
           (set_label m name (add_node m g)) ((fun e => (e, f e)) <$> l)).
Proof.
  intros Hl Hname (Hk & Hn & He).
  destruct (add_edges_obs f l (set_label m name (add_node m g)))
    as (Hk' & Hn' & He'); [|done|].
  { by apply keys_agree_set_label, keys_agree_add_node. }
  split; [done|]. split.
  - intros k. rewrite Hn', dget_node_set_label, dget_node_add_node, Hn.
    destruct (decide (k = m)) as [->|Hkm].
    + rewrite decide_False by lia. rewrite (decide_True (P := m < S m)) by lia.
      rewrite Hname. by repeat case_decide.
    + destruct (decide (k < m)).
      * by rewrite decide_True by lia.
      * rewrite (decide_False (P := k < S m)) by lia.
        repeat case_decide; try done; exfalso; clear Hn Hn' He He'; naive_solver lia.
  - intros x y. rewrite He', get_edge_data_set_label, get_edge_data_add_node, He.
    repeat case_decide; try done; exfalso; clear Hn Hn' He He'; naive_solver lia.
Qed.

Lemma built_enumerate {A} names (f : nat * nat -> A) l :
  Forall (fun e => e.1 < e.2) l ->
  built names f l (length names)
    (foldl (fun g e =>
              foldl (fun g ed => add_edge ed.1.1 ed.1.2 ed.2 g)
                    (set_label e.1 e.2 (add_node e.1 g))
                    ((fun e => (e, f e)) <$> l))
           empty_graph (enumerate names)).
Proof.
  intros Hl. unfold enumerate.
  apply (foldl_zip_seq_ind (fun m g => built names f l m g) _ names 0).
  - split; [apply keys_agree_empty|]. split; [intros k|intros x y].
    + rewrite decide_False by lia. by rewrite decide_False by lia.
    + by rewrite decide_False by lia.
  - intros i name g Hi Hb. simpl. by apply built_step.
Qed.

(** ** C10 *)



(** The two constructions need not list the nodes in the same order: at
    [snapshot_input] [make_graph] meets node 2 as an endpoint of the edge
    0-2 before the outer loop comes to node 1. *)
Lemma make_graph_node_order :
  exists self g1 g2,
    init (unnamed 5) snapshot_input = inr self /\
    make_graph self None = inr g1 /\
    make_graph_single_pass self None = inr g2 /\
    nodes g1 = [0; 2; 1; 3; 4] /\ nodes g2 = [0; 1; 2; 3; 4].
Proof.
  eexists _, _, _. split; [vm_compute; reflexivity|].
  split; [vm_compute; reflexivity|].
  split; [vm_compute; reflexivity|].
  split; vm_compute; reflexivity.
Qed.

(** ** The enumeration of the simple paths *)

Section paths.
Context {A : Type}.
Implicit Types (g : Graph A) (u v c s t : nat) (p ext visited : list nat).

Lemma neighbors_has_edge g u v : v ∈ neighbors g u <-> has_edge g u v = true.
Proof.
  unfold neighbors, has_edge, get_edge_data. rewrite bool_decide_eq_true.
  destruct (dget u (_adj g)) as [nbrs|].
  - rewrite <-dmem_keys. unfold dmem. by rewrite bool_decide_eq_true.
  - split; [by intros ?%elem_of_nil | by intros [? ?]].
Qed.

Lemma last_cons_cons {X} (x y : X) l : last (x :: y :: l) = last (y :: l).
Proof. done. Qed.

Lemma last_elem_of {X} (l : list X) x : last l = Some x -> x ∈ l.
Proof.
  induction l as [|y [|z l] IH]; [done| |].
  - intros [= ->]. left.
  - rewrite last_cons_cons. intros H. right. auto.
Qed.

(** What [simple_paths_from] lists: the extensions of [visited] by at
    most [fuel] new nodes, walking from [u] to [t]. *)
Lemma simple_paths_from_spec g t fuel visited u p :
  p ∈ simple_paths_from g t fuel visited u <->
  exists ext, p = visited ++ ext /\ ext ≠ [] /\ length ext <= fuel /\
              walk g (u :: ext) /\ NoDup ext /\
              (forall x, x ∈ ext -> x ∉ visited) /\ last ext = Some t.
Proof.
  revert visited u p. induction fuel as [|fuel IH]; intros visited u p; simpl.
  { split; [by intros ?%elem_of_nil|].
    intros ([|??] & _ & ? & Hlen & _); simpl in *; [done | lia]. }
  rewrite list_elem_of_In, in_flat_map. split.
  - intros (c & Hc & Hp). apply list_elem_of_In, neighbors_has_edge in Hc.
    apply list_elem_of_In in Hp.
    case_bool_decide as Hvis; [by apply elem_of_nil in Hp|].
    case_bool_decide as Hct.
    + apply list_elem_of_singleton in Hp as ->. subst c.
      exists [t]. simpl. repeat split; try done; try lia.
      * apply NoDup_singleton.
      * by intros x ->%list_elem_of_singleton.
    + apply IH in Hp as (ext & -> & Hne & Hlen & Hw & Hnd & Hdis & Hlast).
      exists (c :: ext). rewrite <-app_assoc. simpl.
      repeat split; try done; try lia.
      * apply NoDup_cons. split; [|done].
        intros Hin. apply (Hdis c Hin). apply elem_of_app. right. left.
      * intros x [->|Hin]%elem_of_cons; [done|].
        intros Hx. apply (Hdis x Hin). apply elem_of_app. by left.
      * destruct ext; [done|]. by rewrite last_cons_cons.
  - intros ([|c ext] & -> & Hne & Hlen & Hw & Hnd & Hdis & Hlast); [done|].
    simpl in Hw. destruct Hw as [Hedge Hw].
    exists c. split; [by apply list_elem_of_In, neighbors_has_edge|].
    apply list_elem_of_In.
    rewrite bool_decide_eq_false_2 by (apply Hdis; left).
    apply NoDup_cons in Hnd as [Hc Hnd].
    case_bool_decide as Hct.
    + subst c. destruct ext as [|d ext]; [apply list_elem_of_singleton; done|].
      rewrite last_cons_cons in Hlast. apply last_elem_of in Hlast. done.
    + assert (ext ≠ []) as Hne' by (intros ->; simpl in Hlast; congruence).
      apply IH. exists ext. rewrite <-app_assoc. simpl in *.
      repeat split; try done; try lia.
      * intros x Hx [Hin| ->%list_elem_of_singleton]%elem_of_app; [|done].
        apply (Hdis x); [by right | done].
      * destruct ext; [done|]. by rewrite last_cons_cons in Hlast.
Qed.

(** [all_simple_paths] between two distinct nodes of the graph lists the
    simple paths of at most [cutoff] edges, and nothing else. *)
Lemma all_simple_paths_spec g s t cutoff paths :
  all_simple_paths g s t cutoff = inr paths ->
  has_node g s = true /\ has_node g t = true /\
  (s ≠ t -> forall p, p ∈ paths <-> simple_path g s t p /\ length p <= S cutoff) /\
  (s = t -> paths = []).
Proof.
  unfold all_simple_paths. intros H.
  destruct (has_node g s); [|done]. destruct (has_node g t); [|done].
  simpl in H. case_bool_decide as Hst; injection H as <-.
  { split; [done|]. split; [done|]. split; done. }
  split; [done|]. split; [done|]. split; [|done].
  intros _ p. rewrite simple_paths_from_spec.
  unfold simple_path. split.
  - intros (ext & -> & Hne & Hlen & Hw & Hnd & Hdis & Hlast). simpl.
    repeat split; try done; try lia.
    + destruct ext; [done|]. by rewrite last_cons_cons.
    + apply NoDup_cons. split; [|done]. intros Hin.
      apply (Hdis s Hin). left.
  - intros ((Hhd & Hlast & Hnd & Hw) & Hlen).
    destruct p as [|s' ext]; [done|]. simpl in Hhd. simplify_eq.
    apply NoDup_cons in Hnd as [Hs Hnd].
    exists ext. simpl in *. repeat split; try done; try lia.
    + intros ->. simpl in Hlast. congruence.
    + intros x Hx ->%list_elem_of_singleton. done.
    + destruct ext; [simpl in Hlast; congruence|]. by rewrite last_cons_cons in Hlast.
Qed.
End paths.

(** ** Sorting *)

Lemma Qle_bool_false (x y : Q) : Qle_bool y x = false <-> (x < y)%Q.
Proof.
  split.
  - intros H. apply Qnot_le_lt. intros Hle%Qle_bool_iff. congruence.
  - intros H. destruct (Qle_bool y x) eqn:E; [|done].
    apply Qle_bool_iff in E. by apply Qlt_not_le in H.
Qed.

Lemma insert_sorted_Permutation {X} (key : X -> Q) x l :
  Permutation (insert_sorted key x l) (x :: l).
Proof.
  induction l as [|y l IH]; simpl; [done|].
  destruct (Qle_bool _ _); [done|].
  rewrite IH. apply perm_swap.
Qed.

Lemma sort_by_Permutation {X} (key : X -> Q) l : Permutation (sort_by key l) l.
Proof.
  unfold sort_by. induction l as [|x l IH]; simpl; [done|].
  by rewrite insert_sorted_Permutation, IH.
Qed.

(** ** Binary64: what is neither negative nor nan *)














(** ** Sums of reciprocals *)






(** The recursion of [pairwise_sum] is no deeper than the array is
    long. *)
Lemma pairwise_sum_fuel fuel fuel' a :
  length a <= fuel -> length a <= fuel' ->
  pairwise_sum fuel a = pairwise_sum fuel' a.
Proof.
  revert fuel' a. induction fuel as [|fuel IH]; intros fuel' a Hf Hf'.
  - destruct a; [|simpl in Hf; lia]. by destruct fuel'.
  - destruct fuel' as [|fuel'].
    { destruct a; [done | simpl in Hf'; lia]. }
    cbn [pairwise_sum]. destruct (length a <? 8) eqn:H8; [done|].
    destruct (length a <=? 128) eqn:H128; [done|].
    apply Nat.leb_gt in H128.
    assert (0 < length a / 2 - (length a / 2) mod 8 < length a) as Hn2.
    { pose proof (Nat.div_mod_eq (length a) 2).
      pose proof (Nat.mod_upper_bound (length a) 2).
      pose proof (Nat.mod_upper_bound (length a / 2) 8). lia. }
    f_equal; apply IH; rewrite ?length_take, ?length_drop; lia.
Qed.

(** ** The order of binary64 *)

(** Floats of one sign compare by exponent, then by mantissa. *)









(** ** argmin *)

(** [best], at [best_idx], is least among the values before the ones
    still to be read, and less than the ones before it. *)



(** [np.argmin] answers with an index of the list. *)
Lemma argmin_from_lt l best_idx best i :
  best_idx < i -> argmin_from best_idx best i l < i + length l.
Proof.
  revert best_idx best i. induction l as [|c l IH]; intros bi b i Hi; simpl; [lia|].
  destruct (negb _).
  - destruct (F64.is_nan c); [lia|]. specialize (IH i c (S i)). lia.
  - specialize (IH bi b (S i)). lia.
Qed.

Lemma argmin_lt l : l ≠ [] -> argmin l < length l.
Proof.
  destruct l as [|c l]; [done|]. intros _. simpl.
  destruct (F64.is_nan c); [lia|].
  pose proof (argmin_from_lt l 0 c 1). lia.
Qed.

(** ** find_optimal_path *)

Lemma links_cons_cons u v rest : links (u :: v :: rest) = (u, v) :: links (v :: rest).
Proof. done. Qed.

(** The scores of a walk are all there. *)
Lemma path_scores_walk (g : Graph Q) path :
  walk g path -> path_scores g path = inr (link_scores g path).
Proof.
  unfold path_scores, link_scores.
  induction path as [|u [|v rest] IH]; [done..|].
  intros [Hedge Hw]. rewrite links_cons_cons. cbn [foldr omap list_omap fst snd].
  apply has_edge_spec in Hedge as [score Hscore]. rewrite Hscore.
  rewrite (IH Hw). done.
Qed.

Lemma mapM_fmap {X Y} (f : X -> result Y) (h : X -> Y) l :
  (forall x, x ∈ l -> f x = inr (h x)) -> mapM f l = inr (h <$> l).
Proof.
  induction l as [|x l IH]; intros Hf; [done|].
  rewrite mapM_cons, Hf by left. cbn [bind].
  rewrite IH by (intros; apply Hf; by right). done.
Qed.

(** [make_graph] returns when every entry above the diagonal can be
    read, and then returns the graph [built] describes. *)
Lemma make_graph_built self min_score scores :
  mapM (fun e => matrix_get (score_matrix self) e.1 e.2)
       (combinations2 (N self)) = inr scores ->
  exists g,
    make_graph self min_score = inr g /\
    built (intermediate_names self) (rounded_score self)
      (filter (fun e => Qle_bool (default (minScoreThreshold (params self)) min_score)
                                 (rounded_score self e) = true)
              (combinations2 (N self)))
      (length (intermediate_names self)) g.
Proof.
  intros Hm. unfold make_graph. eexists. split.
  - apply foldM_pure. intros e g. rewrite add_scored_edges_spec, Hm. reflexivity.
  - apply built_enumerate. apply Forall_forall.
    intros e [_ He]%list_elem_of_filter.
    by apply (proj1 (Forall_forall _ _) (combinations2_lt (N self))) in He as [? _].
Qed.

Lemma make_graph_reads self min_score g :
  make_graph self min_score = inr g -> intermediate_names self ≠ [] ->
  exists scores,
    mapM (fun e => matrix_get (score_matrix self) e.1 e.2)
         (combinations2 (N self)) = inr scores.
Proof.
  unfold make_graph, enumerate. intros H Hne.
  destruct (intermediate_names self) as [|name names]; [done|].
  simpl in H. bind_inv H. rewrite add_scored_edges_spec in Ha.
  destruct (mapM _ _); [done | eauto].
Qed.

Lemma built_has_node {A} names (f : nat * nat -> A) l (g : Graph A) k :
  built names f l (length names) g -> k < length names -> has_node g k = true.
Proof.
  intros (_ & Hn & _) Hk. apply has_node_spec. rewrite Hn.
  by rewrite decide_True by done.
Qed.

(** What [find_optimal_path] does once its graphs are built and the
    paths are listed. *)
Lemma find_optimal_path_run self gr b g paths :
  make_graph self (Some (roughScoreThreshold (params self))) = inr gr ->
  has_path gr (source_node_index (params self))
           (target_node_index (params self)) = inr b ->
  make_graph self None = inr g ->
  all_simple_paths g (source_node_index (params self))
    (target_node_index (params self)) (maxOptimalPathLength (params self))
    = inr paths ->
  (forall q, q ∈ paths -> walk g q) ->
  find_optimal_path self =
    if length paths =? 0 then inl NoPathFound
    else match paths !! argmin (path_cost g <$> paths) with
         | Some path => inr (path, set_found path (links_ascending path) self)
         | None => inl IndexError
         end.
Proof.
  intros Hgr Hb Hg Hp Hw. unfold find_optimal_path.
  rewrite Hgr. cbn [bind]. rewrite Hb. cbn [bind]. rewrite Hg. cbn [bind].
  rewrite Hp. cbn [bind]. destruct (length paths =? 0); [done|].
  rewrite (mapM_fmap _ (fun q => sort_by id (link_scores g q))).
  - cbn [bind]. by rewrite <-list_fmap_compose.
  - intros q Hq. by rewrite path_scores_walk by auto.
Qed.

Lemma simple_path_walk {A} (g : Graph A) s t q : simple_path g s t q -> walk g q.
Proof. by intros (_ & _ & _ & ?). Qed.

(** ** C7 *)





(** ** C8 *)

(** C8.  Let the object have as many names as molecules, let the source
    and the target be two different indices of molecules, and let
    [make_graph] build the graph at the minimum threshold.  Then
    [find_optimal_path] raises [NoPathFound] exactly when that graph has
    no simple path from the source to the target of at most
    [maxOptimalPathLength] edges; when it has one, the call returns a
    path and records it as the found path. *)
Theorem find_optimal_path_no_path self g :
  length (intermediate_names self) = N self ->
  source_node_index (params self) < N self ->
  target_node_index (params self) < N self ->
  source_node_index (params self) ≠ target_node_index (params self) ->
  make_graph self None = inr g ->
  (find_optimal_path self = inl NoPathFound <->
   ~ exists q, simple_path g (source_node_index (params self))
                           (target_node_index (params self)) q /\
               length q <= S (maxOptimalPathLength (params self))) /\
  ((exists q, simple_path g (source_node_index (params self))
                          (target_node_index (params self)) q /\
              length q <= S (maxOptimalPathLength (params self))) ->
   exists path self', find_optimal_path self = inr (path, self') /\
                      found_path self' = path).
Proof.
  intros HN Hs Ht Hst Hg.
  assert (intermediate_names self ≠ []) as Hnames.
  { intros E. rewrite E in HN. simpl in HN. lia. }
  destruct (make_graph_reads _ _ _ Hg Hnames) as [scores Hm].
  destruct (make_graph_built self (Some (roughScoreThreshold (params self)))
              scores Hm) as (gr & Hgr & Hbr).
  destruct (make_graph_built self None scores Hm) as (g' & Hg' & Hb).
  rewrite Hg in Hg'. injection Hg' as <-.
  assert (has_path gr (source_node_index (params self))
            (target_node_index (params self))
          = inr (bool_decide (target_node_index (params self)
                              ∈ component gr (source_node_index (params self)))))
    as Hhp.
  { unfold has_path.
    rewrite (built_has_node _ _ _ _ _ Hbr) by lia.
    by rewrite (built_has_node _ _ _ _ _ Hbr) by lia. }
  assert (all_simple_paths g (source_node_index (params self))
            (target_node_index (params self))
            (maxOptimalPathLength (params self))
          = inr (simple_paths_from g (target_node_index (params self))
                   (maxOptimalPathLength (params self))
                   [source_node_index (params self)]
                   (source_node_index (params self)))) as Hp.
  { unfold all_simple_paths.
    rewrite (built_has_node _ _ _ _ _ Hb) by lia.
    rewrite (built_has_node _ _ _ _ _ Hb) by lia.
    by rewrite bool_decide_eq_false_2. }
  destruct (all_simple_paths_spec _ _ _ _ _ Hp) as (_ & _ & Hspec & _).
  specialize (Hspec Hst).
  remember (simple_paths_from g (target_node_index (params self))
              (maxOptimalPathLength (params self))
              [source_node_index (params self)]
              (source_node_index (params self))) as paths eqn:Hpaths.
  clear Hpaths.
  rewrite (find_optimal_path_run self gr _ g paths Hgr Hhp Hg Hp).
  2:{ intros q Hq. apply Hspec in Hq as [Hq _]. by eapply simple_path_walk. }
  destruct paths as [|q0 paths'].
  - (* no path *)
    simpl. split; [|intros (q & Hq); apply Hspec in Hq; by apply elem_of_nil in Hq].
    split; [|done]. intros _ (q & Hq). apply Hspec in Hq. by apply elem_of_nil in Hq.
  - cbn [length Nat.eqb].
    assert (argmin (path_cost g <$> q0 :: paths') < length (q0 :: paths'))
      as Hmin.
    { rewrite <-(length_fmap (path_cost g)). apply argmin_lt.
      by rewrite fmap_cons. }
    destruct (lookup_lt_is_Some_2 _ _ Hmin) as [path Hpath]. rewrite Hpath.
    split.
    + split; [done|]. intros Hno. exfalso. apply Hno. exists q0.
      apply Hspec. left.
    + intros _. eauto.
Qed.

Lemma find_optimal_path_no_path_witness :
  exists self g,
    init (unnamed 4) sweep_input = inr self /\
    make_graph self None = inr g /\
    (find_optimal_path self = inl NoPathFound <->
     ~ exists q, simple_path g (source_node_index (params self))
                             (target_node_index (params self)) q /\
                 length q <= S (maxOptimalPathLength (params self))) /\
    ((exists q, simple_path g (source_node_index (params self))
                            (target_node_index (params self)) q /\
                length q <= S (maxOptimalPathLength (params self))) ->
     exists path self', find_optimal_path self = inr (path, self') /\
                        found_path self' = path).
Proof.
  eexists _, _. split; [vm_compute; reflexivity|].
  split; [vm_compute; reflexivity|].
  apply find_optimal_path_no_path.
  - vm_compute. reflexivity.
  - vm_compute. lia.
  - vm_compute. lia.
  - vm_compute. lia.
  - vm_compute. reflexivity.
Defined.

(** At [no_path_input] the graph has no edge and the call raises
    [NoPathFound]. *)
Lemma no_path_found :
  run (unnamed 3) no_path_input = inl NoPathFound.
Proof. vm_compute. reflexivity. Qed.

(** * Further properties *)

(** ** The score matrix *)

(** X1.  When the object holds a score matrix (a custom matrix was
    supplied), [get_score_matrix] returns it and leaves the object alone,
    and [build_map] does not consult the similarity computation: its
    outcome is the same whatever that computation is. *)
Theorem build_map_custom_matrix mcs mcs' self m :
  score_matrix self = Some m ->
  get_score_matrix mcs self = (m, self) /\
  build_map mcs self = build_map mcs' self.
Proof.
  intros Hm. unfold build_map, get_score_matrix. rewrite Hm. done.
Qed.

Lemma build_map_custom_matrix_witness :
  exists self m,
    init (unnamed 4) sweep_input = inr self /\
    score_matrix self = Some m /\
    get_score_matrix no_mcs self = (m, self) /\
    build_map no_mcs self = build_map (fun _ _ => [[1%Q]]) self.
Proof.
  eexists _, _. split; [vm_compute; reflexivity|].
  split; [vm_compute; reflexivity|].
  eapply build_map_custom_matrix. vm_compute. reflexivity.
Defined.

(** ** The cycled nodes *)

(** X9.  When the found path has two nodes at most, no node is cycled,
    whatever the graph: the slice [found_path[1:-1]] is empty. *)
Theorem get_cycled_nodes_direct_path {A} self (g : Graph A) :
  length (found_path self) <= 2 -> get_cycled_nodes self g = ∅.
Proof.
  intros Hlen. unfold get_cycled_nodes.
  assert (tail (removelast (found_path self)) = []) as ->.
  { destruct (found_path self) as [|a [|b [|c l]]]; simpl in *; try done. lia. }
  assert (forall l (S : gset nat),
            foldl (fun unique_nodes path =>
                     if existsb (fun node => bool_decide (node ∈ @nil nat)) path
                     then unique_nodes ∪ list_to_set path else unique_nodes) S l = S)
    as Hfold.
  { induction l as [|p l IH]; intros S; [done|]. cbn [foldl].
    assert (existsb (fun node => bool_decide (node ∈ @nil nat)) p = false) as ->.
    { clear. induction p as [|x p IH]; [done|]. cbn [existsb].
      rewrite IH. rewrite bool_decide_eq_false_2; [done|]. apply not_elem_of_nil. }
    apply IH. }
  rewrite Hfold. apply intersection_empty_r_L.
Qed.

Lemma get_cycled_nodes_direct_path_witness :
  exists self g,
    init (unnamed 4) chunk_input = inr self /\
    make_graph self None = inr g /\
    length (found_path self) <= 2 /\
    get_cycled_nodes self g = ∅.
Proof.
  eexists _, _. split; [vm_compute; reflexivity|].
  split; [vm_compute; reflexivity|].
  split; [vm_compute; lia|].
  apply get_cycled_nodes_direct_path. vm_compute. lia.
Defined.

(** ** The guard of check_chunk (lines 234-242) *)

Lemma removable_false d :
  removable d = false <-> (1 <= Edge.score d)%Q \/ Edge.found_path d = true.
Proof.
  unfold removable. rewrite andb_false_iff, !negb_false_iff, Qle_bool_iff. done.
Qed.

(** X15.  A chunk with a bundle of score 1 or more, or with a flagged
    bundle, is never removed: [check_chunk] raises nothing, leaves the
    object as it is, and answers [True] exactly when every bundle of the
    chunk is such. *)
Theorem check_chunk_guard self edge_chunk data_chunk :
  Exists (fun d => (1 <= Edge.score d)%Q \/ Edge.found_path d = true) data_chunk ->
  check_chunk self edge_chunk data_chunk =
    inr (forallb (fun d => Qle_bool 1 (Edge.score d) || Edge.found_path d) data_chunk,
         self).
Proof.
  intros Hex. unfold check_chunk.
  assert (forallb id (removable <$> data_chunk) = false) as ->.
  { induction Hex as [d l Hd|d l _ IH]; rewrite fmap_cons; cbn [forallb].
    - apply removable_false in Hd. unfold id at 1. by rewrite Hd.
    - rewrite IH. apply andb_false_r. }
  cbn [negb].
  assert (existsb id (removable <$> data_chunk) =
          negb (forallb (fun d => Qle_bool 1 (Edge.score d) || Edge.found_path d)
                        data_chunk)) as ->.
  { clear. induction data_chunk as [|d l IH]; [done|].
    rewrite fmap_cons. cbn [existsb forallb].
    rewrite IH, negb_andb. f_equal. unfold removable, id.
    by rewrite negb_orb. }
  by destruct (forallb _ _).
Qed.

Lemma check_chunk_guard_witness :
  exists entries chunk_size self,
    run_prepare (unnamed 4) sweep_input = inr (entries, chunk_size, self) /\
    forallb (fun d => Qle_bool 1 (Edge.score d) || Edge.found_path d) entries.*2
      = false /\
    check_chunk self entries.*1 entries.*2 =
      inr (forallb (fun d => Qle_bool 1 (Edge.score d) || Edge.found_path d)
                   entries.*2, self).
Proof.
  eexists _, _, _. split; [vm_compute; reflexivity|].
  split; [vm_compute; reflexivity|].
  apply check_chunk_guard.
  vm_compute. apply Exists_cons_tl, Exists_cons_hd. right. reflexivity.
Defined.

(** ** The loops of the pruner and the rest of the object *)

Lemma split_loop_frame recurse subgraph chunk_size n rest self self' :
  (forall s ec dc b s', recurse s ec dc = inr (b, s') -> frame s s') ->
  split_loop recurse subgraph chunk_size n rest self = inr self' ->
  frame self self'.
Proof.
  intros Hrec. revert rest self.
  induction n as [|n IH]; intros rest self H; simpl in H.
  { simplify_eq. apply frame_refl. }
  destruct rest as [|ed rest]; [simplify_eq; apply frame_refl|].
  bind_inv H. destruct a as [b s1]. simpl in H.
  apply Hrec in Ha. apply (frame_trans _ _ _ Ha).
  destruct b; simpl in H; [by apply IH in H|].
  bind_inv H. destruct a as [b s2]. simpl in H.
  apply check_chunk_frame in Ha0. apply (frame_trans _ _ _ Ha0).
  destruct b; [simplify_eq; apply frame_refl|]. by apply IH in H.
Qed.

Lemma chunk_process_frame fuel self edge_chunk data_chunk chunk_size b self' :
  chunk_process fuel self edge_chunk data_chunk chunk_size = inr (b, self') ->
  frame self self'.
Proof.
  revert self edge_chunk data_chunk chunk_size b self'.
  induction fuel as [|fuel IH]; intros self ec dc cs b self' H; simpl in H; [done|].
  bind_inv H. destruct a as [b1 s1]. simpl in H.
  apply check_chunk_frame in Ha.
  destruct b1; simpl in H; [by simplify_eq|].
  destruct (cs =? 1); [by simplify_eq|].
  destruct (chunkScale (params self) =? 0); [done|].
  bind_inv H. simplify_eq.
  apply (frame_trans _ _ _ Ha).
  refine (split_loop_frame _ _ _ _ _ _ _ _ Ha0).
  intros s ec' dc' b' s' Hrun. by eapply IH.
Qed.

Lemma main_loop_frame fuel chunk_size n rest self self' :
  main_loop fuel chunk_size n rest self = inr self' -> frame self self'.
Proof.
  revert rest self.
  induction n as [|n IH]; intros rest self H; simpl in H.
  { simplify_eq. apply frame_refl. }
  destruct rest as [|ed rest]; [simplify_eq; apply frame_refl|].
  bind_inv H. destruct a as [b s1]. simpl in H.
  apply chunk_process_frame in Ha.
  apply (frame_trans _ _ _ Ha). by apply IH in H.
Qed.

(** X17.  [chunk_process] answers [False] only with a chunk size of 1 and
    a chunk that [check_chunk] has rejected, the object being as
    [check_chunk] left it; when [check_chunk] accepts, the answer is
    [True]; and with a chunk size of 1 [chunk_process] is [check_chunk].
    So the answer after a split is [True], whatever the split found. *)
Theorem chunk_process_answer fuel self edge_chunk data_chunk chunk_size b self' :
  chunk_process fuel self edge_chunk data_chunk chunk_size = inr (b, self') ->
  (b = false ->
     chunk_size = 1 /\ check_chunk self edge_chunk data_chunk = inr (false, self')) /\
  (check_chunk self edge_chunk data_chunk = inr (true, self') -> b = true) /\
  (chunk_size = 1 -> check_chunk self edge_chunk data_chunk = inr (b, self')).
Proof.
  destruct fuel as [|fuel]; simpl; [done|]. intros H.
  bind_inv H. destruct a as [b1 s1]. simpl in H.
  destruct b1; simpl in H.
  { simplify_eq. split; [done|]. split; done. }
  destruct (Nat.eqb_spec chunk_size 1) as [->|Hne].
  { simplify_eq. split; [done|]. split; [intros; congruence|done]. }
  destruct (chunkScale (params self) =? 0); [done|].
  bind_inv H. simplify_eq. split; [done|]. split; done.
Qed.

Lemma chunk_process_answer_witness :
  exists entries chunk_size self b self',
    run_prepare (unnamed 4) sweep_input = inr (entries, chunk_size, self) /\
    chunk_process 2 self (take 1 entries).*1 (take 1 entries).*2 1 = inr (b, self') /\
    (b = false ->
       1 = 1 /\
       check_chunk self (take 1 entries).*1 (take 1 entries).*2 = inr (false, self')) /\
    (check_chunk self (take 1 entries).*1 (take 1 entries).*2 = inr (true, self') ->
       b = true) /\
    (1 = 1 -> check_chunk self (take 1 entries).*1 (take 1 entries).*2 = inr (b, self')).
Proof.
  eexists _, _, _, _, _. split; [vm_compute; reflexivity|].
  split; [vm_compute; reflexivity|].
  eapply (chunk_process_answer 2). vm_compute. reflexivity.
Defined.

(** ** The inner loop *)

Lemma take_live_length g chunk_size ein din rest :
  length (take_live g chunk_size ein din rest).2 <= length rest.
Proof.
  revert ein din. induction rest as [|[e d] rest IH]; intros ein din; simpl; [done|].
  destruct (_ <? _); [|simpl; lia].
  destruct (has_edge _ _ _); etrans; try apply IH; lia.
Qed.

Lemma take_live_acc g chunk_size ein din rest :
  exists seen,
    rest = seen ++ (take_live g chunk_size ein din rest).2 /\
    (take_live g chunk_size ein din rest).1.1 =
      ein ++ (filter (fun ed => has_edge g ed.1.1 ed.1.2 = true) seen).*1 /\
    (take_live g chunk_size ein din rest).1.2 =
      din ++ (filter (fun ed => has_edge g ed.1.1 ed.1.2 = true) seen).*2 /\
    (length ein <= chunk_size ->
       length (take_live g chunk_size ein din rest).1.1 <= chunk_size /\
       ((take_live g chunk_size ein din rest).2 = [] \/
        length (take_live g chunk_size ein din rest).1.1 = chunk_size)) /\
    (length ein < chunk_size -> rest <> [] ->
       length (take_live g chunk_size ein din rest).2 < length rest).
Proof.
  revert ein din. induction rest as [|[e d] rest IH]; intros ein din.
  { exists []. simpl. rewrite !app_nil_r. repeat split; try done. by left. }
  cbn [take_live].
  destruct (Nat.ltb_spec (length ein) chunk_size) as [Hlt|Hge].
  2:{ exists []. simpl. rewrite !app_nil_r. repeat split; try done; lia. }
  destruct (has_edge g e.1 e.2) eqn:He.
  - destruct (IH (ein ++ [e]) (din ++ [d])) as (seen & Hr & H1 & H2 & H3 & _).
    exists ((e, d) :: seen). rewrite filter_cons_True by done.
    rewrite !fmap_cons. simpl. rewrite <-Hr.
    split; [done|]. split; [by rewrite H1, <-app_assoc|].
    split; [by rewrite H2, <-app_assoc|]. split.
    + intros _. apply H3. rewrite length_app. simpl. lia.
    + intros _ _. pose proof (take_live_length g chunk_size (ein ++ [e]) (din ++ [d]) rest).
      lia.
  - destruct (IH ein din) as (seen & Hr & H1 & H2 & H3 & _).
    exists ((e, d) :: seen). rewrite filter_cons_False by (simpl; congruence).
    simpl. rewrite <-Hr. split; [done|]. split; [done|]. split; [done|]. split.
    + intros _. apply H3. lia.
    + intros _ _. pose proof (take_live_length g chunk_size ein din rest). lia.
Qed.

(** X16.  The inner loop of lines 215-220 and 320-326 looks at a prefix
    [seen] of the entries.  The chunk is made of the entries of [seen]
    whose edge is in the subgraph, in order; it has [chunk_size] edges at
    most, and is full unless the entries ran out; with a positive chunk
    size and an entry left, one entry at least is consumed. *)
Theorem take_live_spec g chunk_size rest :
  exists seen,
    rest = seen ++ (take_live g chunk_size [] [] rest).2 /\
    (take_live g chunk_size [] [] rest).1.1 =
      (filter (fun ed => has_edge g ed.1.1 ed.1.2 = true) seen).*1 /\
    (take_live g chunk_size [] [] rest).1.2 =
      (filter (fun ed => has_edge g ed.1.1 ed.1.2 = true) seen).*2 /\
    length (take_live g chunk_size [] [] rest).1.1 <= chunk_size /\
    ((take_live g chunk_size [] [] rest).2 = [] \/
     length (take_live g chunk_size [] [] rest).1.1 = chunk_size) /\
    (0 < chunk_size -> rest <> [] ->
       length (take_live g chunk_size [] [] rest).2 < length rest).
Proof.
  destruct (take_live_acc g chunk_size [] [] rest) as (seen & Hr & H1 & H2 & H3 & H4).
  exists seen. simpl in *. destruct H3 as [H3 H5]; [lia|]. done.
Qed.

(** ** What the pruner raises *)

Lemma raises_only_inl {A} (P : exn -> Prop) (r : result A) :
  raises_only P r <-> forall e, r = inl e -> P e.
Proof.
  destruct r as [e|a]; simpl; split; try done.
  - by intros H e' [= <-].
  - auto.
Qed.

Lemma foldM_exn {A S} (P : exn -> Prop) (body : A -> S -> result S) l s e :
  (forall a s e, body a s = inl e -> P e) -> foldM body l s = inl e -> P e.
Proof.
  intros Hb. revert s. induction l as [|a l IH]; intros s H; simpl in H; [done|].
  apply bind_inl in H as [H|(s' & _ & H)]; eauto.
Qed.

Lemma mapM_exn {X Y} (P : exn -> Prop) (f : X -> result Y) l e :
  (forall x e, f x = inl e -> P e) -> mapM f l = inl e -> P e.
Proof.
  intros Hf. induction l as [|x l IH]; intros H; simpl in H; [done|].
  apply bind_inl in H as [H|(y & _ & H)]; [eauto|].
  apply bind_inl in H as [H|(ys & _ & H)]; [eauto | done].
Qed.

Lemma matrix_get_exn m u v e : matrix_get m u v = inl e -> matrix_exn e.
Proof.
  unfold matrix_get, matrix_exn. intros H.
  destruct m as [rows|]; [|simplify_eq; tauto].
  destruct (rows !! u) as [row|]; [|simplify_eq; tauto].
  destruct (row !! v); simplify_eq; tauto.
Qed.

Lemma make_graph_exn self min_score e :
  make_graph self min_score = inl e -> matrix_exn e.
Proof.
  unfold make_graph. apply foldM_exn. intros a s e'.
  unfold add_scored_edges. apply foldM_exn. intros p g e'' H.
  apply bind_inl in H as [H|(score & _ & H)]; [by eapply matrix_get_exn|].
  by destruct (Qle_bool _ _).
Qed.

Lemma all_simple_paths_exn {A} (g : Graph A) s t k e :
  all_simple_paths g s t k = inl e -> e = NodeNotFound.
Proof.
  unfold all_simple_paths. intros H.
  destruct (negb _); [by simplify_eq|]. destruct (negb _); [by simplify_eq|].
  by destruct (bool_decide _).
Qed.

Lemma get_reachable_subgraph_exn {A} self (g : Graph A) e :
  get_reachable_subgraph self g = inl e -> reduction_exn e.
Proof.
  unfold get_reachable_subgraph, reduction_exn. intros H.
  apply bind_inl in H as [H|(paths & _ & H)].
  - apply all_simple_paths_exn in H. tauto.
  - destruct (is_invalid _ _); simplify_eq. eauto.
Qed.

Lemma get_cycle_subgraph_exn {A} self (g : Graph A) e :
  get_cycle_subgraph self g = inl e -> reduction_exn e.
Proof.
  unfold get_cycle_subgraph, reduction_exn. intros H.
  destruct (is_invalid _ _); simplify_eq. eauto.
Qed.

Lemma get_main_subgraph_exn {A} self (g : Graph A) e :
  get_main_subgraph self g = inl e -> reduction_exn e.
Proof.
  unfold get_main_subgraph, reduction_exn. intros H.
  destruct (is_invalid _ _); simplify_eq. eauto.
Qed.

Lemma check_chunk_exn self edge_chunk data_chunk e :
  check_chunk self edge_chunk data_chunk = inl e -> reduction_exn e.
Proof.
  unfold check_chunk. intros H.
  destruct (negb (forallb _ _)).
  { by destruct (negb (existsb _ _)). }
  apply bind_inl in H as [H|(ex1 & _ & H)]; [by eapply get_reachable_subgraph_exn|].
  apply bind_inl in H as [H|(ex2 & _ & H)]; [by eapply get_cycle_subgraph_exn|].
  apply bind_inl in H as [H|(ex3 & _ & H)]; [by eapply get_main_subgraph_exn|].
  destruct (is_invalid _ _); [done|]. by destruct (negb _).
Qed.

Lemma split_loop_exn recurse subgraph chunk_size n rest self p e :
  (forall s ec dc b s', recurse s ec dc = inr (b, s') -> frame s s') ->
  (forall s ec dc e, params s = p -> recurse s ec dc = inl e -> reduction_exn e) ->
  params self = p ->
  split_loop recurse subgraph chunk_size n rest self = inl e -> reduction_exn e.
Proof.
  intros Hframe Hrec. revert rest self.
  induction n as [|n IH]; intros rest self Hp H; simpl in H; [done|].
  destruct rest as [|ed rest]; [done|].
  apply bind_inl in H as [H|([b s1] & Hrun & H)]; [by eapply Hrec|].
  apply Hframe, frame_params in Hrun. simpl in H.
  destruct b; simpl in H; [apply IH in H; [done|congruence]|].
  apply bind_inl in H as [H|([b s2] & Hchk & H)]; [by eapply check_chunk_exn|].
  apply check_chunk_frame, frame_params in Hchk. simpl in H.
  destruct b; [done|]. apply IH in H; [done|congruence].
Qed.

(** [chunk_process] raises what a reduction raises. *)
Lemma chunk_process_exn fuel self edge_chunk data_chunk chunk_size :
  chunk_size = 1 \/ 2 <= chunkScale (params self) ->
  1 <= chunk_size -> chunk_size <= fuel ->
  raises_only reduction_exn
    (chunk_process fuel self edge_chunk data_chunk chunk_size).
Proof.
  revert self edge_chunk data_chunk chunk_size.
  induction fuel as [|fuel IH]; intros self ec dc cs Hc H1 Hf; [lia|].
  apply raises_only_inl. intros e H. simpl in H.
  apply bind_inl in H as [H|([b s1] & Hchk & H)]; [by eapply check_chunk_exn|].
  simpl in H. destruct b; [done|].
  destruct (Nat.eqb_spec cs 1) as [->|Hne]; [done|].
  destruct Hc as [?|Hc]; [done|].
  destruct (Nat.eqb_spec (chunkScale (params self)) 0) as [?|_]; [lia|].
  apply bind_inl in H as [H|(s2 & _ & H)]; [|done].
  apply check_chunk_frame, frame_params in Hchk.
  refine (split_loop_exn _ _ _ _ _ _ (params self) _ _ _ Hchk H).
  - intros s ec' dc' b s'. apply chunk_process_frame.
  - intros s ec' dc' e' Hp. apply raises_only_inl, IH.
    + right. by rewrite Hp.
    + lia.
    + assert (cs / chunkScale (params self) < cs) by (apply Nat.div_lt; lia).
      lia.
Qed.

Lemma main_loop_exn fuel chunk_size n rest self e :
  chunk_size = 1 \/ 2 <= chunkScale (params self) ->
  1 <= chunk_size -> chunk_size <= fuel ->
  main_loop fuel chunk_size n rest self = inl e -> reduction_exn e.
Proof.
  intros Hc H1 Hf. revert rest self Hc.
  induction n as [|n IH]; intros rest self Hc H; simpl in H; [done|].
  destruct rest as [|ed rest]; [done|].
  apply bind_inl in H as [H|([b s1] & Hrun & H)].
  - revert H. apply raises_only_inl. by apply chunk_process_exn.
  - apply chunk_process_frame, frame_params in Hrun. simpl in H.
    apply IH in H; [done|]. by rewrite Hrun.
Qed.

Lemma initial_chunk_size_pos chunkScale len chunk_size :
  initial_chunk_size chunkScale len = inr chunk_size ->
  1 <= chunk_size /\ (chunk_size = 1 \/ 2 <= chunkScale).
Proof.
  unfold initial_chunk_size. intros H.
  destruct len as [|[|len]], chunkScale as [|[|c]]; simplify_eq;
    (split; [|lia]); try lia;
    apply Nat.neq_0_lt_0, Nat.pow_nonzero; lia.
Qed.

(** ** What the stages of build_map raise *)

Lemma find_optimal_path_exn self e :
  find_optimal_path self = inl e ->
  matrix_exn e \/ e = NodeNotFound \/ e = NoPathFound.
Proof.
  unfold find_optimal_path. intros H.
  apply bind_inl in H as [H|(gr & _ & H)]; [left; by eapply make_graph_exn|].
  apply bind_inl in H as [H|(b & _ & H)].
  { unfold has_path in H. destruct (_ || _); simplify_eq. tauto. }
  apply bind_inl in H as [H|(g & _ & H)]; [left; by eapply make_graph_exn|].
  apply bind_inl in H as [H|(paths & _ & H)].
  { apply all_simple_paths_exn in H. tauto. }
  destruct (length paths =? 0); [simplify_eq; tauto|].
  apply bind_inl in H as [H|(scores & _ & H)].
  - left. revert H. apply (mapM_exn matrix_exn). intros q e' H.
    apply bind_inl in H as [H|(sc & _ & H)]; [|done].
    unfold path_scores in H. revert H. generalize (links q). intros l.
    induction l as [|p l IH]; simpl; [done|].
    destruct (get_edge_data g p.1 p.2); [|intros [= <-]; by left].
    intros H. apply bind_inl in H as [H|(? & _ & H)]; [auto | done].
  - destruct (paths !! _); simplify_eq. left. by right.
Qed.

Lemma make_optimal_path_graph_exn self e :
  make_optimal_path_graph self = inl e -> matrix_exn e.
Proof.
  unfold make_optimal_path_graph. apply foldM_exn. intros p g e' H.
  apply bind_inl in H as [H|(score & _ & H)]; [by eapply matrix_get_exn | done].
Qed.

Lemma prepare_chunk_size self entries chunk_size self' :
  prepare self = inr (entries, chunk_size, self') ->
  initial_chunk_size (chunkScale (params self)) (length entries) = inr chunk_size /\
  params self' = params self.
Proof.
  unfold prepare. intros H.
  apply bind_inr in H as (g0 & Hg0 & H).
  apply bind_inr in H as (data & Hdata & H).
  apply bind_inr in H as (cs & Hcs & H).
  apply bind_inr in H as (ex1 & Hex1 & H).
  apply bind_inr in H as (ex2 & Hex2 & H).
  apply bind_inr in H as (ex3 & Hex3 & H).
  destruct (is_invalid _ _); [done|]. simplify_eq. split; [|done].
  apply mapM_lookup_chunk, Forall2_length in Hdata.
  rewrite length_zip, <-Hdata, Nat.min_id. rewrite length_fmap in *. done.
Qed.

(** X24.  With a chunk scale of 1, outside optimal-path mode, [build_map]
    returns no graph: line 299 divides by [log(1)]. *)
Theorem build_map_chunk_scale_one mcs self :
  chunkScale (params self) = 1 ->
  optimal_path_mode (params self) = false ->
  exists e, build_map mcs self = inl e.
Proof.
  intros Hc Hm. destruct (build_map mcs self) as [e|r] eqn:H; [eauto|]. exfalso.
  unfold build_map in H.
  assert (params (get_score_matrix mcs self).2 = params self) as Hp0.
  { unfold get_score_matrix. by destruct (score_matrix self). }
  apply bind_inr in H as ([path self1] & Hfind & H).
  apply bind_inr in H as (og & _ & H). cbn [fst snd] in H.
  apply find_optimal_path_found in Hfind.
  assert (params self1 = params self) as Hp1 by (by rewrite Hfind).
  rewrite Hp1, Hm in H.
  apply bind_inr in H as ([[entries cs] self2] & Hprep & _).
  apply prepare_chunk_size in Hprep as [Hcs _].
  rewrite Hp1, Hc in Hcs. unfold initial_chunk_size in Hcs.
  by destruct (length entries) as [|[|?]].
Qed.

(** ** Graphs inside a graph *)

Section part_lemmas.
Context {A : Type}.
Implicit Types (g : Graph A) (u v x y n k : nat) (a : A).

Lemma part_of_refl g : part_of g g.
Proof. split; auto. Qed.

Lemma dget_adj_subgraph g (S : gset nat) n :
  is_Some (dget n (_adj (subgraph g S))) <->
  n ∈ S /\ is_Some (dget n (_adj g)).
Proof.
  unfold subgraph. simpl. rewrite dget_dmap, dget_dfilter, fmap_is_Some.
  case_bool_decide; split; try tauto. by intros [? ?].
Qed.

Lemma pruned_from_subgraph (g0 : Graph A) g (S : gset nat) :
  pruned_from g0 g -> pruned_from g0 (subgraph g S).
Proof.
  intros (Hk & Hs & Hn & He). split; [|split; [|split]].
  - intros k. rewrite dget_adj_subgraph, dget_node_subgraph.
    specialize (Hk k).
    case_bool_decide; [tauto | split; [tauto | by intros [? ?]]].
  - intros u v. rewrite !get_edge_data_subgraph, andb_comm.
    destruct (_ && _); [apply Hs | done].
  - intros n. rewrite dget_node_subgraph. case_bool_decide; [auto | by intros [? ?]].
  - intros u v a. rewrite get_edge_data_subgraph.
    destruct (_ && _); [auto | done].
Qed.

Lemma get_edge_data_remove_edge_rev g u v :
  symmetric g -> get_edge_data (remove_edge u v g) v u = None.
Proof.
  intros Hs. unfold remove_edge. destruct (has_edge g u v) eqn:E.
  - unfold get_edge_data. simpl. rewrite !dget_dalter.
    destruct (dget v (_adj g)) as [nbrs|]; repeat case_decide; simpl;
      rewrite ?dget_ddel; repeat case_decide; done.
  - rewrite Hs. by apply has_edge_false.
Qed.

Lemma get_edge_data_remove_edge g u v x y :
  symmetric g ->
  get_edge_data (remove_edge u v g) x y =
    if decide ((x = u /\ y = v) \/ (x = v /\ y = u)) then None
    else get_edge_data g x y.
Proof.
  intros Hs. case_decide as Hxy; [|by apply get_edge_data_remove_edge_ne].
  destruct Hxy as [[-> ->]|[-> ->]].
  - apply get_edge_data_remove_edge_eq.
  - by apply get_edge_data_remove_edge_rev.
Qed.

Lemma pruned_from_remove_edge (g0 : Graph A) g u v :
  pruned_from g0 g -> pruned_from g0 (remove_edge u v g).
Proof.
  intros (Hk & Hs & Hn & He).
  destruct (remove_edge_keys g u v) as [Hnode Hadj].
  split; [|split; [|split]].
  - intros k. rewrite Hadj, Hnode. apply Hk.
  - intros x y. rewrite !get_edge_data_remove_edge by done.
    repeat case_decide; try done; try tauto; apply Hs.
  - intros n. rewrite Hnode. apply Hn.
  - intros x y a H. apply get_edge_data_remove_edge_Some in H. auto.
Qed.

Lemma pruned_from_remove_edges_from (g0 : Graph A) g ebunch :
  pruned_from g0 g -> pruned_from g0 (remove_edges_from ebunch g).
Proof.
  unfold remove_edges_from. apply foldl_inv. intros e g' _.
  apply pruned_from_remove_edge.
Qed.

Lemma pruned_from_add_edge (g0 : Graph A) g u v a :
  symmetric g0 -> ends_are_nodes g0 ->
  get_edge_data g0 u v = Some a ->
  pruned_from g0 g -> pruned_from g0 (add_edge u v a g).
Proof.
  intros Hs0 He0 Huv (Hk & Hs & Hn & He).
  split; [by apply keys_agree_add_edge|]. split; [|split].
  - intros x y. rewrite !get_edge_data_add_edge by done.
    repeat case_decide; try done; try tauto; apply Hs.
  - intros n. rewrite dget_node_add_edge.
    destruct (dget n (_node g)) eqn:E; [intros _; apply Hn; by rewrite E|].
    case_decide as Hnuv; [|by intros [? ?]]. intros _.
    destruct (He0 u v) as [Hu Hv]; [by rewrite Huv|].
    by destruct Hnuv as [->| ->].
  - intros x y a'. rewrite get_edge_data_add_edge by done.
    case_decide as Hxy; [|apply He].
    intros [= <-]. destruct Hxy as [[-> ->]|[-> ->]]; [done|]. by rewrite Hs0.
Qed.

Lemma pruned_from_restore (g0 : Graph A) g edge_chunk data_chunk :
  symmetric g0 -> ends_are_nodes g0 ->
  Forall2 (fun e d => get_edge_data g0 e.1 e.2 = Some d) edge_chunk data_chunk ->
  pruned_from g0 g ->
  pruned_from g0 (foldl (fun g ed => add_edge ed.1.1 ed.1.2 ed.2 g) g
                        (zip edge_chunk data_chunk)).
Proof.
  intros Hs0 He0 Hc. revert g.
  induction Hc as [|e d ec dc Hed Hc IH]; intros g Hg; simpl; [done|].
  apply IH. by apply pruned_from_add_edge.
Qed.

Lemma pruned_from_reduce self (g0 : Graph A) g (g' : Graph A) :
  reduce self g = inr g' -> pruned_from g0 g -> pruned_from g0 g'.
Proof.
  intros (S1 & S2 & S3 & -> & _)%reduce_shape Hg.
  by do 3 apply pruned_from_subgraph.
Qed.
End part_lemmas.

(** ** An invariant of the current subgraph through the pruner *)

Section pruner_invariant.
Variable g0 : Graph Edge.data.
Variable I : MapGenerator -> Prop.
Hypothesis check_chunk_I :
  forall self ec dc b self',
    chunk_of g0 ec dc -> I self -> check_chunk self ec dc = inr (b, self') -> I self'.

Lemma split_loop_I recurse subgraph chunk_size n rest self self' :
  (forall s ec dc b s', chunk_of g0 ec dc -> I s -> recurse s ec dc = inr (b, s') ->
                        I s') ->
  entries_of g0 rest -> I self ->
  split_loop recurse subgraph chunk_size n rest self = inr self' -> I self'.
Proof using check_chunk_I.
  intros Hrec. revert rest self.
  induction n as [|n IH]; intros rest self Hrest HI H; simpl in H.
  { by simplify_eq. }
  destruct rest as [|ed rest]; [by simplify_eq|].
  destruct (take_live_chunk g0 (deref self subgraph) chunk_size [] [] (ed :: rest))
    as [Hc Hr]; [constructor | done |].
  bind_inv H. destruct a as [b s1]. simpl in H.
  apply Hrec in Ha; [|done..].
  destruct b; simpl in H; [by apply IH in H|].
  bind_inv H. destruct a as [b s2]. simpl in H.
  apply check_chunk_I in Ha0; [|
    apply chunk_of_entries, Forall_forall;
    intros x [_ Hx]%list_elem_of_filter;
    by apply (proj1 (Forall_forall _ _) Hr) | done].
  destruct b; [by simplify_eq|]. by apply IH in H.
Qed.

Lemma chunk_process_I fuel self edge_chunk data_chunk chunk_size b self' :
  chunk_of g0 edge_chunk data_chunk -> I self ->
  chunk_process fuel self edge_chunk data_chunk chunk_size = inr (b, self') ->
  I self'.
Proof using check_chunk_I.
  revert self edge_chunk data_chunk chunk_size b self'.
  induction fuel as [|fuel IH]; intros self ec dc cs b self' Hc HI H; simpl in H.
  1: done.
  bind_inv H. destruct a as [b1 s1]. simpl in H.
  apply check_chunk_I in Ha; [|done..].
  destruct b1; simpl in H; [by simplify_eq|].
  destruct (cs =? 1); [by simplify_eq|].
  destruct (chunkScale (params self) =? 0); [done|].
  bind_inv H. simplify_eq.
  refine (split_loop_I _ _ _ _ _ _ _ _ _ Ha Ha0).
  - intros s ec' dc' b' s' Hc' Hs Hrun. by eapply IH.
  - by apply entries_of_zip.
Qed.

Lemma main_loop_I fuel chunk_size n rest self self' :
  entries_of g0 rest -> I self ->
  main_loop fuel chunk_size n rest self = inr self' -> I self'.
Proof using check_chunk_I.
  revert rest self.
  induction n as [|n IH]; intros rest self Hrest HI H; simpl in H.
  { by simplify_eq. }
  destruct rest as [|ed rest]; [by simplify_eq|].
  destruct (take_live_chunk g0 (deref self (tmp_subgraph self)) chunk_size
              [] [] (ed :: rest)) as [Hc Hr]; [constructor | done |].
  bind_inv H. destruct a as [b s1]. simpl in H.
  apply chunk_process_I in Ha; [|done..]. by apply IH in H.
Qed.
End pruner_invariant.

Lemma check_chunk_inside g0 self edge_chunk data_chunk b self' :
  symmetric g0 -> ends_are_nodes g0 ->
  chunk_of g0 edge_chunk data_chunk -> kept_inside g0 self ->
  check_chunk self edge_chunk data_chunk = inr (b, self') ->
  kept_inside g0 self'.
Proof.
  intros Hs0 He0 Hc [Href Hg] H. unfold check_chunk in H.
  destruct (negb (forallb _ _)).
  { destruct (negb (existsb _ _)); by simplify_eq. }
  set (self1 := mutate _ _ self) in H.
  assert (tmp_subgraph self < length (heap self1)) as Href1.
  { unfold self1, mutate. simpl. by rewrite length_alter. }
  assert (pruned_from g0 (deref self1 (tmp_subgraph self))) as Hg1.
  { unfold self1. rewrite deref_mutate by done.
    by apply pruned_from_remove_edges_from. }
  apply bind_inr in H as (ex1 & Hex1 & H).
  apply bind_inr in H as (ex2 & Hex2 & H).
  apply bind_inr in H as (ex3 & Hex3 & H).
  assert (pruned_from g0 ex3) as Hg3.
  { apply (pruned_from_reduce self1 g0 (deref self1 (tmp_subgraph self))); [|done].
    unfold reduce. rewrite Hex1. simpl. by rewrite Hex2. }
  assert (kept_inside g0 (mutate (tmp_subgraph self)
            (restore edge_chunk data_chunk) self1)) as Hrej.
  { split.
    - unfold mutate, self1. simpl. by rewrite !length_alter.
    - change (tmp_subgraph (mutate _ _ self1)) with (tmp_subgraph self).
      rewrite deref_mutate by done. by apply pruned_from_restore. }
  destruct (is_invalid _ _); [by simplify_eq|].
  destruct (negb (check_constraints _ _)); simplify_eq; [done|].
  split; [apply tmp_subgraph_set_tmp_subgraph|].
  by rewrite deref_set_tmp_subgraph.
Qed.

Lemma final_sweep_inside self g0 g :
  symmetric g0 -> ends_are_nodes g0 ->
  pruned_from g0 g -> pruned_from g0 (final_sweep self g).
Proof.
  intros Hs0 He0. unfold final_sweep. apply foldl_inv.
  intros [[u v] sc] tmp _ Hg. simpl.
  destruct (get_edge_data tmp u v) as [d|] eqn:Hd; [|done].
  destruct (Edge.found_path d); [done|].
  destruct (check_constraints _ _); [by apply pruned_from_remove_edge|].
  apply pruned_from_add_edge; [done..| |by apply pruned_from_remove_edge].
  destruct Hg as (_ & _ & _ & He). by apply He.
Qed.

(** ** The graph of the scores *)

Lemma elem_of_combinations2 n u v : (u, v) ∈ combinations2 n <-> u < v /\ v < n.
Proof.
  split.
  - intros H. by apply (proj1 (Forall_forall _ _) (combinations2_lt n)) in H.
  - intros [Huv Hv]. unfold combinations2.
    apply list_elem_of_In, in_flat_map. exists u. split; [apply in_seq; lia|].
    apply list_elem_of_In, list_elem_of_fmap. exists v. split; [done|].
    apply elem_of_seq. lia.
Qed.

Lemma mapM_inr_elem {X Y} (f : X -> result Y) l ys x :
  mapM f l = inr ys -> x ∈ l -> exists y, f x = inr y.
Proof.
  revert ys. induction l as [|x' l IH]; intros ys H Hx; [by apply elem_of_nil in Hx|].
  rewrite mapM_cons in H. bind_inv H. bind_inv H.
  apply elem_of_cons in Hx as [->|Hx]; eauto.
Qed.

Lemma make_graph_empty self min_score :
  intermediate_names self = [] -> make_graph self min_score = inr empty_graph.
Proof. unfold make_graph. by intros ->. Qed.

Lemma built_graph {A} names (f : nat * nat -> A) l m (g : Graph A) :
  built names f l m g -> keys_agree g /\ symmetric g /\ ends_are_nodes g.
Proof.
  intros (Hk & Hn & He). split; [done|]. split.
  - intros u v. rewrite !He, Nat.min_comm, Nat.max_comm.
    repeat case_decide; try done; tauto.
  - intros u v Huv. rewrite He in Huv.
    destruct (decide (0 < m /\ ((u, v) ∈ l \/ (v, u) ∈ l))) as [[Hm H]|?];
      [|by destruct Huv].
    rewrite !Hn.
    assert (u ∈ l.*1 \/ u ∈ l.*2) as Hu.
    { destruct H as [H|H]; [left|right];
        apply list_elem_of_fmap; eexists; (split; [|exact H]); done. }
    assert (v ∈ l.*1 \/ v ∈ l.*2) as Hv.
    { destruct H as [H|H]; [right|left];
        apply list_elem_of_fmap; eexists; (split; [|exact H]); done. }
    split; repeat case_decide; try done; tauto.
Qed.

Lemma make_graph_graph self min_score g :
  make_graph self min_score = inr g ->
  keys_agree g /\ symmetric g /\ ends_are_nodes g.
Proof.
  intros H. destruct (intermediate_names self) as [|name names] eqn:Hnames.
  - rewrite make_graph_empty in H by done. simplify_eq.
    split; [apply keys_agree_empty|]. split; [done|].
    intros u v [? ?]. done.
  - destruct (make_graph_reads self min_score g H) as [scores Hs];
      [by rewrite Hnames|].
    destruct (make_graph_built self min_score scores Hs) as (g' & Hg' & Hb).
    rewrite H in Hg'. simplify_eq. by eapply built_graph.
Qed.

(** X4.  For an object with as many names as molecules: [x]-[y] is an
    edge of the graph [make_graph] returns, with the score [s], exactly
    when [x] and [y] are two different indices below [N], [s] is the
    entry of the matrix at (min, max) rounded to two decimals, and [s] is
    at least the threshold. *)
Theorem make_graph_edges self min_score g x y s :
  length (intermediate_names self) = N self ->
  make_graph self min_score = inr g ->
  get_edge_data g x y = Some s <->
  x <> y /\ x < N self /\ y < N self /\
  exists score,
    matrix_get (score_matrix self) (x `min` y) (x `max` y) = inr score /\
    s = round2 score /\
    (default (minScoreThreshold (params self)) min_score <= s)%Q.
Proof.
  intros HN H. set (tau := default _ min_score).
  destruct (intermediate_names self) as [|name names] eqn:Hnames.
  { rewrite make_graph_empty in H by done. simplify_eq. simpl in HN.
    split; [done|]. intros (_ & ? & _). lia. }
  destruct (make_graph_reads self min_score g H) as [scores Hs];
    [by rewrite Hnames|].
  destruct (make_graph_built self min_score scores Hs) as (g' & Hg' & Hb).
  rewrite H in Hg'. simplify_eq. destruct Hb as (_ & _ & He).
  rewrite He, Hnames, HN. fold tau. clear He.
  assert (forall u v, (u, v) ∈ combinations2 (N self) ->
            exists score, matrix_get (score_matrix self) u v = inr score) as Hread.
  { intros u v Huv. by apply (mapM_inr_elem _ _ _ _ Hs) in Huv. }
  assert (forall u v,
            (u, v) ∈ filter (fun e => Qle_bool tau (rounded_score self e) = true)
                            (combinations2 (N self)) <->
            u < v /\ v < N self /\
            exists score, matrix_get (score_matrix self) u v = inr score /\
                          (tau <= round2 score)%Q) as Hl.
  { intros u v. rewrite list_elem_of_filter, elem_of_combinations2. split.
    - intros [Hq [Huv Hv]]. split; [done|]. split; [done|].
      destruct (Hread u v) as [score Hsc]; [by apply elem_of_combinations2|].
      exists score. split; [done|]. apply Qle_bool_iff.
      unfold rounded_score in Hq. simpl in Hq. by rewrite Hsc in Hq.
    - intros (Huv & Hv & score & Hsc & Hq). split; [|done].
      unfold rounded_score. simpl. rewrite Hsc. by apply Qle_bool_iff. }
  split.
  - case_decide as Hin; [|done]. intros [= <-].
    destruct Hin as [Hm [Hin|Hin]]; apply Hl in Hin as (Huv & Hv & score & Hsc & Hq).
    + rewrite Nat.min_l, Nat.max_r by lia.
      repeat split; try lia. exists score. unfold rounded_score. simpl.
      by rewrite Hsc.
    + rewrite Nat.min_r, Nat.max_l by lia.
      repeat split; try lia. exists score. unfold rounded_score. simpl.
      by rewrite Hsc.
  - intros (Hxy & Hx & Hy & score & Hsc & -> & Hq).
    rewrite decide_True.
    + unfold rounded_score. simpl. by rewrite Hsc.
    + split; [lia|]. destruct (decide (x < y)).
      * left. apply Hl. rewrite Nat.min_l, Nat.max_r in Hsc by lia. eauto.
      * right. apply Hl. rewrite Nat.min_r, Nat.max_l in Hsc by lia.
        split; [lia|]. eauto.
Qed.

Lemma make_graph_edges_witness :
  exists self g,
    init (unnamed 4) sweep_input = inr self /\
    make_graph self None = inr g /\
    (get_edge_data g 1 0 = Some (Qmake 30 100) <->
     1 <> 0 /\ 1 < N self /\ 0 < N self /\
     exists score,
       matrix_get (score_matrix self) (1 `min` 0) (1 `max` 0) = inr score /\
       Qmake 30 100 = round2 score /\
       (default (minScoreThreshold (params self)) None <= Qmake 30 100)%Q).
Proof.
  eexists _, _. split; [vm_compute; reflexivity|].
  split; [vm_compute; reflexivity|].
  apply make_graph_edges; vm_compute; reflexivity.
Defined.

Lemma foldM_ext {X S} (f h : X -> S -> result S) l s :
  (forall x s, x ∈ l -> f x s = h x s) -> foldM f l s = foldM h l s.
Proof.
  revert s. induction l as [|x l IH]; intros s Hfh; [done|].
  rewrite !foldM_cons, Hfh by left. destruct (h x s); [done|]. simpl.
  apply IH. intros; apply Hfh. by right.
Qed.

(** X5.  [make_graph] reads the matrix above the diagonal only: two
    matrices that agree on the entries [u < v < N] give the same graph,
    or raise the same exception. *)
Theorem make_graph_upper_triangle self m1 m2 min_score :
  (forall u v, u < v -> v < N self ->
     matrix_get (Some m1) u v = matrix_get (Some m2) u v) ->
  make_graph (set_score_matrix m1 self) min_score =
  make_graph (set_score_matrix m2 self) min_score.
Proof.
  intros Hm. unfold make_graph. apply foldM_ext. intros e g _.
  unfold add_scored_edges. apply foldM_ext. intros [u v] g' Huv.
  apply elem_of_combinations2 in Huv as [Huv Hv]. simpl in *.
  by rewrite Hm.
Qed.

Lemma make_graph_upper_triangle_witness :
  exists self,
    init (unnamed 2) round_input = inr self /\
    make_graph (set_score_matrix [[1%Q; Qmake 5 10]; [Qmake 5 10; 1%Q]] self) None =
    make_graph (set_score_matrix [[0%Q; Qmake 5 10]; [Qmake 9 10; 0%Q]] self) None.
Proof.
  eexists. split; [vm_compute; reflexivity|].
  apply make_graph_upper_triangle.
  intros u v Huv Hv.
  assert (u = 0 /\ v = 1) as [-> ->] by (vm_compute in Hv; lia).
  reflexivity.
Defined.

(** ** The initial graph *)

Lemma get_edge_data_dmap {A B} (f : A -> B) (g : Graph A) x y :
  get_edge_data (mkGraph (_node g) (dmap (dmap f) (_adj g))) x y =
    f <$> get_edge_data g x y.
Proof.
  unfold get_edge_data. simpl. rewrite dget_dmap.
  destruct (dget x (_adj g)); simpl; [by rewrite dget_dmap | done].
Qed.

Lemma set_found_path_attr_keys u v flag g g' :
  set_found_path_attr u v flag g = inr g' ->
  _node g' = _node g /\
  forall k, is_Some (dget k (_adj g')) <-> is_Some (dget k (_adj g)).
Proof.
  unfold set_found_path_attr. destruct (get_edge_data g u v); [|done].
  intros [= <-]. split; [done|]. intros k. simpl.
  by rewrite !is_Some_dget_dalter.
Qed.

(** Flagging a list of links: the nodes stay, the edges stay, and a
    bundle is flagged when it was or when its edge is one of the links. *)
Lemma flag_links_edges l g g' :
  foldM (fun e graph => set_found_path_attr e.1 e.2 true graph) l g = inr g' ->
  _node g' = _node g /\
  (forall k, is_Some (dget k (_adj g')) <-> is_Some (dget k (_adj g))) /\
  forall x y,
    get_edge_data g' x y =
      (fun d => Edge.mk (Edge.score d)
                  (Edge.found_path d || bool_decide ((x, y) ∈ l \/ (y, x) ∈ l)))
        <$> get_edge_data g x y.
Proof.
  revert g. induction l as [|[a b] l IH]; intros g H.
  { simpl in H. assert (g' = g) as -> by congruence. clear H.
    split; [done|]. split; [done|]. intros x y.
    rewrite bool_decide_eq_false_2.
    - destruct (get_edge_data g x y) as [[sc fp]|]; simpl; [|done].
      by rewrite orb_false_r.
    - intros [Hin|Hin]; by apply elem_of_nil in Hin. }
  rewrite foldM_cons in H. bind_inv H. rename a0 into g1. simpl in Ha.
  destruct (set_found_path_attr_keys _ _ _ _ _ Ha) as [Hn1 Hk1].
  pose proof (get_edge_data_set_found_path_attr _ _ _ _ _ Ha) as He1.
  destruct (IH _ H) as (Hn & Hk & He).
  split; [congruence|]. split; [intros k; etrans; [apply Hk | apply Hk1]|].
  intros x y. rewrite He, He1.
  destruct (decide ((x = a /\ y = b) \/ (x = b /\ y = a))) as [Hxy|Hxy].
  - destruct (get_edge_data g x y) as [[sc fp]|]; simpl; [|done].
    rewrite (bool_decide_eq_true_2 (_ ∈ (a, b) :: l \/ _)).
    + by rewrite orb_true_r.
    + destruct Hxy as [[-> ->]|[-> ->]]; [left|right]; left.
  - destruct (get_edge_data g x y) as [[sc fp]|]; simpl; [|done].
    do 3 f_equal. apply bool_decide_ext. rewrite !elem_of_cons.
    split; [tauto|]. intros [[?|?]|[?|?]]; simplify_eq; tauto.
Qed.

Lemma flag_links_total l g :
  (forall u v, (u, v) ∈ l -> is_Some (get_edge_data g u v)) ->
  exists g', foldM (fun e graph => set_found_path_attr e.1 e.2 true graph) l g = inr g'.
Proof.
  revert g. induction l as [|[a b] l IH]; intros g Hl; [by eexists|].
  rewrite foldM_cons. simpl.
  destruct (Hl a b) as [d Hd]; [left|].
  destruct (set_found_path_attr a b true g) as [e|g1] eqn:E.
  { unfold set_found_path_attr in E. by rewrite Hd in E. }
  simpl. apply IH. intros u v Huv.
  rewrite (get_edge_data_set_found_path_attr _ _ _ _ _ E).
  case_decide; rewrite ?fmap_is_Some; apply Hl; by right.
Qed.

(** The initial graph, edge by edge. *)
Lemma generate_initial_graph_edges self gm :
  make_graph self None = inr gm ->
  (links_present (found_path self) gm <->
     exists g0, generate_initial_graph self = inr g0) /\
  (~ links_present (found_path self) gm ->
     generate_initial_graph self = inl KeyError) /\
  (forall g0, generate_initial_graph self = inr g0 ->
     _node g0 = _node gm /\
     forall x y,
       get_edge_data g0 x y =
         (fun score => Edge.mk score (bool_decide (link (found_path self) x y)))
           <$> get_edge_data gm x y).
Proof.
  intros Hgm. unfold generate_initial_graph. rewrite Hgm. cbn [bind].
  set (g := mkGraph (_node gm) (dmap (dmap (fun score => Edge.mk score false)) (_adj gm))).
  assert (forall x y, get_edge_data g x y =
            (fun score => Edge.mk score false) <$> get_edge_data gm x y) as Hg.
  { intros x y. apply get_edge_data_dmap. }
  assert (forall g0,
            foldM (fun e graph => set_found_path_attr e.1 e.2 true graph)
                  (links (found_path self)) g = inr g0 ->
            _node g0 = _node gm /\
            forall x y,
              get_edge_data g0 x y =
                (fun score => Edge.mk score (bool_decide (link (found_path self) x y)))
                  <$> get_edge_data gm x y) as Hspec.
  { intros g0 H. apply flag_links_edges in H as (Hn & _ & He).
    split; [done|]. intros x y. rewrite He, Hg.
    by destruct (get_edge_data gm x y). }
  assert (links_present (found_path self) gm <->
          exists g0, foldM (fun e graph => set_found_path_attr e.1 e.2 true graph)
                           (links (found_path self)) g = inr g0) as Hiff.
  { split.
    - intros Hp. apply flag_links_total. intros u v Huv.
      rewrite Hg, fmap_is_Some. by apply Hp.
    - intros [g0 H] u v Huv.
      pose proof (flag_links_spec _ _ _ H) as (_ & Hpres & _).
      apply Hpres in Huv. destruct (Hspec _ H) as [_ He].
      rewrite He, fmap_is_Some in Huv. done. }
  split; [done|]. split; [|done].
  intros Hnp. destruct (foldM _ _ g) as [e|g0] eqn:E.
  - f_equal. revert E. apply (foldM_exn (fun e => e = KeyError)). intros p g' e'.
    unfold set_found_path_attr. destruct (get_edge_data _ _ _); congruence.
  - destruct Hnp. apply Hiff. eauto.
Qed.

Lemma generate_initial_graph_graph self gm g0 :
  make_graph self None = inr gm ->
  generate_initial_graph self = inr g0 ->
  keys_agree g0 /\ symmetric g0 /\ ends_are_nodes g0.
Proof.
  intros Hgm Hg0.
  destruct (make_graph_graph _ _ _ Hgm) as (Hk & Hs & He).
  destruct (generate_initial_graph_edges self gm Hgm) as (_ & _ & Hspec).
  destruct (Hspec _ Hg0) as [Hn Hed].
  unfold generate_initial_graph in Hg0. rewrite Hgm in Hg0. cbn [bind] in Hg0.
  apply flag_links_edges in Hg0 as (_ & Hadj & _).
  split; [|split].
  - intros k. rewrite Hadj, Hn. simpl. rewrite dget_dmap, fmap_is_Some. apply Hk.
  - intros u v. rewrite !Hed, Hs.
    destruct (get_edge_data gm v u); simpl; [|done].
    do 2 f_equal. apply bool_decide_ext. unfold link. tauto.
  - intros u v. rewrite Hed, fmap_is_Some, Hn. apply He.
Qed.

(** ** Connected graphs *)

Section walks.
Context {A : Type}.
Implicit Types (g : Graph A) (u v x y n k : nat) (p q : list nat).

Lemma walk_snoc g p m n :
  walk g p -> last p = Some m -> has_edge g m n = true -> walk g (p ++ [n]).
Proof.
  induction p as [|u [|w p] IH]; [done| |].
  - intros _ [= ->] He. simpl. done.
  - intros [Hu Hw] Hl He. rewrite last_cons_cons in Hl.
    change ((u :: w :: p) ++ [n]) with (u :: (w :: p) ++ [n]).
    simpl. split; [done|]. by apply IH.
Qed.

Lemma walk_app g p q x :
  walk g p -> walk g (x :: q) -> last p = Some x -> walk g (p ++ q).
Proof.
  induction p as [|u [|w p] IH]; [done| |].
  - intros _ Hq [= ->]. done.
  - intros [Hu Hw] Hq Hl. rewrite last_cons_cons in Hl.
    change ((u :: w :: p) ++ q) with (u :: (w :: p) ++ q).
    simpl. split; [done|]. by apply IH.
Qed.

Lemma has_edge_symmetric g u v :
  symmetric g -> has_edge g u v = has_edge g v u.
Proof. intros Hs. unfold has_edge. by rewrite Hs. Qed.

Lemma walk_reverse g p :
  symmetric g -> walk g p -> walk g (reverse p).
Proof.
  intros Hs. induction p as [|u [|w p] IH]; [done..|].
  intros [Hu Hw]. rewrite reverse_cons.
  apply (walk_snoc _ _ w); [by apply IH| |by rewrite has_edge_symmetric].
  rewrite reverse_cons. apply last_snoc.
Qed.

Lemma head_reverse {X} (l : list X) : head (reverse l) = last l.
Proof.
  induction l as [|x l IH] using rev_ind; [done|].
  by rewrite reverse_snoc, last_snoc.
Qed.

Lemma last_reverse {X} (l : list X) : last (reverse l) = head l.
Proof. destruct l as [|x l]; [done|]. rewrite reverse_cons. apply last_snoc. Qed.

Lemma walk_subgraph g (S : gset nat) p :
  walk g p -> (forall x, x ∈ p -> x ∈ S) -> walk (subgraph g S) p.
Proof.
  induction p as [|u [|w p] IH]; [done..|].
  intros [Hu Hw] HS. split.
  - unfold has_edge in *. rewrite get_edge_data_subgraph.
    rewrite (bool_decide_eq_true_2 (u ∈ S)) by (apply HS; left).
    rewrite (bool_decide_eq_true_2 (w ∈ S)) by (apply HS; right; left).
    done.
  - apply IH; [done|]. intros x Hx. apply HS. by right.
Qed.

Lemma grow_subseteq g (S : gset nat) : S ⊆ grow g S.
Proof. unfold grow. set_solver. Qed.

(** A node of the set grown from [v] is at the end of a walk from [v]
    that stays in the set. *)
Lemma grown_walk g v k n :
  n ∈ Nat.iter k (grow g) ({[v]} : gset nat) ->
  exists p, head p = Some v /\ last p = Some n /\ walk g p /\
            forall x, x ∈ p -> x ∈ Nat.iter k (grow g) ({[v]} : gset nat).
Proof.
  revert n. induction k as [|k IH]; intros n Hn.
  { simpl in Hn. apply elem_of_singleton in Hn as ->.
    exists [v]. simpl. repeat split; try done.
    intros x ->%list_elem_of_singleton. by apply elem_of_singleton. }
  rewrite Nat.iter_succ in *.
  set (S := Nat.iter k (grow g) {[v]}) in *.
  unfold grow in Hn at 1. apply elem_of_union in Hn as [Hn|Hn].
  { destruct (IH n Hn) as (p & Hh & Hl & Hw & Hin).
    exists p. repeat split; try done.
    intros x Hx. by apply grow_subseteq, Hin. }
  apply elem_of_list_to_set, list_elem_of_In, in_flat_map in Hn as (m & Hm & Hn).
  apply list_elem_of_In, elem_of_elements in Hm.
  apply list_elem_of_In, neighbors_has_edge in Hn.
  destruct (IH m Hm) as (p & Hh & Hl & Hw & Hin).
  exists (p ++ [n]). split; [by destruct p|]. split; [apply last_snoc|].
  split; [by eapply walk_snoc|].
  intros x [Hx| ->%list_elem_of_singleton]%elem_of_app.
  - by apply grow_subseteq, Hin.
  - unfold grow. apply elem_of_union. right.
    apply elem_of_list_to_set, list_elem_of_In, in_flat_map. exists m.
    split; [by apply list_elem_of_In, elem_of_elements|].
    by apply list_elem_of_In, neighbors_has_edge.
Qed.

Lemma components_from_elem g (seen : gset nat) vs c :
  c ∈ components_from g seen vs -> exists v, c = component g v.
Proof.
  revert seen. induction vs as [|v vs IH]; intros seen; simpl.
  { by intros ?%elem_of_nil. }
  case_bool_decide; [apply IH|].
  intros [->|Hc]%elem_of_cons; [eauto | by eapply IH].
Qed.

(** The graph induced on a connected component is connected. *)
Lemma component_connected g v :
  symmetric g -> connected (subgraph g (component g v)).
Proof.
  intros Hs a b Ha Hb.
  apply has_node_subgraph in Ha, Hb. unfold component in *.
  destruct (grown_walk _ _ _ _ Ha) as (pa & Hha & Hla & Hwa & Hina).
  destruct (grown_walk _ _ _ _ Hb) as (pb & Hhb & Hlb & Hwb & Hinb).
  destruct pb as [|v' pb]; [done|]. simpl in Hhb. simplify_eq.
  exists (reverse pa ++ pb). split; [|split].
  - destruct (reverse pa) as [|x l] eqn:E.
    + apply (f_equal head) in E. rewrite head_reverse, Hla in E. done.
    + apply (f_equal head) in E. rewrite head_reverse, Hla in E. simpl in *. done.
  - destruct pb as [|w pb] using rev_ind.
    + rewrite app_nil_r, last_reverse, Hha. simpl in Hlb. done.
    + rewrite app_assoc, last_snoc.
      change (v :: pb ++ [w]) with ((v :: pb) ++ [w]) in Hlb.
      by rewrite last_snoc in Hlb.
  - apply walk_subgraph.
    + apply (walk_app _ _ _ v); [by apply walk_reverse|done|].
      by rewrite last_reverse.
    + intros x [Hx|Hx]%elem_of_app.
      * apply Hina. by rewrite elem_of_reverse in Hx.
      * apply Hinb. by right.
Qed.

Lemma get_main_subgraph_connected self g g' :
  symmetric g -> get_main_subgraph self g = inr g' -> connected g'.
Proof.
  intros Hs H. unfold get_main_subgraph in H.
  destruct (is_invalid _ _); [done|]. simplify_eq.
  destruct (find _ _) as [c|] eqn:E.
  - apply find_some in E as [Hc _].
    apply list_elem_of_In, components_from_elem in Hc as [v ->].
    by apply component_connected.
  - intros a b Ha _. apply has_node_subgraph in Ha. set_solver.
Qed.
End walks.

(** ** The pair map and the graph of the scores *)

Lemma pruned_from_refl {A} (g : Graph A) :
  keys_agree g -> symmetric g -> pruned_from g g.
Proof. intros Hk Hs. split; [done|]. split; [done|]. apply part_of_refl. Qed.

Lemma prepare_inside self entries chunk_size self' :
  prepare self = inr (entries, chunk_size, self') ->
  exists gm g0,
    make_graph self None = inr gm /\
    generate_initial_graph self = inr g0 /\
    symmetric g0 /\ ends_are_nodes g0 /\
    entries_of g0 entries /\ kept_inside g0 self'.
Proof.
  intros H. pose proof H as H0. unfold prepare in H0.
  apply bind_inr in H0 as (g0 & Hg0 & H0).
  apply bind_inr in H0 as (data & Hdata & H0).
  apply bind_inr in H0 as (cs & Hcs & H0).
  apply bind_inr in H0 as (ex1 & Hex1 & H0).
  apply bind_inr in H0 as (ex2 & Hex2 & H0).
  apply bind_inr in H0 as (ex3 & Hex3 & H0).
  destruct (is_invalid _ _); [done|]. simplify_eq.
  pose proof Hg0 as Hgm. unfold generate_initial_graph in Hgm.
  apply bind_inr in Hgm as (gm & Hgm & _).
  destruct (generate_initial_graph_graph _ _ _ Hgm Hg0) as (Hk & Hs & He).
  exists gm, g0. split; [done|]. split; [done|]. split; [done|]. split; [done|].
  split.
  - apply entries_of_zip. by apply mapM_lookup_chunk.
  - split; [apply tmp_subgraph_set_tmp_subgraph|].
    rewrite deref_set_tmp_subgraph.
    set (self1 := set_initialCycled _ _ self) in *.
    apply (pruned_from_reduce self1 g0 g0); [|by apply pruned_from_refl].
    unfold reduce. rewrite Hex1. simpl. by rewrite Hex2.
Qed.

(** The pruned graph [build_map] hands to the last reduction, with the
    facts the properties of the pair map rest on. *)
Lemma build_map_run mcs self g self' :
  build_map mcs self = inr (PairMap g, self') ->
  exists gm g0 tmp_graph,
    make_graph self' None = inr gm /\
    generate_initial_graph
      (set_found (found_path self') (found_links self')
                 (get_score_matrix mcs self).2) = inr g0 /\
    (forall x y,
       get_edge_data g0 x y =
         (fun score => Edge.mk score (bool_decide (link (found_path self') x y)))
           <$> get_edge_data gm x y) /\
    _node g0 = _node gm /\
    pruned_from g0 tmp_graph /\
    get_main_subgraph self' tmp_graph = inr g.
Proof.
  unfold build_map. intros H.
  apply bind_inr in H as ([path self1] & Hfind & H). cbn [fst snd] in H.
  apply bind_inr in H as (og & _ & H).
  destruct (optimal_path_mode _); [done|].
  apply bind_inr in H as ([[entries cs] self2] & Hprep & H). cbn [fst snd] in H.
  apply bind_inr in H as (self3 & Hloop & H).
  apply bind_inr in H as (ex & Hmain & H). simplify_eq.
  pose proof (find_optimal_path_found _ _ _ Hfind) as Hself1.
  pose proof (prepare_inv _ _ _ _ Hprep) as (g0' & _ & _ & _ & Hself2).
  apply prepare_inside in Hprep as (gm & g0 & Hgm & Hg0 & Hs0 & He0 & Hent & Hin).
  pose proof (main_loop_frame _ _ _ _ _ _ Hloop) as Hframe.
  apply (main_loop_I g0 (kept_inside g0)) in Hloop; [|
    intros ???????; by eapply check_chunk_inside | done..].
  destruct Hloop as [_ Htmp].
  assert (found_path self' = path /\ found_links self' = links_ascending path /\
          make_graph self' None = make_graph self1 None) as (Hpath & Hlinks & Hmk).
  { rewrite Hframe, Hself2, Hself1. done. }
  destruct (generate_initial_graph_edges self1 gm Hgm) as (_ & _ & Hspec).
  destruct (Hspec _ Hg0) as [Hn Hed].
  exists gm, g0, (final_sweep self' (deref self' (tmp_subgraph self'))).
  split; [by rewrite Hmk|]. split; [by rewrite Hpath, Hlinks, <-Hself1|].
  split; [intros x y; rewrite Hed, Hpath, Hself1; done|].
  split; [done|]. split; [by apply final_sweep_inside | done].
Qed.

(** X21.  The pair map is part of the graph of the scores: every node of
    the returned graph is a node of [make_graph()], every edge of it is
    an edge of [make_graph()] with the same score, and it is flagged
    exactly when it joins two consecutive nodes of the found path. *)
Theorem build_map_inside mcs self g self' :
  build_map mcs self = inr (PairMap g, self') ->
  exists gm,
    make_graph self' None = inr gm /\
    (forall n, has_node g n = true -> has_node gm n = true) /\
    (forall u v d, get_edge_data g u v = Some d ->
       get_edge_data gm u v = Some (Edge.score d) /\
       Edge.found_path d = bool_decide (link (found_path self') u v)).
Proof.
  intros (gm & g0 & tmp & Hgm & _ & Hed & Hn & Htmp & Hmain)%build_map_run.
  exists gm. split; [done|].
  apply get_main_subgraph_shape in Hmain as (S & -> & _).
  pose proof (pruned_from_subgraph _ _ S Htmp) as (_ & _ & Hnodes & Hedges).
  split.
  - intros n. rewrite !has_node_spec, <-Hn. apply Hnodes.
  - intros u v d Hd. apply Hedges in Hd. rewrite Hed in Hd.
    destruct (get_edge_data gm u v) as [s|]; [|done].
    simpl in Hd. by simplify_eq.
Qed.

Lemma build_map_inside_witness :
  exists self g self',
    init (unnamed 4) chunk_input = inr self /\
    build_map no_mcs self = inr (PairMap g, self') /\
    exists gm,
      make_graph self' None = inr gm /\
      (forall n, has_node g n = true -> has_node gm n = true) /\
      (forall u v d, get_edge_data g u v = Some d ->
         get_edge_data gm u v = Some (Edge.score d) /\
         Edge.found_path d = bool_decide (link (found_path self') u v)).
Proof.
  eexists _, _, _. split; [vm_compute; reflexivity|].
  refine ((fun H => conj H (build_map_inside no_mcs _ _ _ H)) _).
  vm_compute. reflexivity.
Defined.

(** X22.  The pair map is connected, every two of its nodes being joined
    by a walk, and it holds every node of the found path. *)
Theorem build_map_connected mcs self g self' :
  build_map mcs self = inr (PairMap g, self') ->
  connected g /\ forall n, n ∈ found_path self' -> has_node g n = true.
Proof.
  intros (gm & g0 & tmp & _ & _ & _ & _ & Htmp & Hmain)%build_map_run.
  split.
  - destruct Htmp as (_ & Hs & _). by eapply get_main_subgraph_connected.
  - intros n Hn. pose proof (reduce_has_found_path_nodes self' tmp g) as Hv.
    unfold get_main_subgraph in Hmain.
    destruct (is_invalid self' _) eqn:E; [done|]. simplify_eq.
    unfold is_invalid in E. apply negb_false_iff in E.
    rewrite List.forallb_forall in E. apply E. by apply list_elem_of_In.
Qed.

Lemma build_map_connected_witness :
  exists self g self',
    init (unnamed 4) chunk_input = inr self /\
    build_map no_mcs self = inr (PairMap g, self') /\
    connected g /\ forall n, n ∈ found_path self' -> has_node g n = true.
Proof.
  eexists _, _, _. split; [vm_compute; reflexivity|].
  refine ((fun H => conj H (build_map_connected no_mcs _ _ _ H)) _).
  vm_compute. reflexivity.
Defined.

(** ** The found path *)

(** The path [find_optimal_path] returns is a simple path of the graph
    built at the minimum threshold, from the source to the target. *)
Lemma find_optimal_path_simple self path self' :
  find_optimal_path self = inr (path, self') ->
  exists g,
    make_graph self None = inr g /\
    simple_path g (source_node_index (params self))
                (target_node_index (params self)) path /\
    length path <= S (maxOptimalPathLength (params self)).
Proof.
  intros H. pose proof H as H0. unfold find_optimal_path in H0.
  apply bind_inr in H0 as (gr & Hgr & H0).
  apply bind_inr in H0 as (b & Hb & H0).
  apply bind_inr in H0 as (g & Hg & H0).
  apply bind_inr in H0 as (paths & Hp & H0).
  destruct (all_simple_paths_spec _ _ _ _ _ Hp) as (_ & _ & Hne & Heq).
  destruct (decide (source_node_index (params self)
                    = target_node_index (params self))) as [E|E].
  { rewrite (Heq E) in H0. done. }
  specialize (Hne E).
  destruct (length paths =? 0); [done|].
  apply bind_inr in H0 as (scores & _ & H0).
  destruct (paths !! _) as [q|] eqn:Hq; [|done]. simplify_eq.
  exists g. split; [done|]. apply Hne. by eapply list_elem_of_lookup_2.
Qed.

Lemma NoDup_links_ne (path : list nat) u v :
  NoDup path -> (u, v) ∈ links path -> u <> v.
Proof.
  intros Hnd. revert u v. induction Hnd as [|x l Hx Hnd IH]; intros u v;
    [by intros ?%elem_of_nil|].
  destruct l as [|y l]; [by intros ?%elem_of_nil|].
  rewrite links_cons_cons. intros [[= -> ->]|Hin]%elem_of_cons; [|by apply IH].
  intros ->. apply Hx. left.
Qed.

(** X7.  When [find_optimal_path] returns a path, it records it as the
    found path, and the found links are the pairs [(a, b)] with [a < b]
    that follow one another on the path, in either order. *)
Theorem find_optimal_path_links self path self' :
  find_optimal_path self = inr (path, self') ->
  found_path self' = path /\
  forall a b, (a, b) ∈ found_links self' <-> a < b /\ link path a b.
Proof.
  intros H. pose proof (find_optimal_path_found _ _ _ H) as ->.
  destruct (find_optimal_path_simple _ _ _ H) as (g & _ & (_ & _ & Hnd & _) & _).
  split; [done|]. intros a b. simpl. unfold links_ascending, link.
  rewrite list_elem_of_fmap. split.
  - intros ([u v] & Heq & Hin).
    pose proof (NoDup_links_ne _ _ _ Hnd Hin) as Hne.
    simpl in Heq. case_bool_decide; simplify_eq; split; try lia; tauto.
  - intros [Hab [Hin|Hin]].
    + exists (a, b). simpl. by rewrite bool_decide_eq_true_2.
    + exists (b, a). simpl. by rewrite bool_decide_eq_false_2 by lia.
Qed.

Lemma find_optimal_path_links_witness :
  exists self path self',
    init (unnamed 4) sweep_input = inr self /\
    find_optimal_path self = inr (path, self') /\
    found_path self' = path /\
    forall a b, (a, b) ∈ found_links self' <-> a < b /\ link path a b.
Proof.
  eexists _, _, _. split; [vm_compute; reflexivity|].
  refine ((fun H => conj H (find_optimal_path_links _ _ _ H)) _).
  vm_compute. reflexivity.
Defined.

(** ** The optimal-path graph *)

(** Closes a case whose tests on an index contradict one another. *)
Ltac contradict_tests :=
  exfalso;
  repeat match goal with H : _ /\ _ |- _ => destruct H end;
  solve [ lia | done
        | match goal with H : ~ _ |- _ => apply H; split; [lia | done] end ].

(** The first loop of [make_optimal_path_graph]: the nodes of the path
    that have a name, each with its label, and no edge. *)
Lemma optimal_path_nodes (names : list string) (path : list nat) :
  let g := foldl (fun graph e =>
                    if bool_decide (e.1 ∈ path)
                    then set_label e.1 e.2 (add_node e.1 graph)
                    else graph)
                 (@empty_graph Q) (enumerate names) in
  keys_agree g /\
  (forall k, dget k (_node g) =
     if decide (k < length names /\ k ∈ path) then Some (names !! k) else None) /\
  (forall x y, get_edge_data g x y = None).
Proof.
  unfold enumerate.
  pose (P := fun m (g : Graph Q) => keys_agree g /\
              (forall k, dget k (_node g) =
                 if decide (k < m /\ k ∈ path) then Some (names !! k) else None) /\
              (forall x y, get_edge_data g x y = None)).
  apply (foldl_zip_seq_ind P _ names 0); unfold P.
  - split; [apply keys_agree_empty|]. split; [intros k|done].
    rewrite decide_False; [done | lia].
  - intros i name g Hi (Hk & Hn & He). simpl.
    case_bool_decide as Hin.
    + split; [by apply keys_agree_set_label, keys_agree_add_node|]. split.
      * intros k. rewrite dget_node_set_label, dget_node_add_node, Hn.
        destruct (decide (k = i)) as [->|Hki];
          repeat case_decide; simpl; rewrite ?Hi; try done;
          contradict_tests.
      * intros x y. by rewrite get_edge_data_set_label, get_edge_data_add_node.
    + split; [done|]. split; [|done]. intros k. rewrite Hn.
      destruct (decide (k = i)) as [->|Hki];
        repeat case_decide; try done; contradict_tests.
Qed.

(** The second loop: the links of a path without a repeated node, each
    with the entry of the matrix read in path order. *)
Lemma optimal_path_edges self path (g g' : Graph Q) :
  NoDup path -> keys_agree g ->
  foldM (fun e graph =>
           score <- matrix_get (score_matrix self) e.1 e.2 ;;
           ret (add_edge e.1 e.2 score graph))
        (links path) g = inr g' ->
  keys_agree g' /\
  (forall k, dget k (_node g') =
     match dget k (_node g) with
     | Some l => Some l
     | None => if decide (k ∈ path /\ 2 <= length path) then Some None else None
     end) /\
  (forall u v, (u, v) ∈ links path ->
     exists s, matrix_get (score_matrix self) u v = inr s /\
               get_edge_data g' u v = Some s /\ get_edge_data g' v u = Some s) /\
  (forall u v, ~ link path u v -> get_edge_data g' u v = get_edge_data g u v).
Proof.
  intros Hnd. revert g. induction Hnd as [|u l Hu Hnd IH]; intros g Hk H.
  { simpl in H. simplify_eq. split; [done|]. split; [|split; [|done]].
    - intros k. destruct (dget k (_node g')); [done|].
      rewrite decide_False; [done|]. intros [?%elem_of_nil _]. done.
    - intros u v ?%elem_of_nil. done. }
  destruct l as [|v rest].
  { simpl in H. simplify_eq. split; [done|]. split; [|split; [|done]].
    - intros k. destruct (dget k (_node g')); [done|].
      rewrite decide_False; [done|]. simpl. lia.
    - intros a b ?%elem_of_nil. done. }
  rewrite links_cons_cons, foldM_cons in H. simpl in H.
  apply bind_inr in H as (g1 & Hg1 & H).
  apply bind_inr in Hg1 as (s & Hs & Hg1). simplify_eq.
  destruct (IH _ (keys_agree_add_edge _ u v s Hk) H) as (Hk' & Hn' & He' & Hf').
  assert (forall x, ~ link (v :: rest) u x) as Hnl.
  { intros x Hl. apply link_endpoints in Hl as [? _]. done. }
  split; [done|]. split; [|split].
  - intros k. rewrite Hn', dget_node_add_edge.
    destruct (dget k (_node g)); [done|].
    destruct (decide (k = u \/ k = v)) as [Hkuv|Hkuv].
    + rewrite decide_True; [done|]. split; [|simpl; lia].
      destruct Hkuv as [->| ->]; [left | right; left].
    + destruct (decide (k ∈ v :: rest /\ 2 <= length (v :: rest))) as [[Hin ?]|Hn2].
      * rewrite decide_True; [done|]. split; [by right | simpl; lia].
      * rewrite decide_False; [done|]. intros [Hin _].
        apply elem_of_cons in Hin as [->|Hin]; [tauto|].
        apply Hn2. split; [done|].
        destruct rest as [|w rest]; [|simpl; lia].
        apply list_elem_of_singleton in Hin. tauto.
  - intros a b [[= -> ->]|Hin]%elem_of_cons; [|by apply He'].
    exists s. split; [done|].
    rewrite !Hf' by (try apply Hnl; intros ?%link_sym; by eapply Hnl).
    rewrite !get_edge_data_add_edge by done.
    rewrite !decide_True by tauto. done.
  - intros a b Hl. rewrite Hf'.
    + apply get_edge_data_add_edge_ne. intros [[-> ->]|[-> ->]]; apply Hl.
      * left. rewrite links_cons_cons. left.
      * right. rewrite links_cons_cons. left.
    + intros [Hin|Hin]; apply Hl; [left|right]; rewrite links_cons_cons; by right.
Qed.

(** X8.  In optimal-path mode the graph [build_map] returns is the found
    path: the path repeats no node; the nodes of the graph are the nodes
    of the path, each labelled with the name at its index; each link
    [u]-[v] of the path is an edge that carries the entry
    [score_matrix[u][v]], read in path order and seen from both ends; and
    there is no other edge. *)
Theorem optimal_path_graph_is_path mcs self g self' :
  build_map mcs self = inr (OptimalPathGraph g, self') ->
  NoDup (found_path self') /\
  (forall n, dget n (_node g) =
     if decide (n ∈ found_path self') then Some (intermediate_names self' !! n)
     else None) /\
  (forall u v, (u, v) ∈ links (found_path self') ->
     exists s, matrix_get (score_matrix self') u v = inr s /\
               get_edge_data g u v = Some s /\ get_edge_data g v u = Some s) /\
  (forall u v, ~ link (found_path self') u v -> get_edge_data g u v = None).
Proof.
  unfold build_map. intros H.
  apply bind_inr in H as ([path self1] & Hfind & H). cbn [fst snd] in H.
  apply bind_inr in H as (og & Hog & H).
  destruct (optimal_path_mode _); [|by do 3 bind_inv H]. simplify_eq.
  destruct (find_optimal_path_simple _ _ _ Hfind)
    as (gm & _ & (Hhd & Hlast & Hnd & _) & _).
  assert (2 <= length path) as Hlen.
  { pose proof Hfind as H0. unfold find_optimal_path in H0.
    apply bind_inr in H0 as (gr & _ & H0). apply bind_inr in H0 as (b & _ & H0).
    apply bind_inr in H0 as (g' & _ & H0). apply bind_inr in H0 as (paths & Hp & H0).
    destruct (all_simple_paths_spec _ _ _ _ _ Hp) as (_ & _ & _ & Heq).
    destruct (decide (source_node_index (params (get_score_matrix mcs self).2)
                      = target_node_index (params (get_score_matrix mcs self).2)))
      as [E|E].
    { rewrite (Heq E) in H0. done. }
    destruct path as [|a [|b' l]]; simpl in *; [done| |lia].
    congruence. }
  pose proof (find_optimal_path_found _ _ _ Hfind) as Hself.
  assert (found_path self' = path) as Hpath by (by rewrite Hself).
  rewrite Hpath. unfold make_optimal_path_graph in Hog. rewrite Hpath in Hog.
  destruct (optimal_path_nodes (intermediate_names self') path) as (Hk0 & Hn0 & He0).
  destruct (optimal_path_edges _ _ _ _ Hnd Hk0 Hog) as (_ & Hn & He & Hf).
  split; [done|]. split; [|split; [done|]].
  - intros n. rewrite Hn, Hn0.
    destruct (decide (n ∈ path)) as [Hin|Hnin].
    + destruct (decide (n < length (intermediate_names self') /\ n ∈ path))
        as [?|Hge]; [done|].
      rewrite decide_True by done. f_equal. symmetry.
      apply lookup_ge_None. destruct (decide (n < length (intermediate_names self')));
        [tauto | lia].
    + rewrite decide_False by tauto. by rewrite decide_False by tauto.
  - intros u v Hl. by rewrite Hf, He0.
Qed.

Lemma optimal_path_graph_is_path_witness :
  exists self g self',
    init (unnamed 2) round_input = inr self /\
    build_map no_mcs self = inr (OptimalPathGraph g, self') /\
    NoDup (found_path self') /\
    (forall n, dget n (_node g) =
       if decide (n ∈ found_path self') then Some (intermediate_names self' !! n)
       else None) /\
    (forall u v, (u, v) ∈ links (found_path self') ->
       exists s, matrix_get (score_matrix self') u v = inr s /\
                 get_edge_data g u v = Some s /\ get_edge_data g v u = Some s) /\
    (forall u v, ~ link (found_path self') u v -> get_edge_data g u v = None).
Proof.
  eexists _, _, _. split; [vm_compute; reflexivity|].
  refine ((fun H => conj H (optimal_path_graph_is_path no_mcs _ _ _ H)) _).
  vm_compute. reflexivity.
Defined.

(** ** The reductions, node by node *)

Lemma has_node_subgraph_iff {A} (g : Graph A) (S : gset nat) n :
  has_node (subgraph g S) n = true <-> n ∈ S /\ has_node g n = true.
Proof.
  rewrite !has_node_spec, dget_node_subgraph.
  case_bool_decide; split; try tauto. by intros [? ?].
Qed.

Lemma elem_of_union_paths (S : gset nat) (paths : list (list nat)) n :
  n ∈ foldl (fun unique_nodes path => unique_nodes ∪ list_to_set path) S paths <->
  n ∈ S \/ exists p, p ∈ paths /\ n ∈ p.
Proof.
  revert S. induction paths as [|q paths IH]; intros S; simpl.
  { split; [tauto|]. intros [?|(p & ?%elem_of_nil & _)]; done. }
  rewrite IH, elem_of_union, elem_of_list_to_set. split.
  - intros [[?|?]|(p & Hp & Hn)]; [tauto| |].
    + right. exists q. split; [left | done].
    + right. exists p. split; [by right | done].
  - intros [?|(p & [->|Hp]%elem_of_cons & Hn)]; [tauto|tauto|].
    right. eauto.
Qed.

Lemma elem_of_union_cycles (keep : list nat -> bool) (S : gset nat)
    (cycles : list (list nat)) n :
  n ∈ foldl (fun unique_nodes path =>
               if keep path then unique_nodes ∪ list_to_set path else unique_nodes)
            S cycles <->
  n ∈ S \/ exists c, c ∈ cycles /\ keep c = true /\ n ∈ c.
Proof.
  revert S. induction cycles as [|q cycles IH]; intros S; simpl.
  { split; [tauto|]. intros [?|(p & ?%elem_of_nil & _)]; done. }
  rewrite IH. destruct (keep q) eqn:E.
  - rewrite elem_of_union, elem_of_list_to_set. split.
    + intros [[?|?]|(p & Hp & Hn)]; [tauto| |].
      * right. exists q. split; [left | done].
      * right. exists p. split; [by right | done].
    + intros [?|(p & [->|Hp]%elem_of_cons & Hk & Hn)]; [tauto|tauto|].
      right. eauto.
  - split.
    + intros [?|(p & Hp & Hn)]; [tauto|]. right. exists p. split; [by right | done].
    + intros [?|(p & [->|Hp]%elem_of_cons & Hk & Hn)]; [tauto|congruence|].
      right. eauto.
Qed.

Lemma is_invalid_subgraph {A} self (g : Graph A) (S : gset nat) :
  (forall n, n ∈ found_path self -> n ∈ S) ->
  is_invalid self (subgraph g S) = false <->
  forall n, n ∈ found_path self -> has_node g n = true.
Proof.
  intros HS. unfold is_invalid. rewrite negb_false_iff, List.forallb_forall.
  split.
  - intros H n Hn. by apply list_elem_of_In, H, has_node_subgraph_iff in Hn as [_ ?].
  - intros H n Hn%list_elem_of_In. apply has_node_subgraph_iff. auto.
Qed.

Lemma induced_subgraph {A} (g : Graph A) (S : gset nat) : induced (subgraph g S) g.
Proof.
  split; [|split].
  - intros n Hn. pose proof Hn as [HS Hg]%has_node_subgraph_iff.
    split; [done|]. by rewrite dget_node_subgraph, bool_decide_eq_true_2.
  - intros u v a. rewrite get_edge_data_subgraph. by destruct (_ && _).
  - intros u v [Hu _]%has_node_subgraph_iff [Hv _]%has_node_subgraph_iff.
    by rewrite get_edge_data_subgraph, !bool_decide_eq_true_2.
Qed.

Lemma induced_trans {A} (g1 g2 g3 : Graph A) :
  induced g1 g2 -> induced g2 g3 -> induced g1 g3.
Proof.
  intros (Hn1 & He1 & Hk1) (Hn2 & He2 & Hk2). split; [|split].
  - intros n Hn. destruct (Hn1 n Hn) as [H2 E1]. destruct (Hn2 n H2) as [H3 E2].
    split; [done | congruence].
  - eauto.
  - intros u v Hu Hv. rewrite Hk1 by done.
    apply Hk2; [by apply Hn1 | by apply Hn1].
Qed.

(** X11.  [get_reachable_subgraph] returns exactly when the source, the
    target and every node of the found path are nodes of the graph.  What
    it returns is an induced subgraph and, the source and the target
    being different, its nodes are the nodes of the graph that are on the
    found path or on a simple path from the source to the target of at
    most [maxPathLength] edges. *)
Theorem get_reachable_subgraph_spec {A} self (g : Graph A) :
  ((exists g', get_reachable_subgraph self g = inr g') <->
     has_node g (source_node_index (params self)) = true /\
     has_node g (target_node_index (params self)) = true /\
     forall n, n ∈ found_path self -> has_node g n = true) /\
  (forall g', get_reachable_subgraph self g = inr g' ->
     induced g' g /\
     (source_node_index (params self) <> target_node_index (params self) ->
      forall n, has_node g' n = true <->
        has_node g n = true /\
        (n ∈ found_path self \/
         exists p, simple_path g (source_node_index (params self))
                               (target_node_index (params self)) p /\
                   length p <= S (maxPathLength (params self)) /\ n ∈ p))).
Proof.
  set (s := source_node_index (params self)).
  set (t := target_node_index (params self)).
  unfold get_reachable_subgraph. fold s t.
  destruct (all_simple_paths g s t (maxPathLength (params self)))
    as [e|paths] eqn:Hp; cbn [bind].
  { split; [|done]. split; [by intros [? ?]|]. intros (Hs & Ht & _).
    unfold all_simple_paths in Hp. rewrite Hs, Ht in Hp. simpl in Hp.
    by destruct (bool_decide _). }
  destruct (all_simple_paths_spec _ _ _ _ _ Hp) as (Hs & Ht & Hne & _).
  set (S := foldl _ _ paths).
  assert (forall n, n ∈ S <-> n ∈ found_path self \/ exists p, p ∈ paths /\ n ∈ p)
    as HS.
  { intros n. unfold S. by rewrite elem_of_union_paths, elem_of_list_to_set. }
  assert (forall n, n ∈ found_path self -> n ∈ S) as Hfp by (intros; apply HS; tauto).
  pose proof (is_invalid_subgraph self g S Hfp) as Hinv.
  destruct (is_invalid self (subgraph g S)) eqn:E.
  - split; [|done]. split; [by intros [? ?]|]. intros (_ & _ & H).
    apply Hinv in H. done.
  - split.
    + split; [intros _|eauto]. split; [done|]. split; [done|]. by apply Hinv.
    + intros g' [= <-]. split; [apply induced_subgraph|].
      intros Hst n. rewrite has_node_subgraph_iff, HS. specialize (Hne Hst).
      split.
      * intros [[?|(p & Hin & Hn)] Hg]; (split; [done|]); [tauto|].
        right. exists p. apply Hne in Hin. tauto.
      * intros [Hg [?|(p & Hsp & Hlen & Hn)]]; (split; [|done]); [tauto|].
        right. exists p. split; [by apply Hne | done].
Qed.

(** X12.  [get_cycle_subgraph] returns exactly when every node of the
    found path is a node of the graph, and raises the invalid-graph
    exception of its stage otherwise.  What it returns is an induced
    subgraph whose nodes are the nodes of the graph that are on the found
    path or on a listed cycle that meets the found path. *)
Theorem get_cycle_subgraph_spec {A} self (g : Graph A) :
  ((exists g', get_cycle_subgraph self g = inr g') <->
     forall n, n ∈ found_path self -> has_node g n = true) /\
  (get_cycle_subgraph self g = inl (InvalidGraph CycleStage) \/
   exists g', get_cycle_subgraph self g = inr g') /\
  (forall g', get_cycle_subgraph self g = inr g' ->
     induced g' g /\
     forall n, has_node g' n = true <->
       has_node g n = true /\
       (n ∈ found_path self \/
        exists c, c ∈ simple_cycles g (cycleLength (params self)) /\
                  (exists m, m ∈ c /\ m ∈ found_path self) /\ n ∈ c)).
Proof.
  unfold get_cycle_subgraph.
  set (keep := fun path : list nat =>
                 existsb (fun node => bool_decide (node ∈ found_path self)) path).
  set (S := foldl _ _ (simple_cycles g (cycleLength (params self)))).
  assert (forall c, keep c = true <-> exists m, m ∈ c /\ m ∈ found_path self) as Hkeep.
  { intros c. unfold keep. rewrite existsb_exists. split.
    - intros (m & Hm%list_elem_of_In & Hb%bool_decide_eq_true). eauto.
    - intros (m & Hm & Hb). exists m.
      split; [by apply list_elem_of_In | by apply bool_decide_eq_true]. }
  assert (forall n, n ∈ S <->
            n ∈ found_path self \/
            exists c, c ∈ simple_cycles g (cycleLength (params self)) /\
                      keep c = true /\ n ∈ c) as HS.
  { intros n. unfold S. etrans; [apply (elem_of_union_cycles keep)|].
    by rewrite elem_of_list_to_set. }
  assert (forall n, n ∈ found_path self -> n ∈ S) as Hfp by (intros; apply HS; tauto).
  pose proof (is_invalid_subgraph self g S Hfp) as Hinv.
  destruct (is_invalid self (subgraph g S)) eqn:E.
  - split; [|split; [by left | done]].
    split; [by intros [? ?]|]. intros H. apply Hinv in H. done.
  - split; [|split; [right; eauto|]].
    + split; [intros _; by apply Hinv | eauto].
    + intros g' [= <-]. split; [apply induced_subgraph|].
      intros n. rewrite has_node_subgraph_iff, HS. split.
      * intros [[?|(c & Hc & Hk & Hn)] Hg]; (split; [done|]); [tauto|].
        right. exists c. apply Hkeep in Hk. tauto.
      * intros [Hg [?|(c & Hc & Hk & Hn)]]; (split; [|done]); [tauto|].
        right. exists c. apply Hkeep in Hk. tauto.
Qed.

(** X13.  The three reductions in a row return an induced subgraph of the
    graph they start from, with every node of the found path. *)
Theorem reduce_induced {A} self (g g' : Graph A) :
  reduce self g = inr g' ->
  induced g' g /\ forall n, n ∈ found_path self -> has_node g' n = true.
Proof.
  intros H. split.
  - apply reduce_shape in H as (S1 & S2 & S3 & -> & _).
    eapply induced_trans; [apply induced_subgraph|].
    eapply induced_trans; apply induced_subgraph.
  - apply reduce_has_found_path_nodes in H. unfold is_invalid in H.
    apply negb_false_iff in H. rewrite List.forallb_forall in H.
    intros n Hn. by apply H, list_elem_of_In.
Qed.

Lemma reduce_induced_witness :
  exists self path self' g0 g',
    init (unnamed 5) snapshot_input = inr self /\
    find_optimal_path self = inr (path, self') /\
    generate_initial_graph self' = inr g0 /\
    reduce self' g0 = inr g' /\
    induced g' g0 /\ forall n, n ∈ found_path self' -> has_node g' n = true.
Proof.
  eexists _, _, _, _, _. split; [vm_compute; reflexivity|].
  split; [vm_compute; reflexivity|].
  split; [vm_compute; reflexivity|].
  refine ((fun H => conj H (reduce_induced _ _ _ H)) _).
  vm_compute. reflexivity.
Defined.

(** X10.  On a graph whose edges are seen alike from both ends, the graph
    [get_main_subgraph] returns is an induced subgraph (the kept nodes
    keep their labels, the edges between them their bundles), it is
    connected, and it holds every node of the found path. *)
Theorem get_main_subgraph_spec {A} self (g g' : Graph A) :
  symmetric g ->
  get_main_subgraph self g = inr g' ->
  induced g' g /\ connected g' /\
  forall n, n ∈ found_path self -> has_node g' n = true.
Proof.
  intros Hs H. split; [|split].
  - apply get_main_subgraph_shape in H as (S & -> & _). apply induced_subgraph.
  - by eapply get_main_subgraph_connected.
  - unfold get_main_subgraph in H.
    destruct (is_invalid self _) eqn:E; [done|]. simplify_eq.
    unfold is_invalid in E. apply negb_false_iff in E.
    rewrite List.forallb_forall in E. intros n Hn. by apply E, list_elem_of_In.
Qed.

Lemma symmetricb_sound {A} `{EqDecision A} (g : Graph A) :
  well_formedb g = true -> symmetric g.
Proof. intros (_ & _ & H)%well_formedb_sound. exact H. Qed.

Lemma get_main_subgraph_spec_witness :
  exists self path self' g0 g',
    init (unnamed 5) snapshot_input = inr self /\
    find_optimal_path self = inr (path, self') /\
    generate_initial_graph self' = inr g0 /\
    get_main_subgraph self' g0 = inr g' /\
    induced g' g0 /\ connected g' /\
    forall n, n ∈ found_path self' -> has_node g' n = true.
Proof.
  eexists _, _, _, _, _. split; [vm_compute; reflexivity|].
  split; [vm_compute; reflexivity|].
  split; [vm_compute; reflexivity|].
  refine ((fun H => conj H (get_main_subgraph_spec _ _ _ _ H)) _).
  - apply symmetricb_sound. vm_compute. reflexivity.
  - vm_compute. reflexivity.
Defined.

(** ** make_graph and the matrix *)

Lemma mapM_total {X Y} (f : X -> result Y) l :
  (forall x, x ∈ l -> exists y, f x = inr y) -> exists ys, mapM f l = inr ys.
Proof.
  induction l as [|x l IH]; intros Hf; [by eexists|].
  rewrite mapM_cons. destruct (Hf x) as [y ->]; [left|]. cbn [bind].
  destruct IH as [ys ->]; [intros; apply Hf; by right|]. by eexists.
Qed.

(** X3.  With no name, [make_graph] returns the empty graph and reads
    nothing.  With a name, it returns exactly when every entry
    [score_matrix[u][v]] with [u < v < N] can be read.  It raises nothing
    but the [TypeError] of a missing matrix and the [IndexError] of a
    short one. *)
Theorem make_graph_returns self min_score :
  (intermediate_names self = [] -> make_graph self min_score = inr empty_graph) /\
  (intermediate_names self <> [] ->
     (exists g, make_graph self min_score = inr g) <->
     forall u v, u < v -> v < N self ->
       exists score, matrix_get (score_matrix self) u v = inr score) /\
  raises_only matrix_exn (make_graph self min_score).
Proof.
  split; [apply make_graph_empty|]. split.
  - intros Hne. split.
    + intros [g Hg] u v Huv Hv.
      destruct (make_graph_reads _ _ _ Hg Hne) as [scores Hs].
      apply (mapM_inr_elem _ _ _ (u, v) Hs). by apply elem_of_combinations2.
    + intros Hread.
      destruct (mapM_total (fun e => matrix_get (score_matrix self) e.1 e.2)
                  (combinations2 (N self))) as [scores Hs].
      { intros [u v] [? ?]%elem_of_combinations2. by apply Hread. }
      destruct (make_graph_built self min_score scores Hs) as (g & Hg & _). eauto.
  - apply raises_only_inl. apply make_graph_exn.
Qed.

(** ** The order of the edges *)

Open Scope Q_scope.

Lemma insert_sorted_ascending {X} (key : X -> Q) x l :
  ascending key l -> ascending key (insert_sorted key x l).
Proof.
  induction l as [|y l IH]; intros Hl; simpl.
  { split; [constructor | done]. }
  destruct Hl as [Hy Hl].
  destruct (Qle_bool (key x) (key y)) eqn:E.
  - apply Qle_bool_iff in E. simpl. split; [|done].
    constructor; [done|]. eapply Forall_impl; [done|].
    intros z Hz. simpl in Hz. by eapply Qle_trans.
  - apply Qle_bool_false in E. simpl. split; [|by apply IH].
    rewrite insert_sorted_Permutation. constructor; [|done].
    by apply Qlt_le_weak.
Qed.

Lemma sort_by_ascending {X} (key : X -> Q) l : ascending key (sort_by key l).
Proof.
  unfold sort_by. induction l as [|x l IH]; simpl; [done|].
  by apply insert_sorted_ascending.
Qed.

Close Scope Q_scope.

Lemma build_map_chunk_scale_one_witness :
  exists self,
    init (unnamed 4)
      (with_matrix (symmetric_matrix 4 (fun _ _ => 1%Q)) 1 false) = inr self /\
    build_map no_mcs self = inl OverflowError /\
    exists e, build_map no_mcs self = inl e.
Proof.
  eexists. split; [vm_compute; reflexivity|].
  split; [vm_compute; reflexivity|].
  apply build_map_chunk_scale_one; vm_compute; reflexivity.
Defined.

(** ** The final sweep *)

Lemma keys_symmetric_ends {A} (g : Graph A) :
  keys_agree g -> symmetric g -> ends_are_nodes g.
Proof.
  intros Hk Hs.
  assert (forall u v, is_Some (get_edge_data g u v) -> is_Some (dget u (_node g)))
    as Hu.
  { intros u v [a Ha]. apply Hk. unfold get_edge_data in Ha.
    by destruct (dget u (_adj g)). }
  intros u v Huv. split; [by eapply Hu|]. apply (Hu v u). by rewrite <-Hs.
Qed.

(** X20.  On a graph networkx could hold, the final sweep removes edges
    and does nothing else: the nodes and labels stay, an edge that is
    left has the bundle it had, and every flagged edge is left. *)
Theorem final_sweep_spec self g :
  keys_agree g -> symmetric g ->
  _node (final_sweep self g) = _node g /\
  (forall u v d, get_edge_data (final_sweep self g) u v = Some d ->
     get_edge_data g u v = Some d) /\
  (forall u v d, get_edge_data g u v = Some d -> Edge.found_path d = true ->
     get_edge_data (final_sweep self g) u v = Some d).
Proof.
  intros Hk Hs. pose proof (keys_symmetric_ends g Hk Hs) as He.
  assert (let g' := final_sweep self g in
          pruned_from g g' /\ _node g' = _node g /\
          forall u v d, get_edge_data g u v = Some d -> Edge.found_path d = true ->
            get_edge_data g' u v = Some d) as (Hin & Hn & Hf).
  { unfold final_sweep. apply foldl_inv.
    2:{ split; [by apply pruned_from_refl|]. done. }
    intros [[u v] sc] tmp _ (Hin & Hn & Hf). simpl.
    destruct (get_edge_data tmp u v) as [d|] eqn:Hd; [|done].
    destruct (Edge.found_path d) eqn:Hflag; [done|].
    pose proof (pruned_from_remove_edge g tmp u v Hin) as Hin'.
    destruct (remove_edge_keys tmp u v) as [Hn' _].
    pose proof Hin as (Hkt & Hst & _ & Het).
    destruct (check_constraints _ _).
    - split; [done|]. split; [congruence|].
      intros x y d' Hd' Hfl. rewrite get_edge_data_remove_edge by done.
      specialize (Hf _ _ _ Hd' Hfl).
      case_decide as Hxy; [|done]. exfalso.
      destruct Hxy as [[-> ->]|[-> ->]]; [|rewrite Hst in Hf]; congruence.
    - split; [|split].
      + apply pruned_from_add_edge; [done..| |done]. by apply Het.
      + destruct (add_edge_keys (remove_edge u v tmp) u v d) as [Hn'' _].
        * rewrite Hn', Hn. apply (He u v). apply Het in Hd. by rewrite Hd.
        * rewrite Hn', Hn. apply (He u v). apply Het in Hd. by rewrite Hd.
        * congruence.
      + intros x y d' Hd' Hfl. specialize (Hf _ _ _ Hd' Hfl).
        destruct Hin' as (Hk' & Hs' & _).
        rewrite get_edge_data_add_edge by done.
        rewrite get_edge_data_remove_edge by done.
        case_decide as Hxy; [|done].
        destruct Hxy as [[-> ->]|[-> ->]]; [|rewrite Hst in Hf]; congruence. }
  split; [done|]. split; [|done]. by destruct Hin as (_ & _ & _ & ?).
Qed.

Lemma well_formedb_keys_agree {A} `{EqDecision A} (g : Graph A) :
  well_formedb g = true -> keys_agree g.
Proof.
  unfold well_formedb. intros [H1 H2]%andb_true_iff.
  rewrite List.forallb_forall in H1, H2. intros k. split.
  - intros [nbrs Hk]. apply dget_Some_elem_of, list_elem_of_In, H2 in Hk.
    apply andb_true_iff in Hk as [Hk _]. simpl in Hk.
    unfold dmem in Hk. by apply bool_decide_eq_true in Hk.
  - intros Hk. assert (k ∈ dkeys (_node g)) as Hin.
    { destruct (decide (k ∈ dkeys (_node g))) as [|Hnin]; [done|].
      apply dget_None_keys in Hnin. rewrite Hnin in Hk. by destruct Hk. }
    apply list_elem_of_In, H1 in Hin. unfold dmem in Hin.
    by apply bool_decide_eq_true in Hin.
Qed.

Lemma final_sweep_spec_witness :
  exists g self',
    run (unnamed 4) sweep_input = inr (PairMap g, self') /\
    let before := deref self' (tmp_subgraph self') in
    _node (final_sweep self' before) = _node before /\
    (forall u v d, get_edge_data (final_sweep self' before) u v = Some d ->
       get_edge_data before u v = Some d) /\
    (forall u v d, get_edge_data before u v = Some d -> Edge.found_path d = true ->
       get_edge_data (final_sweep self' before) u v = Some d).
Proof.
  eexists _, _. split; [vm_compute; reflexivity|].
  apply final_sweep_spec.
  - apply well_formedb_keys_agree. vm_compute. reflexivity.
  - apply symmetricb_sound. vm_compute. reflexivity.
Defined.

(** ** The object after build_map *)

(** X2.  When [build_map] returns, the object holds the score matrix that
    [get_score_matrix] returned; the options, the molecules, the names
    and [N] are those it had; and the found links are the links of the
    found path, smaller endpoint first. *)
Theorem build_map_object mcs self r self' :
  build_map mcs self = inr (r, self') ->
  score_matrix self' = Some (get_score_matrix mcs self).1 /\
  params self' = params self /\
  intermediate_list self' = intermediate_list self /\
  intermediate_names self' = intermediate_names self /\
  N self' = N self /\
  found_links self' = links_ascending (found_path self').
Proof.
  unfold build_map. intros H.
  assert (let self0 := (get_score_matrix mcs self).2 in
          score_matrix self0 = Some (get_score_matrix mcs self).1 /\
          params self0 = params self /\
          intermediate_list self0 = intermediate_list self /\
          intermediate_names self0 = intermediate_names self /\
          N self0 = N self) as H0.
  { unfold get_score_matrix. by destruct (score_matrix self) eqn:E. }
  set (self0 := (get_score_matrix mcs self).2) in *.
  cbv zeta in H0. destruct H0 as (Hm & Hp & Hl & Hnm & HN).
  apply bind_inr in H as ([path self1] & Hfind & H). cbn [fst snd] in H.
  apply bind_inr in H as (og & _ & H).
  apply find_optimal_path_found in Hfind.
  destruct (optimal_path_mode _).
  { simplify_eq. simpl. repeat split; done. }
  apply bind_inr in H as ([[entries cs] self2] & Hprep & H). cbn [fst snd] in H.
  apply bind_inr in H as (self3 & Hloop & H).
  apply bind_inr in H as (ex & _ & H). simplify_eq.
  apply prepare_inv in Hprep as (g0 & _ & _ & _ & Hself2).
  apply main_loop_frame in Hloop. rewrite Hloop, Hself2. simpl.
  repeat split; done.
Qed.

Lemma build_map_object_witness :
  exists self r self',
    init (unnamed 4) sweep_input = inr self /\
    build_map no_mcs self = inr (r, self') /\
    score_matrix self' = Some (get_score_matrix no_mcs self).1 /\
    params self' = params self /\
    intermediate_list self' = intermediate_list self /\
    intermediate_names self' = intermediate_names self /\
    N self' = N self /\
    found_links self' = links_ascending (found_path self').
Proof.
  eexists _, _, _. split; [vm_compute; reflexivity|].
  refine ((fun H => conj H (build_map_object no_mcs _ _ _ H)) _).
  vm_compute. reflexivity.
Defined.

(** ** Dictionaries without a repeated key *)

Section dict_keys.
Context {K V : Type} `{EqDecision K}.
Implicit Types (d : dict K V) (k : K) (v : V).

Lemma dkeys_dalter (f : V -> V) k d : dkeys (dalter f k d) = dkeys d.
Proof.
  unfold dkeys. induction d as [|[k0 v0] d IH]; [done|].
  cbn [dalter]. case_decide; [done|]. rewrite !fmap_cons. by rewrite IH.
Qed.

Lemma elem_of_dkeys_dset k v d k' :
  k' ∈ dkeys (dset k v d) -> k' = k \/ k' ∈ dkeys d.
Proof.
  unfold dkeys. induction d as [|[k0 v0] d IH]; simpl.
  - intros ->%list_elem_of_singleton. by left.
  - case_decide; simpl.
    + subst. intros [->|?]%elem_of_cons; [by left|]. right. by right.
    + intros [->|Hin]%elem_of_cons; [right; left|].
      destruct (IH Hin); [by left|]. right. by right.
Qed.

Lemma NoDup_dkeys_dset k v d : NoDup (dkeys d) -> NoDup (dkeys (dset k v d)).
Proof.
  unfold dkeys. induction d as [|[k0 v0] d IH]; simpl.
  - intros _. apply NoDup_singleton.
  - intros [Hk0 Hd]%NoDup_cons. case_decide; simpl.
    + subst. by apply NoDup_cons.
    + apply NoDup_cons. split; [|by apply IH].
      intros [->|Hin]%elem_of_dkeys_dset; done.
Qed.

Lemma elem_of_dget k v d : NoDup (dkeys d) -> (k, v) ∈ d -> dget k d = Some v.
Proof.
  unfold dkeys. induction d as [|[k0 v0] d IH]; simpl.
  - by intros _ ?%elem_of_nil.
  - intros [Hk0 Hd]%NoDup_cons [[= -> ->]|Hin]%elem_of_cons.
    + by rewrite decide_True.
    + rewrite decide_False; [by apply IH|]. intros ->. apply Hk0.
      apply list_elem_of_fmap. by exists (k0, v).
Qed.

Lemma Forall_dalter (P : K * V -> Prop) (f : V -> V) k d :
  (forall v, P (k, v) -> P (k, f v)) -> Forall P d -> Forall P (dalter f k d).
Proof.
  intros Hf. induction 1 as [|[k0 v0] d H0 Hd IH]; simpl; [constructor|].
  case_decide; subst; constructor; auto.
Qed.
End dict_keys.

Lemma dkeys_dmap {K V W} (f : V -> W) (d : dict K V) : dkeys (dmap f d) = dkeys d.
Proof. unfold dkeys, dmap. rewrite <-list_fmap_compose. done. Qed.

Section repr.
Context {A : Type}.
Implicit Types (g : Graph A) (u v x y n k : nat) (a : A).

Lemma graph_repr_empty : graph_repr (@empty_graph A).
Proof. split; [apply keys_agree_empty|]. split; constructor. Qed.

Lemma graph_repr_add_node g n : graph_repr g -> graph_repr (add_node n g).
Proof.
  intros (Hk & Hn & Hf). split; [by apply keys_agree_add_node|].
  unfold add_node. destruct (has_node g n) eqn:E; [done|]. simpl. split.
  - unfold dkeys. rewrite fmap_app. simpl. apply NoDup_app.
    split; [done|]. split; [|apply NoDup_singleton].
    intros x Hx ->%list_elem_of_singleton.
    apply dmem_keys in Hx. unfold dmem in Hx. apply bool_decide_eq_true in Hx.
    apply Hk, has_node_spec in Hx. congruence.
  - apply Forall_app. split; [done|]. repeat constructor.
Qed.

Lemma graph_repr_set_label g n name : graph_repr g -> graph_repr (set_label n name g).
Proof. intros (Hk & Hn & Hf). split; [by apply keys_agree_set_label | done]. Qed.

Lemma graph_repr_add_edge g u v a : graph_repr g -> graph_repr (add_edge u v a g).
Proof.
  intros Hg. split; [apply keys_agree_add_edge; by destruct Hg|].
  destruct (graph_repr_add_node _ v (graph_repr_add_node _ u Hg)) as (_ & Hn & Hf).
  unfold add_edge. simpl. split.
  - by rewrite !dkeys_dalter.
  - apply Forall_dalter; [intros ?; apply NoDup_dkeys_dset|].
    apply Forall_dalter; [intros ?; apply NoDup_dkeys_dset | done].
Qed.

Lemma edges_from_elem seen (adj : dict nat (dict nat A)) u v a :
  (u, v, a) ∈ edges_from seen adj ->
  exists nbrs, (u, nbrs) ∈ adj /\ (v, a) ∈ nbrs.
Proof.
  revert seen. induction adj as [|[n nbrs] adj IH]; intros seen; simpl.
  { by intros ?%elem_of_nil. }
  intros [Hin|Hin]%elem_of_app.
  - apply list_elem_of_fmap in Hin as ([v' a'] & [= -> -> ->] & Hin).
    apply list_elem_of_filter in Hin as [_ Hin].
    exists nbrs. split; [left | done].
  - apply IH in Hin as (nb & H1 & H2). exists nb. split; [by right | done].
Qed.

(** An edge that [edges] lists is an edge, with the bundle listed. *)
Lemma edges_sound g u v a :
  graph_repr g -> (u, v, a) ∈ edges g -> get_edge_data g u v = Some a.
Proof.
  intros (_ & Hn & Hf) (nbrs & Hu & Hv)%edges_from_elem.
  unfold get_edge_data. rewrite (elem_of_dget _ _ _ Hn Hu).
  apply elem_of_dget; [|done].
  by apply (proj1 (Forall_forall _ _) Hf) in Hu.
Qed.
End repr.

Lemma make_graph_repr self min_score g :
  make_graph self min_score = inr g -> graph_repr g.
Proof.
  unfold make_graph. apply foldM_inv; [|apply graph_repr_empty].
  intros e g1 g2 _ Hg1. unfold add_scored_edges.
  apply foldM_inv; [|by apply graph_repr_set_label, graph_repr_add_node].
  intros p g3 g4 _ Hg3 H. bind_inv H.
  destruct (Qle_bool _ _); simplify_eq; [by apply graph_repr_add_edge | done].
Qed.

Lemma generate_initial_graph_repr self g0 :
  generate_initial_graph self = inr g0 -> graph_repr g0.
Proof.
  unfold generate_initial_graph. intros H.
  apply bind_inr in H as (gm & Hgm & H).
  apply make_graph_repr in Hgm as (Hk & Hn & Hf).
  revert H. apply foldM_inv.
  - intros e g1 g2 _ (Hk1 & Hn1 & Hf1) H.
    destruct (set_found_path_attr_keys _ _ _ _ _ H) as [Hnode Hadj].
    unfold set_found_path_attr in H.
    destruct (get_edge_data g1 e.1 e.2); [|done]. injection H as <-.
    split; [|split].
    + intros k. etrans; [apply Hadj|]. rewrite Hnode. apply Hk1.
    + cbn [_adj]. by rewrite !dkeys_dalter.
    + cbn [_adj].
      apply Forall_dalter; [intros ?; cbn [snd]; by rewrite dkeys_dalter|].
      apply Forall_dalter; [intros ?; cbn [snd]; by rewrite dkeys_dalter | done].
  - split; [|split]; cbn [_adj _node].
    + intros k. cbn [_adj _node]. rewrite dget_dmap, fmap_is_Some. apply Hk.
    + by rewrite dkeys_dmap.
    + unfold dmap at 1. apply Forall_fmap. eapply Forall_impl; [done|].
      intros [k nbrs]. simpl. by rewrite dkeys_dmap.
Qed.

(** The bundles of the sorted edges are found (line 298 raises nothing). *)
Lemma scoresList_data g :
  graph_repr g ->
  exists data,
    mapM (fun e => match get_edge_data g e.1 e.2 with
                   | Some d => ret d
                   | None => raise KeyError
                   end) (fst <$> scoresList g) = inr data.
Proof.
  intros Hg. apply mapM_total. intros [u v] Hin.
  apply list_elem_of_fmap in Hin as ([[u' v'] sc] & [= <- <-] & Hin).
  unfold scoresList in Hin. rewrite sort_by_Permutation in Hin.
  apply list_elem_of_fmap in Hin as ([[u' v'] d] & [= -> -> ->] & Hin).
  apply (edges_sound _ _ _ _ Hg) in Hin. simpl. rewrite Hin. eauto.
Qed.

(** ** The initial graph and the recursion *)

(** X14.  Once [make_graph] has returned the graph [gm],
    [generate_initial_graph] returns exactly when every link of the found
    path is an edge of [gm], and raises [KeyError] otherwise.  The graph
    it returns has the nodes and labels of [gm] and its edges, each with
    the score it has in [gm] and with a [found_path] flag that is set
    exactly on the edges between two consecutive nodes of the found
    path. *)
Theorem generate_initial_graph_spec self gm :
  make_graph self None = inr gm ->
  (links_present (found_path self) gm <->
     exists g0, generate_initial_graph self = inr g0) /\
  (~ links_present (found_path self) gm ->
     generate_initial_graph self = inl KeyError) /\
  (forall g0, generate_initial_graph self = inr g0 ->
     _node g0 = _node gm /\
     forall x y,
       get_edge_data g0 x y =
         (fun score => Edge.mk score (bool_decide (link (found_path self) x y)))
           <$> get_edge_data gm x y).
Proof. apply generate_initial_graph_edges. Qed.

Lemma generate_initial_graph_spec_witness :
  exists self path self' gm,
    init (unnamed 4) sweep_input = inr self /\
    find_optimal_path self = inr (path, self') /\
    make_graph self' None = inr gm /\
    (links_present (found_path self') gm <->
       exists g0, generate_initial_graph self' = inr g0) /\
    (~ links_present (found_path self') gm ->
       generate_initial_graph self' = inl KeyError) /\
    (forall g0, generate_initial_graph self' = inr g0 ->
       _node g0 = _node gm /\
       forall x y,
         get_edge_data g0 x y =
           (fun score => Edge.mk score (bool_decide (link (found_path self') x y)))
             <$> get_edge_data gm x y).
Proof.
  eexists _, _, _, _. split; [vm_compute; reflexivity|].
  split; [vm_compute; reflexivity|].
  split; [vm_compute; reflexivity|].
  apply generate_initial_graph_spec. vm_compute. reflexivity.
Defined.

Lemma split_loop_ext recurse1 recurse2 subgraph chunk_size n rest self p :
  (forall s ec dc, params s = p -> recurse1 s ec dc = recurse2 s ec dc) ->
  (forall s ec dc b s', recurse2 s ec dc = inr (b, s') -> frame s s') ->
  params self = p ->
  split_loop recurse1 subgraph chunk_size n rest self =
  split_loop recurse2 subgraph chunk_size n rest self.
Proof.
  intros Hext Hframe. revert rest self.
  induction n as [|n IH]; intros rest self Hp; [done|].
  destruct rest as [|ed rest]; [done|]. cbn [split_loop].
  rewrite Hext by done.
  destruct (recurse2 _ _ _) as [e|[b s1]] eqn:Hrun; [done|]. cbn [bind fst snd].
  apply Hframe, frame_params in Hrun.
  destruct (negb b); [|apply IH; congruence].
  destruct (check_chunk _ _ _) as [e|[b2 s2]] eqn:Hchk; [done|]. cbn [bind fst snd].
  apply check_chunk_frame, frame_params in Hchk.
  destruct b2; [done|]. apply IH. congruence.
Qed.

(** The depth allowed to the recursion does not count, once it is the
    chunk size at least. *)
Lemma chunk_process_fuel fuel fuel' self edge_chunk data_chunk chunk_size :
  chunk_size = 1 \/ 2 <= chunkScale (params self) ->
  1 <= chunk_size -> chunk_size <= fuel -> chunk_size <= fuel' ->
  chunk_process fuel self edge_chunk data_chunk chunk_size =
  chunk_process fuel' self edge_chunk data_chunk chunk_size.
Proof.
  revert fuel' self edge_chunk data_chunk chunk_size.
  induction fuel as [|fuel IH]; intros fuel' self ec dc cs Hc H1 Hf Hf'; [lia|].
  destruct fuel' as [|fuel']; [lia|]. cbn [chunk_process].
  destruct (check_chunk self ec dc) as [e|[b s1]] eqn:Hchk; [done|].
  cbn [bind fst snd]. destruct b; [done|].
  destruct (Nat.eqb_spec cs 1) as [->|Hne]; [done|].
  destruct Hc as [?|Hc]; [done|].
  destruct (Nat.eqb_spec (chunkScale (params self)) 0) as [?|_]; [lia|].
  apply check_chunk_frame, frame_params in Hchk.
  rewrite (split_loop_ext _
             (fun self0 e d => chunk_process fuel' self0 e d
                ((cs / chunkScale (params self)) `max` 1))
             _ _ _ _ _ (params self)); [done| | |done].
  - intros s ec' dc' Hp.
    assert (cs / chunkScale (params self) < cs) by (apply Nat.div_lt; lia).
    apply IH; [right; by rewrite Hp | lia..].
  - intros s ec' dc' b s'. apply chunk_process_frame.
Qed.

(** X18.  With a chunk scale of 2 or more, or a chunk size of 1, a depth
    of [chunk_size] is enough for the recursion of [chunk_process]: the
    call returns, or raises what a graph reduction raises, and neither
    the division by zero of line 210 nor a recursion error; and a greater
    depth gives the same outcome. *)
Theorem chunk_process_ends fuel fuel' self edge_chunk data_chunk chunk_size :
  chunk_size = 1 \/ 2 <= chunkScale (params self) ->
  1 <= chunk_size -> chunk_size <= fuel -> chunk_size <= fuel' ->
  raises_only reduction_exn
    (chunk_process fuel self edge_chunk data_chunk chunk_size) /\
  chunk_process fuel self edge_chunk data_chunk chunk_size =
    chunk_process fuel' self edge_chunk data_chunk chunk_size.
Proof.
  intros Hc H1 Hf Hf'. split.
  - by apply chunk_process_exn.
  - by apply chunk_process_fuel.
Qed.

Lemma chunk_process_ends_witness :
  exists entries chunk_size self,
    run_prepare (unnamed 4) chunk_input = inr (entries, chunk_size, self) /\
    chunk_size = 4 /\
    raises_only reduction_exn
      (chunk_process 4 self (take 4 entries).*1 (take 4 entries).*2 chunk_size) /\
    chunk_process 4 self (take 4 entries).*1 (take 4 entries).*2 chunk_size =
      chunk_process 9 self (take 4 entries).*1 (take 4 entries).*2 chunk_size.
Proof.
  eexists _, _, _. split; [vm_compute; reflexivity|].
  split; [reflexivity|].
  apply chunk_process_ends; vm_compute; lia.
Defined.

(** ** What build_map raises *)

Lemma walk_links_present {A} (g : Graph A) path :
  walk g path -> links_present path g.
Proof.
  induction path as [|u [|v rest] IH]; [by intros _ ? ? ?%elem_of_nil..|].
  intros [Huv Hw] x y. rewrite links_cons_cons.
  intros [[= -> ->]|Hin]%elem_of_cons; [by apply has_edge_spec | by apply IH].
Qed.

Lemma get_main_subgraph_valid {A} self (g g' : Graph A) :
  get_main_subgraph self g = inr g' -> is_invalid self g' = false.
Proof.
  unfold get_main_subgraph. intros H.
  destruct (is_invalid self _) eqn:E; by simplify_eq.
Qed.

Lemma prepare_exn_found self gm e :
  make_graph self None = inr gm ->
  links_present (found_path self) gm ->
  prepare self = inl e ->
  reduction_exn e \/ e = OverflowError \/ e = ValueError.
Proof.
  intros Hgm Hl H. unfold prepare in H.
  destruct (generate_initial_graph_edges self gm Hgm) as (Hiff & _ & _).
  apply Hiff in Hl as [g0 Hg0]. rewrite Hg0 in H. cbn [bind] in H.
  destruct (scoresList_data g0 (generate_initial_graph_repr _ _ Hg0)) as [data Hd].
  rewrite Hd in H. cbn [bind] in H.
  apply bind_inl in H as [H|(cs & _ & H)].
  { unfold initial_chunk_size in H.
    destruct (length _) as [|[|?]], (chunkScale _) as [|[|?]]; simplify_eq; tauto. }
  apply bind_inl in H as [H|(ex1 & _ & H)];
    [left; by eapply get_reachable_subgraph_exn|].
  apply bind_inl in H as [H|(ex2 & _ & H)];
    [left; by eapply get_cycle_subgraph_exn|].
  apply bind_inl in H as [H|(ex3 & Hex3 & H)];
    [left; by eapply get_main_subgraph_exn|].
  by rewrite (get_main_subgraph_valid _ _ _ Hex3) in H.
Qed.

(** X23.  [build_map] raises nothing but the [TypeError] or [IndexError]
    of a matrix entry that cannot be read, [NodeNotFound], [NoPathFound],
    the invalid-graph exception of a reduction, and the [OverflowError]
    or [ValueError] of the chunk size of line 299.  So it raises neither
    the [KeyError] of lines 194 and 298, nor the exception of line 309,
    nor the division by zero of line 210, and the recursion of
    [chunk_process] ends. *)
Theorem build_map_raises mcs self :
  raises_only build_map_exn (build_map mcs self).
Proof.
  apply raises_only_inl. intros e H. unfold build_map_exn. unfold build_map in H.
  apply bind_inl in H as [H|([path self1] & Hfind & H)].
  { apply find_optimal_path_exn in H as [?|[-> | ->]];
      [tauto | right; left; by left | tauto]. }
  apply bind_inl in H as [H|(og & _ & H)];
    [left; by eapply make_optimal_path_graph_exn|].
  cbn [fst snd] in H. destruct (optimal_path_mode _); [done|].
  destruct (find_optimal_path_simple _ _ _ Hfind) as (gm & Hgm & (_ & _ & _ & Hw) & _).
  pose proof (find_optimal_path_found _ _ _ Hfind) as Hself1.
  assert (make_graph self1 None = inr gm) as Hgm1 by (by rewrite Hself1).
  assert (links_present (found_path self1) gm) as Hl.
  { rewrite Hself1. by apply walk_links_present. }
  apply bind_inl in H as [H|([[entries cs] self2] & Hprep & H)].
  { apply (prepare_exn_found _ _ _ Hgm1 Hl) in H. tauto. }
  cbn [fst snd] in H. apply prepare_chunk_size in Hprep as [Hcs Hp].
  apply initial_chunk_size_pos in Hcs as [H1 Hc].
  apply bind_inl in H as [H|(self3 & _ & H)].
  { apply main_loop_exn in H; [tauto| |lia..]. by rewrite Hp. }
  apply bind_inl in H as [H|(ex & _ & H)]; [|done].
  right. left. by eapply get_main_subgraph_exn.
Qed.

(** ** The entries the pruner works through *)

Lemma insert_sorted_fmap {X Y} (key : Y -> Q) (f : X -> Y) x l :
  insert_sorted key (f x) (f <$> l) = f <$> insert_sorted (key ∘ f) x l.
Proof.
  induction l as [|y l IH]; [done|]. rewrite fmap_cons. cbn [insert_sorted].
  unfold compose at 1 2. destruct (Qle_bool _ _); [done|].
  by rewrite fmap_cons, IH.
Qed.

Lemma sort_by_fmap {X Y} (key : Y -> Q) (f : X -> Y) l :
  sort_by key (f <$> l) = f <$> sort_by (key ∘ f) l.
Proof.
  unfold sort_by. induction l as [|x l IH]; [done|].
  rewrite fmap_cons. cbn [foldr]. by rewrite IH, insert_sorted_fmap.
Qed.

(** X19.  The entries the main loop works through are the edges of the
    initial graph, each once and each with its own bundle, sorted by
    score from the lowest up. *)
Theorem prepare_entries self entries chunk_size self' :
  prepare self = inr (entries, chunk_size, self') ->
  exists g0,
    generate_initial_graph self = inr g0 /\
    entries = sort_by (fun ed => Edge.score ed.2) (edges g0) /\
    entries ≡ₚ edges g0 /\
    ascending (fun ed => Edge.score ed.2) entries /\
    Forall (fun ed => get_edge_data g0 ed.1.1 ed.1.2 = Some ed.2) entries.
Proof.
  intros H. unfold prepare in H.
  apply bind_inr in H as (g0 & Hg0 & H).
  apply bind_inr in H as (data & Hdata & H).
  apply bind_inr in H as (cs & Hcs & H).
  apply bind_inr in H as (ex1 & Hex1 & H).
  apply bind_inr in H as (ex2 & Hex2 & H).
  apply bind_inr in H as (ex3 & Hex3 & H).
  destruct (is_invalid _ _); [done|]. simplify_eq.
  exists g0. split; [done|].
  pose proof (generate_initial_graph_repr _ _ Hg0) as Hrepr.
  set (L := sort_by (fun ed : nat * nat * Edge.data => Edge.score ed.2) (edges g0)).
  assert (L ≡ₚ edges g0) as Hperm by apply sort_by_Permutation.
  assert (Forall (fun ed => get_edge_data g0 ed.1.1 ed.1.2 = Some ed.2) L) as Hall.
  { apply Forall_forall. intros [[u v] d] Hin. rewrite Hperm in Hin.
    by apply edges_sound. }
  assert (fst <$> scoresList g0 = L.*1) as Hedges.
  { unfold scoresList. rewrite sort_by_fmap, <-list_fmap_compose.
    apply list_fmap_ext. by intros ? [[u v] d] _. }
  assert (data = L.*2) as ->.
  { rewrite Hedges in Hdata.
    rewrite (mapM_fmap _ (fun ed : nat * nat => default (Edge.mk 0 false)
                            (get_edge_data g0 ed.1 ed.2))) in Hdata.
    - simplify_eq. rewrite <-list_fmap_compose. apply list_fmap_ext.
      intros ? ed Hed%list_elem_of_lookup_2. simpl.
      apply (proj1 (Forall_forall _ _) Hall) in Hed. by rewrite Hed.
    - intros e (ed & -> & Hed)%list_elem_of_fmap.
      apply (proj1 (Forall_forall _ _) Hall) in Hed. by rewrite Hed. }
  rewrite Hedges, zip_fst_snd.
  split; [done|]. split; [done|]. split; [apply sort_by_ascending | done].
Qed.

Lemma prepare_entries_witness :
  exists self0 path self entries chunk_size self',
    init (unnamed 4) chunk_input = inr self0 /\
    find_optimal_path self0 = inr (path, self) /\
    prepare self = inr (entries, chunk_size, self') /\
    exists g0,
      generate_initial_graph self = inr g0 /\
      entries = sort_by (fun ed => Edge.score ed.2) (edges g0) /\
      entries ≡ₚ edges g0 /\
      ascending (fun ed => Edge.score ed.2) entries /\
      Forall (fun ed => get_edge_data g0 ed.1.1 ed.1.2 = Some ed.2) entries.
Proof.
  eexists _, _, _, _, _, _. split; [vm_compute; reflexivity|].
  split; [vm_compute; reflexivity|].
  refine ((fun H => conj H (prepare_entries _ _ _ _ H)) _).
  vm_compute. reflexivity.
Defined.

(** ** The constraints *)

(** X25.  The constraints hold of a graph exactly when every node of the
    node snapshot is cycled in the graph and every link of the edge
    snapshot is a cycled link of the graph; the edges are not looked at
    when the nodes fail. *)
Theorem check_constraints_spec {A} self (g : Graph A) :
  (check_constraints self g = true <->
     initialCycledNodesSet self ⊆ get_cycled_nodes self g /\
     initialCycledEdgesSet self ⊆ get_cycled_edges self g) /\
  (check_node_cycle_covering self g = false -> check_constraints self g = false).
Proof.
  unfold check_constraints, check_node_cycle_covering, check_edge_cycle_covering.
  assert (forall `{Countable K} (X Y : gset K), (size (X ∖ Y) =? 0) = true <-> X ⊆ Y)
    as Hsub.
  { intros K ? ? X Y. rewrite Nat.eqb_eq, size_empty_iff. split.
    - intros HE x Hx. destruct (decide (x ∈ Y)) as [|Hn]; [done|].
      exfalso. apply (not_elem_of_empty (C := gset K) x). apply HE.
      by apply elem_of_difference.
    - intros HS x. split; [|by intros ?%not_elem_of_empty].
      intros [Hx Hn]%elem_of_difference. destruct Hn. by apply HS. }
  split.
  - destruct (size (initialCycledNodesSet self ∖ _) =? 0) eqn:E.
    + rewrite <-(Hsub _ _ _ (initialCycledNodesSet self)), E, Hsub. tauto.
    + split; [done|]. intros [Hn _]. apply Hsub in Hn. congruence.
  - by intros ->.
Qed.

(** ** The rounds of the two loops *)

Lemma take_live_shorter g chunk_size rest :
  1 <= chunk_size -> rest <> [] ->
  length (take_live g chunk_size [] [] rest).2 < length rest.
Proof.
  intros Hc Hne.
  destruct (take_live_acc g chunk_size [] [] rest) as (_ & _ & _ & _ & _ & H).
  apply H; [simpl; lia | done].
Qed.

Lemma main_loop_bound fuel chunk_size n m rest self :
  1 <= chunk_size -> length rest <= n -> length rest <= m ->
  main_loop fuel chunk_size n rest self = main_loop fuel chunk_size m rest self.
Proof.
  intros Hc. revert m rest self.
  induction n as [|n IH]; intros m rest self Hn Hm.
  { destruct rest; [|simpl in Hn; lia]. by destruct m. }
  destruct rest as [|ed rest]; [by destruct m|].
  destruct m as [|m]; [simpl in Hm; lia|].
  cbn [main_loop].
  destruct (chunk_process _ _ _ _ _) as [e|r]; [done|]. cbn [bind].
  pose proof (take_live_shorter (deref self (tmp_subgraph self)) chunk_size
                (ed :: rest) Hc ltac:(done)) as Hlt.
  change (length (ed :: rest)) with (S (length rest)) in *. apply IH; lia.
Qed.

Lemma split_loop_bound recurse subgraph chunk_size n m rest self :
  1 <= chunk_size -> length rest <= n -> length rest <= m ->
  split_loop recurse subgraph chunk_size n rest self =
  split_loop recurse subgraph chunk_size m rest self.
Proof.
  intros Hc. revert m rest self.
  induction n as [|n IH]; intros m rest self Hn Hm.
  { destruct rest; [|simpl in Hn; lia]. by destruct m. }
  destruct rest as [|ed rest]; [by destruct m|].
  destruct m as [|m]; [simpl in Hm; lia|].
  cbn [split_loop].
  pose proof (take_live_shorter (deref self subgraph) chunk_size
                (ed :: rest) Hc ltac:(done)) as Hlt.
  change (length (ed :: rest)) with (S (length rest)) in *.
  destruct (recurse _ _ _) as [e|r]; [done|]. cbn [bind].
  destruct (negb r.1).
  - destruct (check_chunk _ _ _) as [e|r']; [done|]. cbn [bind].
    destruct r'.1; [done|]. apply IH; lia.
  - apply IH; lia.
Qed.

(** X26.  The two loops over the entries end: with a chunk size of 1 or
    more a round consumes an entry at least, so the main loop and the
    loop of a split run through their entries in as many rounds as there
    are entries, at most; a larger bound on the rounds changes nothing. *)
Theorem loops_end fuel recurse subgraph chunk_size n rest self :
  1 <= chunk_size -> length rest <= n ->
  main_loop fuel chunk_size n rest self =
    main_loop fuel chunk_size (length rest) rest self /\
  split_loop recurse subgraph chunk_size n rest self =
    split_loop recurse subgraph chunk_size (length rest) rest self.
Proof.
  intros Hc Hn. split.
  - by apply main_loop_bound.
  - by apply split_loop_bound.
Qed.

Lemma loops_end_witness :
  exists entries chunk_size self,
    run_prepare (unnamed 4) chunk_input = inr (entries, chunk_size, self) /\
    main_loop 5 chunk_size 100 entries self =
      main_loop 5 chunk_size (length entries) entries self /\
    split_loop (fun s e d => check_chunk s e d) 0 chunk_size 100 entries self =
      split_loop (fun s e d => check_chunk s e d) 0 chunk_size (length entries)
                 entries self.
Proof.
  eexists _, _, _. split; [vm_compute; reflexivity|].
  apply loops_end; vm_compute; lia.
Defined.

(** ** What check_chunk accepts *)

(** X27.  When [check_chunk] accepts a chunk of removable edges, the new
    current subgraph meets the constraints and holds every node of the
    found path; when it rejects one, the reduction of the graph without
    the chunk does not meet the constraints. *)
Theorem check_chunk_verdict self edge_chunk data_chunk b self' :
  Forall (fun d => removable d = true) data_chunk ->
  check_chunk self edge_chunk data_chunk = inr (b, self') ->
  exists exgraph,
    reduce self (remove_edges_from edge_chunk (deref self (tmp_subgraph self)))
      = inr exgraph /\
    b = check_constraints self exgraph /\
    (forall n, n ∈ found_path self -> has_node exgraph n = true) /\
    (b = true -> deref self' (tmp_subgraph self') = exgraph).
Proof.
  intros Hall H. unfold check_chunk in H.
  assert (forallb id (removable <$> data_chunk) = true) as Hfor.
  { clear H. induction Hall as [|d l Hd Hl IH]; [done|].
    rewrite fmap_cons. cbn [forallb]. unfold id at 1. by rewrite Hd. }
  rewrite Hfor in H. cbn [negb] in H.
  set (self1 := mutate _ _ self) in H.
  destruct (decide (tmp_subgraph self < length (heap self))) as [Href|Href].
  - assert (deref self1 (tmp_subgraph self) =
            remove_edges_from edge_chunk (deref self (tmp_subgraph self))) as Hd1
      by (by apply deref_mutate).
    apply bind_inr in H as (ex1 & Hex1 & H).
    apply bind_inr in H as (ex2 & Hex2 & H).
    apply bind_inr in H as (ex3 & Hex3 & H).
    assert (reduce self (remove_edges_from edge_chunk (deref self (tmp_subgraph self)))
            = inr ex3) as Hred.
    { rewrite <-Hd1. change (reduce self1 (deref self1 (tmp_subgraph self)) = inr ex3).
      unfold reduce. rewrite Hex1. cbn [bind]. by rewrite Hex2. }
    exists ex3. split; [done|].
    pose proof (reduce_has_found_path_nodes _ _ _ Hred) as Hvalid.
    change (is_invalid self1 ex3) with (is_invalid self ex3) in H.
    change (check_constraints self1 ex3) with (check_constraints self ex3) in H.
    rewrite Hvalid in H.
    split; [|split].
    + destruct (check_constraints self ex3); cbn [negb] in H; by simplify_eq.
    + unfold is_invalid in Hvalid. apply negb_false_iff in Hvalid.
      rewrite List.forallb_forall in Hvalid.
      intros n Hn. by apply Hvalid, list_elem_of_In.
    + intros ->. destruct (check_constraints self ex3); cbn [negb] in H;
        simplify_eq. apply deref_set_tmp_subgraph.
  - (* no current object: the empty graph stands for it *)
    assert (deref self1 (tmp_subgraph self) =
            remove_edges_from edge_chunk (deref self (tmp_subgraph self))) as Hd1.
    { unfold deref, self1, mutate. simpl.
      rewrite list_lookup_alter, !lookup_ge_None_2 by lia. simpl.
      transitivity (@empty_graph Edge.data); [by destruct (decide _)|].
      clear. induction edge_chunk as [|e l IH]; [done|]. exact IH. }
    apply bind_inr in H as (ex1 & Hex1 & H).
    apply bind_inr in H as (ex2 & Hex2 & H).
    apply bind_inr in H as (ex3 & Hex3 & H).
    assert (reduce self (remove_edges_from edge_chunk (deref self (tmp_subgraph self)))
            = inr ex3) as Hred.
    { rewrite <-Hd1. change (reduce self1 (deref self1 (tmp_subgraph self)) = inr ex3).
      unfold reduce. rewrite Hex1. cbn [bind]. by rewrite Hex2. }
    exists ex3. split; [done|].
    pose proof (reduce_has_found_path_nodes _ _ _ Hred) as Hvalid.
    change (is_invalid self1 ex3) with (is_invalid self ex3) in H.
    change (check_constraints self1 ex3) with (check_constraints self ex3) in H.
    rewrite Hvalid in H.
    split; [|split].
    + destruct (check_constraints self ex3); cbn [negb] in H; by simplify_eq.
    + unfold is_invalid in Hvalid. apply negb_false_iff in Hvalid.
      rewrite List.forallb_forall in Hvalid.
      intros n Hn. by apply Hvalid, list_elem_of_In.
    + intros ->. destruct (check_constraints self ex3); cbn [negb] in H;
        simplify_eq. apply deref_set_tmp_subgraph.
Qed.

Lemma check_chunk_verdict_witness :
  exists entries chunk_size self b self',
    run_prepare (unnamed 4) chunk_input = inr (entries, chunk_size, self) /\
    check_chunk self (take 2 entries).*1 (take 2 entries).*2 = inr (b, self') /\
    exists exgraph,
      reduce self (remove_edges_from (take 2 entries).*1
                     (deref self (tmp_subgraph self))) = inr exgraph /\
      b = check_constraints self exgraph /\
      (forall n, n ∈ found_path self -> has_node exgraph n = true) /\
      (b = true -> deref self' (tmp_subgraph self') = exgraph).
Proof.
  eexists _, _, _, _, _. split; [vm_compute; reflexivity|].
  refine ((fun H => conj H (check_chunk_verdict _ _ _ _ _ _ H)) _).
  - vm_compute. repeat constructor.
  - vm_compute. reflexivity.
Defined.
